(** * node-unificontroller: the session protocol, the request executor and
      the push-channel listener of [lib/index.js]

    The development is a shallow embedding of the class exported by
    [lib/index.js].  Promises are defunctionalised: a pending promise is the
    continuation that will consume its outcome, and the event loop is a
    transition function over a [World] that holds the client object, the
    HTTP requests in flight and everything the client has produced so far
    (requests handed to axios, settled calls, emitted events).  Every
    callback of the source runs to completion inside one transition, as it
    does on the JavaScript event loop.

    What the platform decides is an input of the model: the answers of
    the network are events, what the constructor of a WebSocket accepts is
    a function the world holds, and so are the listeners the application
    has subscribed to ['error'], the one name on which the emitter throws
    when nobody listens.  The log lines of the source are left out, except
    for what evaluating their arguments can throw. *)

From Stdlib Require Import String Ascii List ZArith Bool Arith Lia.
From Stdlib Require Import Floats.SpecFloat.
Import ListNotations.

Set Warnings "-register-all".

#[local] Open Scope list_scope.
#[local] Open Scope string_scope.

(* ===================================================================== *)
(** * JavaScript data *)
(* ===================================================================== *)

(** ** Strings

    A JavaScript string is modelled by a [string] of bytes: the UTF-8
    encoding of the text (header values, which Node decodes as latin1, are
    their bytes).  All patterns the source matches against are ASCII, so
    matching on bytes and matching on UTF-16 code units agree. *)
Module Str.

Definition chars (s : string) : list ascii := list_ascii_of_string s.
Definition of_chars (l : list ascii) : string := string_of_list_ascii l.

(** [s.split(c)] for a one character separator: never returns the empty
    array, [''.split(';')] is [['']]. *)
Fixpoint split_chars (c : ascii) (l : list ascii) (cur : list ascii)
  : list (list ascii) :=
  match l with
  | [] => [rev cur]
  | x :: r =>
      if Ascii.eqb x c then rev cur :: split_chars c r []
      else split_chars c r (x :: cur)
  end.

Definition split (c : ascii) (s : string) : list string :=
  map of_chars (split_chars c (chars s) []).

(** [/^p/.test(s)]: [p] is a literal prefix of [s]. *)
Definition starts_with (p s : string) : bool := String.prefix p s.

(** Line terminators inside the byte range, which [.] of a regular
    expression does not match. *)
Definition is_line_terminator (c : ascii) : bool :=
  orb (Ascii.eqb c "010"%char) (Ascii.eqb c "013"%char).

(** What a greedy dot-star group captures at the start of [l]. *)
Fixpoint dot_star (l : list ascii) : list ascii :=
  match l with
  | [] => []
  | c :: r => if is_line_terminator c then [] else c :: dot_star r
  end.

Fixpoint drop (n : nat) (s : string) : string :=
  match n, s with
  | O, _ => s
  | S n', EmptyString => EmptyString
  | S n', String _ r => drop n' r
  end.

(** Group 1 of [s.match] on the pattern [^p] followed by a dot-star group,
    meaningful when [starts_with p s]. *)
Definition capture_after (p s : string) : string :=
  of_chars (dot_star (chars (drop (String.length p) s))).

(** Truthiness of a string: only [''] is falsy. *)
Definition truthy (s : string) : bool :=
  match s with EmptyString => false | _ => true end.

End Str.

(** ** Numbers

    A JavaScript number is an IEEE 754 binary64 value. *)
Module Num.

Definition prec : Z := 53.
Definition emax : Z := 1024.

Definition number : Type := spec_float.

Definition of_Z (z : Z) : number := binary_normalize prec emax z 0 false.

Definition zero : number := of_Z 0.
Definition one : number := of_Z 1.
Definition hundred : number := of_Z 100.

(** [a > b]: false as soon as one side is NaN. *)
Definition gt (a b : number) : bool := SFltb b a.

(** The number a decimal literal [(-)digits * 10^exp10] denotes, rounded
    to nearest, ties to even.  For a negative exponent the quotient is
    computed with so many extra bits that one sticky bit decides the
    rounding. *)
Definition of_decimal (neg : bool) (digits : Z) (exp10 : Z) : number :=
  if (digits =? 0)%Z then S754_zero neg
  else if (0 <=? exp10)%Z then
    binary_normalize prec emax
      (cond_Zopp neg (digits * 10 ^ exp10))%Z 0 neg
  else
    let den := (10 ^ (- exp10))%Z in
    let s := (1100 + Z.log2_up den)%Z in
    let num := (digits * 2 ^ s)%Z in
    let q := (num / den)%Z in
    let sticky := if (num mod den =? 0)%Z then 0%Z else 1%Z in
    binary_normalize prec emax
      (cond_Zopp neg (2 * q + sticky))%Z (- (s + 1))%Z neg.

(** ToBoolean on a number: [0], [-0] and [NaN] are falsy. *)
Definition truthy (n : number) : bool :=
  match n with
  | S754_zero _ | S754_nan => false
  | _ => true
  end.

End Num.

(** ** Values *)
Inductive JsVal : Type :=
| VUndefined
| VNull
| VBool (b : bool)
| VNumber (n : Num.number)
| VString (s : string)
| VArray (l : list JsVal)
| VObject (props : list (string * JsVal)).

(** Property read [v.k] for the property names the source reads off values
    that come from the network ([meta], [message], [data], [key]): none of
    them is defined on a built-in prototype, so on an object the result is
    the own property or [undefined], on any other non-nullish value it is
    [undefined], and on [null] or [undefined] the read throws a TypeError
    ([None]). *)
Fixpoint lookup_prop (k : string) (props : list (string * JsVal)) : JsVal :=
  match props with
  | [] => VUndefined
  | (k', v) :: r => if String.eqb k' k then v else lookup_prop k r
  end.

Definition get_prop (v : JsVal) (k : string) : option JsVal :=
  match v with
  | VUndefined | VNull => None
  | VObject props => Some (lookup_prop k props)
  | _ => Some VUndefined
  end.

(** [v === 'lit'] for a string literal. *)
Definition strict_eq_string (v : JsVal) (lit : string) : bool :=
  match v with
  | VString s => String.eqb s lit
  | _ => false
  end.

(** ToBoolean. *)
Definition truthy (v : JsVal) : bool :=
  match v with
  | VUndefined | VNull => false
  | VBool b => b
  | VNumber n => Num.truthy n
  | VString s => Str.truthy s
  | VArray _ | VObject _ => true
  end.

(* ===================================================================== *)
(** * [JSON.parse]

    The listener hands every frame to the platform's [JSON.parse].  To run
    the listener on concrete frames the grammar of ECMA-404 is implemented
    here as a recursive descent parser. *)
(* ===================================================================== *)
Module JSON.

#[local] Open Scope char_scope.

Inductive Res (A : Type) : Type :=
| Ok (a : A)
| SyntaxError
| OutOfFuel.
Arguments Ok {A} a.
Arguments SyntaxError {A}.
Arguments OutOfFuel {A}.

Definition bind {A B : Type} (c : Res A) (k : A -> Res B) : Res B :=
  match c with
  | Ok a => k a
  | SyntaxError => SyntaxError
  | OutOfFuel => OutOfFuel
  end.

Notation "'let*' p ':=' c 'in' k" :=
  (bind c (fun p => k))
    (at level 61, p pattern, c at next level, right associativity).

Definition of_option {A : Type} (o : option A) : Res A :=
  match o with
  | Some a => Ok a
  | None => SyntaxError
  end.

Definition is_ws (c : ascii) : bool :=
  Ascii.eqb c " " || Ascii.eqb c "009" || Ascii.eqb c "010"
  || Ascii.eqb c "013".

Fixpoint skip_ws (l : list ascii) : list ascii :=
  match l with
  | c :: r => if is_ws c then skip_ws r else l
  | [] => []
  end.

(** [l] without the prefix [p], when it starts with [p]. *)
Fixpoint strip_prefix (p l : list ascii) : option (list ascii) :=
  match p, l with
  | [], _ => Some l
  | x :: p', y :: l' => if Ascii.eqb x y then strip_prefix p' l' else None
  | _ :: _, [] => None
  end.

Definition digit_val (c : ascii) : option Z :=
  let n := Z.of_nat (nat_of_ascii c) in
  if ((48 <=? n) && (n <=? 57))%Z then Some (n - 48)%Z else None.

Definition hex_val (c : ascii) : option N :=
  let n := N_of_ascii c in
  if ((48 <=? n) && (n <=? 57))%N then Some (n - 48)%N
  else if ((65 <=? n) && (n <=? 70))%N then Some (n - 55)%N
  else if ((97 <=? n) && (n <=? 102))%N then Some (n - 87)%N
  else None.

(** The longest run of decimal digits at the start of [l]. *)
Fixpoint take_digits (l : list ascii) : list Z * list ascii :=
  match l with
  | c :: r =>
      match digit_val c with
      | Some d => let '(ds, rest) := take_digits r in (d :: ds, rest)
      | None => ([], l)
      end
  | [] => ([], [])
  end.

Definition digits_to_Z (ds : list Z) : Z :=
  fold_left (fun acc d => (10 * acc + d)%Z) ds 0%Z.

Definition is_nil {A : Type} (l : list A) : bool :=
  match l with
  | [] => true
  | _ => false
  end.

(** The fraction of a number: a dot and at least one digit, or nothing. *)
Definition parse_frac (l : list ascii) : option (list Z * list ascii) :=
  match l with
  | c :: r =>
      if Ascii.eqb c "." then
        let '(fd, r') := take_digits r in
        if is_nil fd then None else Some (fd, r')
      else Some ([], l)
  | [] => Some ([], l)
  end.

(** The exponent of a number: [e] or [E], an optional sign and at least
    one digit, or nothing. *)
Definition parse_exp (l : list ascii) : option (Z * list ascii) :=
  match l with
  | c :: r =>
      if (Ascii.eqb c "e" || Ascii.eqb c "E")%bool then
        let '(sg, r') :=
          match r with
          | s :: t =>
              if Ascii.eqb s "+" then (false, t)
              else if Ascii.eqb s "-" then (true, t)
              else (false, r)
          | [] => (false, r)
          end in
        let '(ed, r'') := take_digits r' in
        if is_nil ed then None
        else Some (cond_Zopp sg (digits_to_Z ed), r'')
      else Some (0%Z, l)
  | [] => Some (0%Z, l)
  end.

(** A number after its optional sign: the integer part, which is a lone
    [0] or starts with another digit, then fraction and exponent. *)
Definition parse_unsigned (neg : bool) (l : list ascii)
  : option (JsVal * list ascii) :=
  let '(ip, r1) := take_digits l in
  match ip with
  | [] => None
  | d0 :: more =>
      if ((d0 =? 0)%Z && negb (is_nil more))%bool then
        (* the integer part is a lone [0]: a digit after it is followed
           by nothing the grammar accepts *)
        None
      else
        match parse_frac r1 with
        | None => None
        | Some (fp, r2) =>
            match parse_exp r2 with
            | None => None
            | Some (ex, r3) =>
                Some (VNumber
                        (Num.of_decimal neg (digits_to_Z (ip ++ fp))
                           (ex - Z.of_nat (length fp))), r3)
            end
        end
  end.

(** *** String literals

    A literal is read into units, a raw byte or the code unit of a
    [\uXXXX] escape, then encoded: two escapes that form a surrogate pair
    denote one code point. *)
Inductive StrUnit : Type :=
| Raw (c : ascii)
| Esc (u : N).

Definition byte (n : N) : ascii := ascii_of_N n.

Definition utf8 (cp : N) : list ascii :=
  (if cp <? 128 then [byte cp]
   else if cp <? 2048 then [byte (192 + cp / 64); byte (128 + cp mod 64)]
   else if cp <? 65536 then
     [byte (224 + cp / 4096); byte (128 + (cp / 64) mod 64);
      byte (128 + cp mod 64)]
   else
     [byte (240 + cp / 262144); byte (128 + (cp / 4096) mod 64);
      byte (128 + (cp / 64) mod 64); byte (128 + cp mod 64)])%N.

Definition is_high_surrogate (u : N) : bool :=
  ((55296 <=? u) && (u <=? 56319))%N.
Definition is_low_surrogate (u : N) : bool :=
  ((56320 <=? u) && (u <=? 57343))%N.

Fixpoint encode (us : list StrUnit) : list ascii :=
  match us with
  | [] => []
  | Raw c :: r => c :: encode r
  | Esc hi :: r =>
      match r with
      | Esc lo :: r' =>
          if (is_high_surrogate hi && is_low_surrogate lo)%bool then
            utf8 (65536 + (hi - 55296) * 1024 + (lo - 56320))%N
              ++ encode r'
          else utf8 hi ++ encode r
      | _ => utf8 hi ++ encode r
      end
  end.

Definition quote : ascii := "034".
Definition backslash : ascii := "092".

(** The character a two character escape stands for. *)
Definition simple_escape (e : ascii) : option ascii :=
  if Ascii.eqb e quote then Some quote
  else if Ascii.eqb e backslash then Some backslash
  else if Ascii.eqb e "/" then Some "/"
  else if Ascii.eqb e "b" then Some "008"
  else if Ascii.eqb e "f" then Some "012"
  else if Ascii.eqb e "n" then Some "010"
  else if Ascii.eqb e "r" then Some "013"
  else if Ascii.eqb e "t" then Some "009"
  else None.

Definition hex4 (a b c d : ascii) : option N :=
  match hex_val a, hex_val b, hex_val c, hex_val d with
  | Some x3, Some x2, Some x1, Some x0 =>
      Some (x3 * 4096 + x2 * 256 + x1 * 16 + x0)%N
  | _, _, _, _ => None
  end.

(** The body of a string literal, after the opening quote. *)
Fixpoint parse_string_body (l : list ascii) (acc : list StrUnit)
  : option (string * list ascii) :=
  match l with
  | [] => None
  | c :: r =>
      if Ascii.eqb c quote then Some (Str.of_chars (encode (rev acc)), r)
      else if Ascii.eqb c backslash then
        match r with
        | [] => None
        | e :: r' =>
            if Ascii.eqb e "u" then
              match r' with
              | a :: b :: c' :: d :: r'' =>
                  match hex4 a b c' d with
                  | Some u => parse_string_body r'' (Esc u :: acc)
                  | None => None
                  end
              | _ => None
              end
            else
              match simple_escape e with
              | Some x => parse_string_body r' (Raw x :: acc)
              | None => None
              end
        end
      else if (N_of_ascii c <? 32)%N then None
      else parse_string_body r (Raw c :: acc)
  end.

(** *** Values *)

(** Defining a property: a repeated name keeps its place and takes the
    later value. *)
Fixpoint set_prop (k : string) (v : JsVal) (props : list (string * JsVal))
  : list (string * JsVal) :=
  match props with
  | [] => [(k, v)]
  | (k', v') :: r =>
      if String.eqb k' k then (k', v) :: r else (k', v') :: set_prop k v r
  end.

Definition literal_true : list ascii := ["t"; "r"; "u"; "e"].
Definition literal_false : list ascii := ["f"; "a"; "l"; "s"; "e"].
Definition literal_null : list ascii := ["n"; "u"; "l"; "l"].

(** The values that are neither an object nor an array. *)
Definition parse_scalar (c : ascii) (r : list ascii)
  : option (JsVal * list ascii) :=
  if Ascii.eqb c quote then
    match parse_string_body r [] with
    | Some (s, r') => Some (VString s, r')
    | None => None
    end
  else if Ascii.eqb c "-" then parse_unsigned true r
  else
    match strip_prefix literal_true (c :: r) with
    | Some r' => Some (VBool true, r')
    | None =>
        match strip_prefix literal_false (c :: r) with
        | Some r' => Some (VBool false, r')
        | None =>
            match strip_prefix literal_null (c :: r) with
            | Some r' => Some (VNull, r')
            | None => parse_unsigned false (c :: r)
            end
        end
    end.

(** What follows an element of an array or a member of an object. *)
Inductive Next : Type :=
| More (r : list ascii)      (** a comma *)
| Done (r : list ascii)      (** the closing bracket [close] *)
| Bad.

Definition next (close : ascii) (l : list ascii) : Next :=
  match skip_ws l with
  | c :: r =>
      if Ascii.eqb c "," then More r
      else if Ascii.eqb c close then Done r
      else Bad
  | [] => Bad
  end.

(** The name of a member and the colon after it. *)
Definition parse_key (l : list ascii) : option (string * list ascii) :=
  match skip_ws l with
  | c :: r =>
      if Ascii.eqb c quote then
        match parse_string_body r [] with
        | Some (k, r1) =>
            match skip_ws r1 with
            | c' :: r2 => if Ascii.eqb c' ":" then Some (k, r2) else None
            | [] => None
            end
        | None => None
        end
      else None
  | [] => None
  end.

Fixpoint parse_value (fuel : nat) (cs : list ascii) {struct fuel}
  : Res (JsVal * list ascii) :=
  match fuel with
  | O => OutOfFuel
  | S f =>
      match skip_ws cs with
      | [] => SyntaxError
      | c :: r =>
          if Ascii.eqb c "{" then
            match skip_ws r with
            | c' :: r' =>
                if Ascii.eqb c' "}" then Ok (VObject [], r')
                else parse_members f r []
            | [] => SyntaxError
            end
          else if Ascii.eqb c "[" then
            match skip_ws r with
            | c' :: r' =>
                if Ascii.eqb c' "]" then Ok (VArray [], r')
                else parse_elements f r []
            | [] => SyntaxError
            end
          else of_option (parse_scalar c r)
      end
  end

with parse_elements (fuel : nat) (cs : list ascii) (acc : list JsVal)
  {struct fuel} : Res (JsVal * list ascii) :=
  match fuel with
  | O => OutOfFuel
  | S f =>
      let* (v, r) := parse_value f cs in
      match next "]" r with
      | More r' => parse_elements f r' (v :: acc)
      | Done r' => Ok (VArray (rev (v :: acc)), r')
      | Bad => SyntaxError
      end
  end

with parse_members (fuel : nat) (cs : list ascii)
       (acc : list (string * JsVal)) {struct fuel}
  : Res (JsVal * list ascii) :=
  match fuel with
  | O => OutOfFuel
  | S f =>
      let* (k, r) := of_option (parse_key cs) in
      let* (v, r') := parse_value f r in
      match next "}" r' with
      | More r'' => parse_members f r'' (set_prop k v acc)
      | Done r'' => Ok (VObject (set_prop k v acc), r'')
      | Bad => SyntaxError
      end
  end.

(** Every call deeper in the descent has read at least one byte, except
    the first element of an array or object: twice the length of the
    text, and two, is fuel enough (see [parse_value_fuel]). *)
Definition fuel_for (cs : list ascii) : nat := 2 * length cs + 2.

(** [JSON.parse(text)]: [None] when it throws a SyntaxError. *)
Definition parse (text : string) : option JsVal :=
  let cs := Str.chars text in
  match parse_value (fuel_for cs) cs with
  | Ok (v, r) =>
      match skip_ws r with
      | [] => Some v
      | _ => None
      end
  | _ => None
  end.

End JSON.

(* ===================================================================== *)
(** * HTTP data *)
(* ===================================================================== *)

(** The body handed to axios as [options.data]. *)
Inductive Body : Type :=
| BodyValue (v : JsVal)          (** a value passed as it is *)
| BodyStringified (v : JsVal).   (** the text [JSON.stringify(v)] *)

(** [new https.Agent({ rejectUnauthorized })] *)
Record Agent : Type := mkAgent { agent_rejectUnauthorized : option bool }.

(** The [options] object of [_apiRequest].  The caller fills [method] and
    [path]; [_apiRequest] assigns the other fields and hands the object to
    axios, so the same type is both the argument and the request. *)
Record Options : Type := mkOptions {
  o_method : option string;
  o_path : option string;
  o_httpsAgent : option Agent;
  o_baseURL : option string;
  o_url : option string;
  o_data : option Body;
  o_headers : option (list (string * JsVal))
}.

(** The object literal [{ method, path }]. *)
Definition literal (method path : option string) : Options :=
  mkOptions method path None None None None None.

(** [response.headers]: the cookies the server sets, and the rest. *)
Record RespHeaders : Type := mkRespHeaders {
  set_cookie : option (list string);
  other_headers : list (string * string)
}.

Record Response : Type := mkResponse {
  status : Z;
  r_data : JsVal;
  r_headers : RespHeaders
}.

(** The error axios rejects with: [code] for transport failures,
    [response] when the server answered outside 2xx. *)
Record AxiosError : Type := mkAxiosError {
  code : option string;
  message : string;
  response : option Response
}.

(** How an HTTP request ends. *)
Inductive Answer : Type :=
| Success (r : Response)
| Failure (e : AxiosError).

(** What [_apiRequest] resolves with: [{ data, headers }]. *)
Record Reply : Type := mkReply {
  data : JsVal;
  headers : RespHeaders
}.

(** What a promise of the client is rejected with, or a handler throws. *)
Inductive JsError : Type :=
| EAxios (e : AxiosError)      (** the error object axios rejected with *)
| EError (msg : string)        (** [new Error(msg)] *)
| ETypeError                   (** a TypeError raised by the engine *)
| EUnhandledError (context : JsVal).
    (** the [ERR_UNHANDLED_ERROR] of the emitter, which carries the value
        that was emitted as ['error'] *)

Inductive Settled (A : Type) : Type :=
| Fulfilled (a : A)
| Rejected (e : JsError).
Arguments Fulfilled {A} a.
Arguments Rejected {A} e.

(** What the promise of a public method resolves with. *)
Inductive Value : Type :=
| RReply (r : Reply)           (** the envelope [{ data, headers }] *)
| RValue (v : JsVal)           (** [response.data.data] *)
| RUnit.                       (** [resolve()] *)

(* ===================================================================== *)
(** * The client and the event loop state *)
(* ===================================================================== *)

(** The fields the constructor sets, and [_authenticationInProgress], which
    is [undefined] until the first authentication: it is only ever read
    through [!], so [undefined] is [false] here. *)
Record Client : Type := mkClient {
  baseURL : option string;
  user : option string;
  password : option string;
  site : string;
  rejectUnauthorized : option bool;
  _session : option string;
  _csrfToken : option string;
  _authenticationInProgress : bool
}.

(** The arguments of [new UnifiController(options)]. *)
Record Config : Type := mkConfig {
  cfg_baseURL : option string;
  cfg_user : option string;
  cfg_password : option string;
  cfg_site : option string;
  cfg_rejectUnauthorized : option bool
}.

Definition or_default (o : option string) (d : string) : string :=
  match o with
  | Some s => if Str.truthy s then s else d
  | None => d
  end.

Definition constructor (options : Config) : Client :=
  {| baseURL := cfg_baseURL options;
     user := cfg_user options;
     password := cfg_password options;
     site := or_default (cfg_site options) "default";
     rejectUnauthorized := cfg_rejectUnauthorized options;
     _session := None;
     _csrfToken := None;
     _authenticationInProgress := false |}.

(** What a query method resolves with, out of the reply. *)
Inductive Project : Type :=
| PEnvelope      (** [resolve(response)] *)
| PInnerData.    (** [resolve(response.data.data)] *)

(** Who waits for the promise of an [_apiRequest] call. *)
Inductive Cont : Type :=
| KCall (id : nat) (pr : Project)
    (** the [then]/[catch] pair of a public method, settling call [id] *)
| KOuter (k : Cont)
    (** lines 91-97: the promise of the first send, settled by the
        outcome of the re-sent request *)
| KLogin (a : AuthCont)
    (** lines 121-151: the handlers of [_authenticate] *)

(** Who awaits [_authenticate()]. *)
with AuthCont : Type :=
| AResend (options : Options) (body : Body) (k : Cont)
    (** line 86, in the catch handler of the request [options] *)
| AListen (id : nat).
    (** line 428, in [startWebsocketListener] *)

(** A request handed to axios and not answered yet, with the closure of
    its handlers: the [options] object, [body] and the promise to settle. *)
Record InFlight : Type := mkInFlight {
  if_options : Options;
  if_body : Body;
  if_cont : Cont
}.

Inductive SocketState : Type := Connecting | Open | Closed.

(** A [WebSocketClient] created by call [sock_call]. *)
Record Socket : Type := mkSocket {
  sock_call : nat;
  sock_url : string;
  sock_cookie : string;
  sock_state : SocketState
}.

Record World : Type := mkWorld {
  self : Client;
  inflight : list InFlight;
  sent : list InFlight;
    (** every request handed to axios, answered or not, oldest first *)
  calls : nat;
    (** public method calls made so far; the next call gets this id *)
  settled : list (nat * Settled Value);
    (** the outcome of each call whose promise is settled *)
  unhandled : list JsError;
    (** rejections nobody handles: the promise of the call stays pending *)
  sockets : list Socket;
  emitted : list (JsVal * JsVal);
    (** every [self.emit(name, payload)] that returned, oldest first *)
  uncaught : list JsError;
    (** exceptions that escape an event handler *)
  websocket : string -> string -> option JsError;
    (** [new WebSocketClient(url, { headers: { Cookie } })] of the [ws]
        module: the constructor returns ([None]) or throws.  Which URLs
        and header values it accepts is the platform's; the world holds
        that as a function of the two. *)
  error_listeners : list bool
    (** the listeners the application has subscribed to ['error'] on the
        client, each with whether it was added by [once] *)
}.

(** The world right after [new UnifiController(options)], on a platform
    whose WebSocket constructor behaves as [ws]: nothing is subscribed. *)
Definition boot (ws : string -> string -> option JsError) (c : Client)
  : World :=
  mkWorld c [] [] 0 [] [] [] [] [] ws [].

Definition with_self (c : Client) (w : World) : World :=
  mkWorld c (inflight w) (sent w) (calls w) (settled w) (unhandled w)
    (sockets w) (emitted w) (uncaught w) (websocket w) (error_listeners w).

Definition with_inflight (l : list InFlight) (w : World) : World :=
  mkWorld (self w) l (sent w) (calls w) (settled w) (unhandled w)
    (sockets w) (emitted w) (uncaught w) (websocket w) (error_listeners w).

Definition with_sockets (l : list Socket) (w : World) : World :=
  mkWorld (self w) (inflight w) (sent w) (calls w) (settled w) (unhandled w)
    l (emitted w) (uncaught w) (websocket w) (error_listeners w).

(** axios is called with [f]: the request is on the wire. *)
Definition axios (f : InFlight) (w : World) : World :=
  mkWorld (self w) (inflight w ++ [f]) (sent w ++ [f]) (calls w)
    (settled w) (unhandled w) (sockets w) (emitted w) (uncaught w)
    (websocket w) (error_listeners w).

Definition is_settled (id : nat) (w : World) : bool :=
  existsb (fun p => Nat.eqb (fst p) id) (settled w).

(** [resolve] or [reject] of the promise of call [id]: a promise settles
    once, a later settlement is ignored. *)
Definition finish (id : nat) (o : Settled Value) (w : World) : World :=
  if is_settled id w then w
  else
    mkWorld (self w) (inflight w) (sent w) (calls w) (settled w ++ [(id, o)])
      (unhandled w) (sockets w) (emitted w) (uncaught w) (websocket w)
      (error_listeners w).

Definition outcome_of (id : nat) (w : World) : option (Settled Value) :=
  match find (fun p => Nat.eqb (fst p) id) (settled w) with
  | Some p => Some (snd p)
  | None => None
  end.

(** A promise nobody handles is rejected with [e]. *)
Definition unhandled_rejection (e : JsError) (w : World) : World :=
  mkWorld (self w) (inflight w) (sent w) (calls w) (settled w)
    (unhandled w ++ [e]) (sockets w) (emitted w) (uncaught w) (websocket w)
    (error_listeners w).

(** The call [self.emit(name, payload)] returned: it is recorded, and the
    listeners of ['error'] are now [l]. *)
Definition emitted_as (name payload : JsVal) (l : list bool) (w : World)
  : World :=
  mkWorld (self w) (inflight w) (sent w) (calls w) (settled w) (unhandled w)
    (sockets w) (emitted w ++ [(name, payload)]) (uncaught w) (websocket w)
    l.

(** [self.emit(name, payload)].  The emitter is the platform's: it calls
    the listeners the application subscribed under the name, which are
    application code and are taken to return and to leave the client
    alone.  One name is the emitter's own: [emit('error', payload)]
    throws when nothing is subscribed to ['error'] (the payload itself
    when it is an Error, which a value parsed from a frame never is, an
    [ERR_UNHANDLED_ERROR] that carries it otherwise); when something is,
    the listeners are called and those added by [once] are removed.
    [inl e]: the call throws [e]. *)
Definition emit (name payload : JsVal) (w : World) : JsError + World :=
  if strict_eq_string name "error" then
    match error_listeners w with
    | [] => inl (EUnhandledError payload)
    | l => inr (emitted_as name payload (filter negb l) w)
    end
  else inr (emitted_as name payload (error_listeners w) w).

(** [e] is thrown out of an event handler. *)
Definition throw (e : JsError) (w : World) : World :=
  mkWorld (self w) (inflight w) (sent w) (calls w) (settled w) (unhandled w)
    (sockets w) (emitted w) (uncaught w ++ [e]) (websocket w)
    (error_listeners w).

Definition new_call (w : World) : nat * World :=
  (calls w,
   mkWorld (self w) (inflight w) (sent w) (S (calls w)) (settled w)
     (unhandled w) (sockets w) (emitted w) (uncaught w) (websocket w)
     (error_listeners w)).

(* ===================================================================== *)
(** * The request executor: [_apiRequest] and [_authenticate] *)
(* ===================================================================== *)

(** A template literal prints [undefined] and [null] by name. *)
Definition tmpl_undefined (o : option string) : string :=
  match o with Some s => s | None => "undefined" end.

Definition tmpl_null (o : option string) : string :=
  match o with Some s => s | None => "null" end.

Definition nullable (o : option string) : JsVal :=
  match o with Some s => VString s | None => VNull end.

Definition optional (o : option string) : JsVal :=
  match o with Some s => VString s | None => VUndefined end.

(** Lines 52-55: the credential headers, present when [self._session] is
    truthy. *)
Definition credential_headers (c : Client) : list (string * JsVal) :=
  match _session c with
  | Some s =>
      if Str.truthy s then
        [("cookie", VString ("unifises=" ++ s ++ ";"));
         ("x-csrf-token", nullable (_csrfToken c))]
      else []
  | None => []
  end.

(** Lines 47-55. *)
Definition request_headers (c : Client) : list (string * JsVal) :=
  [("Content-Type", VString "application/json");
   ("Accept", VString "application/json")]
  ++ credential_headers c.

(** Lines 57-65: the assignments to the [options] object.  The object is
    the one the caller passed; the handlers of the request keep it, and
    line 91 passes it to [_apiRequest] again, which assigns the same
    fields anew. *)
Definition prepare (c : Client) (options : Options) (body : Body) : Options :=
  {| o_method := Some (or_default (o_method options) "GET");
     o_path := o_path options;
     o_httpsAgent := Some (mkAgent (rejectUnauthorized c));
     o_baseURL := Some (tmpl_undefined (baseURL c) ++ "/api");
     o_url := Some (or_default (o_path options) "/");
     o_data := Some body;
     o_headers := Some (request_headers c) |}.

(** [_apiRequest(options, body)] up to [axios(options)] at line 69; [k]
    waits for the promise it returns. *)
Definition _apiRequest (options : Options) (body : Body) (k : Cont)
  (w : World) : World :=
  axios (mkInFlight (prepare (self w) options body) body k) w.

Definition set_authenticationInProgress (b : bool) (w : World) : World :=
  let c := self w in
  with_self
    (mkClient (baseURL c) (user c) (password c) (site c)
       (rejectUnauthorized c) (_session c) (_csrfToken c) b) w.

Definition set_session (s : string) (c : Client) : Client :=
  mkClient (baseURL c) (user c) (password c) (site c) (rejectUnauthorized c)
    (Some s) (_csrfToken c) (_authenticationInProgress c).

Definition set_csrfToken (s : string) (c : Client) : Client :=
  mkClient (baseURL c) (user c) (password c) (site c) (rejectUnauthorized c)
    (_session c) (Some s) (_authenticationInProgress c).

(** Lines 116-120: the login request. *)
Definition login_options : Options := literal (Some "POST") (Some "/login").

Definition login_body (c : Client) : Body :=
  BodyStringified
    (VObject [("username", optional (user c));
              ("password", optional (password c));
              ("remember", VBool true)]).

(** [_authenticate()], lines 113-120: the flag is raised and the login
    request sent in the same turn; [a] awaits the promise. *)
Definition _authenticate (a : AuthCont) (w : World) : World :=
  let w1 := set_authenticationInProgress true w in
  _apiRequest login_options (login_body (self w1)) (KLogin a) w1.

(** Lines 127-139: one attribute of one cookie. *)
Definition store_attr (c : Client) (attr : string) : Client :=
  if Str.starts_with "unifises=" attr then
    set_session (Str.capture_after "unifises=" attr) c
  else if Str.starts_with "csrf_token=" attr then
    set_csrfToken (Str.capture_after "csrf_token=" attr) c
  else c.

(** Lines 125-140. *)
Definition store_cookie (c : Client) (cookie : string) : Client :=
  fold_left store_attr (Str.split ";" cookie) c.

(** Lines 124-141. *)
Definition store_cookies (h : RespHeaders) (c : Client) : Client :=
  match set_cookie h with
  | Some cookies => fold_left store_cookie cookies c
  | None => c
  end.

(** The [then]/[catch] pair of a query method, applied to the outcome of
    [_apiRequest]: a TypeError thrown by [response.data.data] in the [then]
    handler is caught by the [catch] that follows it. *)
Definition project (pr : Project) (o : Settled Reply) : Settled Value :=
  match o with
  | Fulfilled r =>
      match pr with
      | PEnvelope => Fulfilled (RReply r)
      | PInnerData =>
          match get_prop (data r) "data" with
          | Some v => Fulfilled (RValue v)
          | None => Rejected ETypeError
          end
      end
  | Rejected e => Rejected e
  end.

(** Line 434: [self.baseURL.replace(/^http?:/, 'wss')]; the pattern reads
    [htt], an optional [p], and a colon. *)
Definition replace_scheme (s : string) : string :=
  if Str.starts_with "http:" s then "wss" ++ Str.drop 5 s
  else if Str.starts_with "htt:" s then "wss" ++ Str.drop 4 s
  else s.

(** Lines 434-439: [new WebSocketClient(url, ...)].  Without a [baseURL]
    the call of [replace] throws, and the constructor throws on what it
    does not accept: either way inside the async executor, so that the
    rejection is handled by nobody, no socket exists and the promise of
    the call is never settled. *)
Definition open_socket (id : nat) (w : World) : World :=
  let c := self w in
  match baseURL c with
  | None => unhandled_rejection ETypeError w
  | Some b =>
      let url := replace_scheme b ++ "/wss/s/" ++ site c ++ "/events" in
      let cookie := "unifises=" ++ tmpl_null (_session c) ++ ";" in
      match websocket w url cookie with
      | Some e => unhandled_rejection e w
      | None =>
          with_sockets (sockets w ++ [mkSocket id url cookie Connecting]) w
      end
  end.

(** The promise of an [_apiRequest] call settles with [o]: the handlers
    registered on it run.

    - [KCall]: the method's promise settles.
    - [KOuter]: lines 92-97 pass the outcome on.
    - [KLogin]: lines 121-151; the flag is lowered, the cookies of a
      successful login are stored, and whoever awaits [_authenticate]
      goes on. *)
Fixpoint settle (k : Cont) (o : Settled Reply) (w : World) : World :=
  match k with
  | KCall id pr => finish id (project pr o) w
  | KOuter k' => settle k' o w
  | KLogin a =>
      let w1 := set_authenticationInProgress false w in
      match o with
      | Fulfilled r =>
          authenticated a None
            (with_self (store_cookies (headers r) (self w1)) w1)
      | Rejected e => authenticated a (Some e) w1
      end
  end

(** [await self._authenticate()] returns ([None]) or throws ([Some e]). *)
with authenticated (a : AuthCont) (err : option JsError) (w : World)
  : World :=
  match a with
  | AResend options body k =>
      match err with
      | None => _apiRequest options body (KOuter k) w      (* line 91 *)
      | Some e => settle k (Rejected e) w                   (* line 88 *)
      end
  | AListen id =>
      match err with
      | None => open_socket id w
      | Some e => finish id (Rejected e) w                  (* line 430 *)
      end
  end.

Definition is_self_signed (e : AxiosError) : bool :=
  match code e with
  | Some c => String.eqb c "DEPTH_ZERO_SELF_SIGNED_CERT"
  | None => false
  end.

(** Lines 77-101: the catch handler of the request [f].  With no
    authentication in progress line 84 reads [error.response.status]: when
    the error carries no response this throws inside the async handler,
    nothing handles the rejection and the promise of [f] stays pending. *)
Definition on_failure (f : InFlight) (error : AxiosError) (w : World)
  : World :=
  if is_self_signed error then
    settle (if_cont f) (Rejected (EError "Self signed certificate")) w
  else if negb (_authenticationInProgress (self w)) then
    match response error with
    | None => unhandled_rejection ETypeError w
    | Some r =>
        if (status r =? 401)%Z then
          _authenticate (AResend (if_options f) (if_body f) (if_cont f)) w
        else settle (if_cont f) (Rejected (EAxios error)) w
    end
  else settle (if_cont f) (Rejected (EAxios error)) w.

(** Lines 70-76. *)
Definition on_success (f : InFlight) (r : Response) (w : World) : World :=
  settle (if_cont f) (Fulfilled (mkReply (r_data r) (r_headers r))) w.

Fixpoint remove_nth {A : Type} (i : nat) (l : list A) : list A :=
  match i, l with
  | _, [] => []
  | O, _ :: r => r
  | S i', x :: r => x :: remove_nth i' r
  end.

(** axios settles the [i]-th request in flight. *)
Definition answer (i : nat) (a : Answer) (w : World) : World :=
  match nth_error (inflight w) i with
  | None => w
  | Some f =>
      let w1 := with_inflight (remove_nth i (inflight w)) w in
      match a with
      | Success r => on_success f r w1
      | Failure e => on_failure f e w1
      end
  end.

(* ===================================================================== *)
(** * The query methods *)
(* ===================================================================== *)

(** The filter options of [getAlarms], [getEvents] and [getRogueAP], with
    the types their documentation gives: [start], [limit] and [period] are
    numbers when present; [archived] is any value ([undefined] when
    absent). *)
Record FilterOptions : Type := mkFilterOptions {
  f_start : option Num.number;
  f_limit : option Num.number;
  f_archived : JsVal;
  f_period : option Num.number
}.

(** The first argument of these methods: omitted, a site name, or the
    options object. *)
Inductive FilterArg : Type :=
| FilterOmitted
| FilterSite (s : string)
| FilterObject (o : FilterOptions).

Definition no_options : FilterOptions :=
  mkFilterOptions None None VUndefined None.

(** [site = 'default'] in a parameter list. *)
Definition default_site (site : option string) : string :=
  match site with Some s => s | None => "default" end.

(** The parameter defaults and the test [typeof options === 'string']:
    the options and the site the body of the method works with. *)
Definition filter_args (options : FilterArg) (site : option string)
  : FilterOptions * string :=
  match options with
  | FilterOmitted => (no_options, default_site site)
  | FilterSite s => (no_options, s)
  | FilterObject o => (o, default_site site)
  end.

(** [x > bound ? x : dflt] on an optional number: [undefined > bound] is
    false. *)
Definition above_or (bound dflt : Num.number) (x : option Num.number)
  : Num.number :=
  match x with
  | Some n => if Num.gt n bound then n else dflt
  | None => dflt
  end.

Definition filter_start (o : FilterOptions) : JsVal :=
  VNumber (above_or Num.zero Num.zero (f_start o)).

Definition filter_limit (o : FilterOptions) : JsVal :=
  VNumber (above_or Num.zero Num.hundred (f_limit o)).

Definition filter_archived (o : FilterOptions) : JsVal :=
  if truthy (f_archived o) then f_archived o else VBool false.

Definition filter_within (o : FilterOptions) : JsVal :=
  VNumber (above_or Num.one Num.one (f_period o)).

Definition post (path : string) : Options :=
  literal (Some "POST") (Some path).

Definition get (path : string) : Options :=
  literal (Some "GET") (Some path).

(** The default of the parameter [body] of [_apiRequest]. *)
Definition empty_body : Body := BodyValue (VString EmptyString).

Definition getAlarms (id : nat) (options : FilterArg) (site : option string)
  (w : World) : World :=
  let '(o, s) := filter_args options site in
  _apiRequest (post ("/s/" ++ s ++ "/stat/alarm"))
    (BodyValue (VObject [("_start", filter_start o);
                         ("_limit", filter_limit o);
                         ("archived", filter_archived o)]))
    (KCall id PInnerData) w.

Definition getEvents (id : nat) (options : FilterArg) (site : option string)
  (w : World) : World :=
  let '(o, s) := filter_args options site in
  _apiRequest (post ("/s/" ++ s ++ "/stat/event"))
    (BodyValue (VObject [("_start", filter_start o);
                         ("_limit", filter_limit o);
                         ("within", filter_within o)]))
    (KCall id PInnerData) w.

Definition getRogueAP (id : nat) (options : FilterArg) (site : option string)
  (w : World) : World :=
  let '(o, s) := filter_args options site in
  _apiRequest (post ("/s/" ++ s ++ "/stat/rogueap"))
    (BodyValue (VObject [("_limit", filter_limit o);
                         ("within", filter_within o)]))
    (KCall id PInnerData) w.

(** ** Mac address filters *)

Definition is_hex (c : ascii) : bool :=
  let n := nat_of_ascii c in
  ((48 <=? n) && (n <=? 57) || (65 <=? n) && (n <=? 70)
   || (97 <=? n) && (n <=? 102))%nat.

Definition is_sep (c : ascii) : bool :=
  (Ascii.eqb c ":" || Ascii.eqb c "-")%char.

(** [n] repetitions of two hex digits and a separator at the start of
    [l]. *)
Fixpoint groups_at (n : nat) (l : list ascii) : bool :=
  match n with
  | O => true
  | S n' =>
      match l with
      | a :: b :: s :: r => is_hex a && is_hex b && is_sep s && groups_at n' r
      | _ => false
      end
  end.

(** The pattern is not anchored: it may match anywhere in the string. *)
Fixpoint mac_search (l : list ascii) : bool :=
  groups_at 5 l
  || match l with
     | [] => false
     | _ :: r => mac_search r
     end.

(** [s.match(/([0-9A-Fa-f]{2}[:-]){5}/)] is not null. *)
Definition mac_match (s : string) : bool := mac_search (Str.chars s).

Definition invalid_filter : JsError :=
  EError
    "Filter must be a single mac address or an array of multiple mac addresses".

Definition invalid_mac : JsError := EError "Invalid mac address specified".

(** Lines 212-216: the loop over the entries.  An entry that is not a
    string has no [match] method: the call throws a TypeError. *)
Fixpoint check_macs (macs : list JsVal) : option JsError :=
  match macs with
  | [] => None
  | VString s :: rest => if mac_match s then check_macs rest else Some invalid_mac
  | _ :: _ => Some ETypeError
  end.

(** Lines 203-216, shared by [getClients] and [getDevices]: the array to
    send, or what the promise is rejected with.  An exception thrown in
    the executor of a promise rejects it. *)
Definition validate_macs (macs : JsVal) : JsError + list JsVal :=
  let macs :=
    match macs with
    | VUndefined => VArray []          (* the default of the parameter *)
    | VString s => VArray [VString s]
    | _ => macs
    end in
  match macs with
  | VArray l =>
      match check_macs l with
      | Some e => inl e
      | None => inr l
      end
  | _ => inl invalid_filter
  end.

Definition mac_query (endpoint : string) (id : nat) (macs : JsVal)
  (site : option string) (w : World) : World :=
  match validate_macs macs with
  | inl e => finish id (Rejected e) w
  | inr l =>
      _apiRequest (post ("/s/" ++ default_site site ++ endpoint))
        (BodyStringified (VObject [("macs", VArray l)]))
        (KCall id PInnerData) w
  end.

Definition getClients : nat -> JsVal -> option string -> World -> World :=
  mac_query "/stat/sta".

Definition getDevices : nat -> JsVal -> option string -> World -> World :=
  mac_query "/stat/device".

(** ** Methods without a filter *)

Definition site_query (endpoint : string) (id : nat) (site : option string)
  (w : World) : World :=
  _apiRequest (get ("/s/" ++ default_site site ++ endpoint)) empty_body
    (KCall id PInnerData) w.

Definition getHealth : nat -> option string -> World -> World :=
  site_query "/stat/health".

Definition getRoutes : nat -> option string -> World -> World :=
  site_query "/stat/routing".

Definition getSystemInfo : nat -> option string -> World -> World :=
  site_query "/stat/sysinfo".

Definition getSites (id : nat) (w : World) : World :=
  _apiRequest (get "/stat/sites") empty_body (KCall id PEnvelope) w.

(* ===================================================================== *)
(** * The push-channel listener *)
(* ===================================================================== *)

(** Lines 425-439. *)
Definition startWebsocketListener (id : nat) (w : World) : World :=
  let has_session :=
    match _session (self w) with
    | Some s => Str.truthy s
    | None => false
    end in
  if has_session then open_socket id w
  else _authenticate (AListen id) w.

(** A property of that name is among the own properties. *)
Definition has_own (k : string) (props : list (string * JsVal)) : bool :=
  existsb (fun p => String.eqb (fst p) k) props.

(** ToString, which a template literal applies to what it prints, returns
    on the value.  It throws a TypeError on an object that has an own
    property [toString]: no value parsed from a frame is callable, so
    that neither this property nor [valueOf], own or inherited, yields a
    primitive.  An array is printed by joining its elements, [null] and
    [undefined] as the empty text, the others by ToString. *)
Fixpoint printable (v : JsVal) : bool :=
  match v with
  | VArray l =>
      (fix all (l : list JsVal) : bool :=
         match l with
         | [] => true
         | x :: r => printable x && all r
         end) l
  | VObject props => negb (has_own "toString" props)
  | _ => true
  end.

(** One turn of the walk, lines 478-480: the template literal of the log
    line reads [event.key], which throws on [null], and prints it, which
    throws when it is not [printable]; then [self.emit(event.key, event)].
    Between the two, line 479 logs [JSON.stringify(event)], which returns
    on every value a frame can hold.  [inl e]: the callback throws [e]. *)
Definition emit_one (event : JsVal) (w : World) : JsError + World :=
  match get_prop event "key" with
  | None => inl ETypeError
  | Some key => if printable key then emit key event w else inl ETypeError
  end.

(** Lines 477-481: [msg.data.forEach].  An exception thrown by the
    callback ends the walk and leaves the handler; what was emitted before
    stays emitted. *)
Fixpoint emit_each (events : list JsVal) (w : World) : World :=
  match events with
  | [] => w
  | event :: rest =>
      match emit_one event w with
      | inr w' => emit_each rest w'
      | inl e => throw e w
      end
  end.

(** Lines 456-488, on the parsed message. *)
Definition dispatch (msg : JsVal) (w : World) : World :=
  match get_prop msg "meta" with
  | None => throw ETypeError w
  | Some meta =>
      match get_prop meta "message" with
      | None => throw ETypeError w
      | Some name =>
          match get_prop msg "data" with
          | None => throw ETypeError w
          | Some d =>
              if strict_eq_string name "events" then
                match d with
                | VArray events => emit_each events w
                | _ => throw ETypeError w       (* no [forEach] to call *)
                end
              else if printable name then       (* line 485 prints it *)
                match emit name d w with
                | inr w' => w'
                | inl e => throw e w
                end
              else throw ETypeError w
          end
      end
  end.

(** Lines 446-489: the handler of ['message'].  A frame [JSON.parse]
    rejects is logged and dropped. *)
Definition on_message (msg : string) (w : World) : World :=
  match JSON.parse msg with
  | None => w
  | Some m => dispatch m w
  end.

Fixpoint update_nth {A : Type} (i : nat) (f : A -> A) (l : list A) : list A :=
  match i, l with
  | _, [] => []
  | O, x :: r => f x :: r
  | S i', x :: r => x :: update_nth i' f r
  end.

Definition set_state (s : SocketState) (k : Socket) : Socket :=
  mkSocket (sock_call k) (sock_url k) (sock_cookie k) s.

(** Lines 441-444: the socket is open, the promise of the call resolves. *)
Definition on_open (i : nat) (w : World) : World :=
  match nth_error (sockets w) i with
  | Some k =>
      match sock_state k with
      | Connecting =>
          finish (sock_call k) (Fulfilled RUnit)
            (with_sockets (update_nth i (set_state Open) (sockets w)) w)
      | _ => w
      end
  | None => w
  end.

Definition on_socket_message (i : nat) (msg : string) (w : World) : World :=
  match nth_error (sockets w) i with
  | Some k =>
      match sock_state k with
      | Open => on_message msg w
      | _ => w
      end
  | None => w
  end.

(** Lines 491-493: the transport closed the socket; the handler logs. *)
Definition on_close (i : nat) (w : World) : World :=
  with_sockets (update_nth i (set_state Closed) (sockets w)) w.

(** Lines 495-497: the handler logs and nothing else. *)
Definition on_error (i : nat) (w : World) : World := w.

(* ===================================================================== *)
(** * The event loop *)
(* ===================================================================== *)

(** A call of a method of the client by the application. *)
Inductive Call : Type :=
| Call_apiRequest (options : option Options) (body : option Body)
| CallGetAlarms (options : FilterArg) (site : option string)
| CallGetClients (macs : JsVal) (site : option string)
| CallGetDevices (macs : JsVal) (site : option string)
| CallGetEvents (options : FilterArg) (site : option string)
| CallGetHealth (site : option string)
| CallGetRogueAP (options : FilterArg) (site : option string)
| CallGetRoutes (site : option string)
| CallGetSites
| CallGetSystemInfo (site : option string)
| CallStartWebsocketListener.

Definition invoke (c : Call) (w : World) : World :=
  let '(id, w) := new_call w in
  match c with
  | Call_apiRequest options body =>
      _apiRequest
        (match options with Some o => o | None => literal None None end)
        (match body with Some b => b | None => empty_body end)
        (KCall id PEnvelope) w
  | CallGetAlarms options site => getAlarms id options site w
  | CallGetClients macs site => getClients id macs site w
  | CallGetDevices macs site => getDevices id macs site w
  | CallGetEvents options site => getEvents id options site w
  | CallGetHealth site => getHealth id site w
  | CallGetRogueAP options site => getRogueAP id options site w
  | CallGetRoutes site => getRoutes id site w
  | CallGetSites => getSites id w
  | CallGetSystemInfo site => getSystemInfo id site w
  | CallStartWebsocketListener => startWebsocketListener id w
  end.

(** One turn of the event loop: the application calls a method, or the
    network delivers something.  Each turn runs the handlers of the source
    to completion. *)
Inductive Event : Type :=
| Invoke (c : Call)
| Answered (i : nat) (a : Answer)
| SocketOpened (i : nat)
| SocketMessage (i : nat) (msg : string)
| SocketClosed (i : nat)
| SocketFailed (i : nat)
| ErrorListeners (l : list bool).
    (** the application changes what is subscribed to ['error'] on the
        client, with [on], [once] or [off]: from now on it is [l] *)

Definition set_error_listeners (l : list bool) (w : World) : World :=
  mkWorld (self w) (inflight w) (sent w) (calls w) (settled w) (unhandled w)
    (sockets w) (emitted w) (uncaught w) (websocket w) l.

Definition step (e : Event) (w : World) : World :=
  match e with
  | Invoke c => invoke c w
  | Answered i a => answer i a w
  | SocketOpened i => on_open i w
  | SocketMessage i msg => on_socket_message i msg w
  | SocketClosed i => on_close i w
  | SocketFailed i => on_error i w
  | ErrorListeners l => set_error_listeners l w
  end.

(** A run of the loop from [w], oldest event first. *)
Definition run (es : list Event) (w : World) : World :=
  fold_left (fun w e => step e w) es w.

(* ===================================================================== *)
(** * The vocabulary of the statements *)
(* ===================================================================== *)

(** From here on [++] is the concatenation of lists. *)
#[local] Open Scope list_scope.

(** The call whose promise the continuation [k] settles in the end. *)
Fixpoint root (k : Cont) : nat :=
  match k with
  | KCall id _ => id
  | KOuter k' => root k'
  | KLogin (AResend _ _ k') => root k'
  | KLogin (AListen id) => id
  end.

(** [k] passes through the handlers of [_authenticate]. *)
Fixpoint through_login (k : Cont) : bool :=
  match k with
  | KCall _ _ => false
  | KOuter k' => through_login k'
  | KLogin _ => true
  end.

(** The request [f] is the login POST of an authentication attempt. *)
Definition is_login (f : InFlight) : bool :=
  match if_cont f with
  | KLogin _ => true
  | _ => false
  end.

(** The login requests that are outstanding. *)
Definition logins_in_flight (w : World) : nat :=
  length (filter is_login (inflight w)).

(** [f] is a send of the request of call [id] itself, first or repeated,
    not a login made on its behalf. *)
Definition is_send_of (id : nat) (f : InFlight) : bool :=
  negb (through_login (if_cont f)) && Nat.eqb (root (if_cont f)) id.

Definition sends_of (id : nat) (w : World) : nat :=
  length (filter (is_send_of id) (sent w)).

Definition logins_sent (w : World) : nat :=
  length (filter is_login (sent w)).

Definition lower_flag_if (b : bool) (w : World) : World :=
  if b then set_authenticationInProgress false w else w.

Scheme Cont_mutind := Induction for Cont Sort Prop
  with AuthCont_mutind := Induction for AuthCont Sort Prop.

(** The error is a credential rejection: a 401 answer. *)
Definition rejects_credentials (e : AxiosError) : Prop :=
  code e <> Some "DEPTH_ZERO_SELF_SIGNED_CERT"
  /\ exists r, response e = Some r /\ status r = 401%Z.

(** The world after the request [f], last in flight, got a 401 and the
    login that followed was answered by [r]: [f] and the login are in the
    trace, the cookies of [r] are stored and the flag is down. *)
Definition reauthenticated (f : InFlight) (r : Response) (w : World) : World :=
  let c := self (set_authenticationInProgress true w) in
  let login :=
    mkInFlight (prepare c login_options (login_body c)) (login_body c)
      (KLogin (AResend (if_options f) (if_body f) (if_cont f))) in
  let w1 :=
    mkWorld c (inflight w) ((sent w ++ [f]) ++ [login]) (calls w) (settled w)
      (unhandled w) (sockets w) (emitted w) (uncaught w) (websocket w)
      (error_listeners w) in
  let w2 := set_authenticationInProgress false w1 in
  with_self (store_cookies (r_headers r) (self w2)) w2.

(** The client [c'] differs from [c] at most in [_session] and
    [_csrfToken]. *)
Definition same_configuration (c c' : Client) : Prop :=
  baseURL c' = baseURL c /\ user c' = user c /\ password c' = password c
  /\ site c' = site c /\ rejectUnauthorized c' = rejectUnauthorized c
  /\ _authenticationInProgress c' = _authenticationInProgress c.

(** [rounds] 401 answers to the request at position [n], each followed by
    a successful login. *)
Fixpoint reauthentications (n : nat) (rounds : list (AxiosError * Response))
  : list Event :=
  match rounds with
  | [] => []
  | (e, r) :: rest =>
      Answered n (Failure e) :: Answered n (Success r)
      :: reauthentications n rest
  end.

Fixpoint outer (n : nat) (k : Cont) : Cont :=
  match n with
  | O => k
  | S n' => outer n' (KOuter k)
  end.

(** The limit the caller asked for, if any: [options.limit]. *)
Definition requested_limit (options : FilterArg) : option Num.number :=
  match options with
  | FilterObject o => f_limit o
  | _ => None
  end.

(** [n <= 0], as numbers compare. *)
Definition non_positive (n : Num.number) : Prop := SFleb n Num.zero = true.

(** The property [p] of the object a request carries as its body. *)
Definition carried (p : string) (f : InFlight) : option JsVal :=
  match o_data (if_options f) with
  | Some (BodyValue (VObject props)) => Some (lookup_prop p props)
  | _ => None
  end.

(** An entry the loop of lines 212-216 does not let pass: a string the
    pattern does not match, or a value that is no string at all. *)
Definition fails_validation (entry : JsVal) : Prop :=
  match entry with
  | VString s => mac_match s = false
  | _ => True
  end.

Definition is_string (v : JsVal) : Prop :=
  match v with
  | VString _ => True
  | _ => False
  end.

(** A filter with an entry that fails validation: a single address, or an
    array that holds one. *)
Inductive malformed : JsVal -> Prop :=
| malformed_single (s : string) :
    mac_match s = false -> malformed (VString s)
| malformed_entry (l : list JsVal) :
    Exists fails_validation l -> malformed (VArray l).

(** The filter has the documented type: a string or an array of
    strings. *)
Definition well_typed (macs : JsVal) : Prop :=
  match macs with
  | VString _ => True
  | VArray l => Forall is_string l
  | _ => False
  end.

(** A filter was passed and it is neither a string nor an array.  Passing
    [undefined] is passing no filter: the default of the parameter
    applies. *)
Definition neither_string_nor_array (macs : JsVal) : Prop :=
  match macs with
  | VUndefined | VString _ | VArray _ => False
  | _ => True
  end.

(** The promise of call [id] is rejected with [e] in the turn of the call,
    and no request was handed to axios. *)
Definition rejected_at_once (e : JsError) (id : nat) (w w' : World) : Prop :=
  outcome_of id w' = Some (Rejected e)
  /\ sent w' = sent w
  /\ inflight w' = inflight w.

(** [event.key] of an element that is not [null]. *)
Definition key_of (event : JsVal) : JsVal :=
  match get_prop event "key" with
  | Some k => k
  | None => VUndefined
  end.

(** Reading a property off the value does not throw. *)
Definition readable (v : JsVal) : Prop := v <> VNull /\ v <> VUndefined.

(** The name can be printed and is not ['error'], the one name the
    emitter treats on its own. *)
Definition plain (name : JsVal) : Prop :=
  printable name = true /\ name <> VString "error".

(** The element can be read and its key is plain. *)
Definition plain_event (event : JsVal) : Prop :=
  readable event /\ plain (key_of event).

(** What the callback of the walk throws on the element, while the
    listeners of ['error'] are [l]: a TypeError when the element is
    [null] or [undefined], or when its key cannot be printed; the error of
    the emitter when the key is [error] and nothing is subscribed. *)
Inductive throws (l : list bool) : JsVal -> JsError -> Prop :=
| throws_unreadable (event : JsVal) :
    event = VNull \/ event = VUndefined -> throws l event ETypeError
| throws_unprintable (event : JsVal) :
    readable event -> printable (key_of event) = false ->
    throws l event ETypeError
| throws_unhandled (event : JsVal) :
    readable event -> key_of event = VString "error" -> l = [] ->
    throws l event (EUnhandledError event).

(** The two worlds differ at most in the events emitted, the exceptions
    thrown and the listeners of ['error'], of which those added by [once]
    are gone once they were called. *)
Definition same_but_events (w w' : World) : Prop :=
  self w' = self w /\ inflight w' = inflight w /\ sent w' = sent w
  /\ calls w' = calls w /\ settled w' = settled w
  /\ unhandled w' = unhandled w /\ sockets w' = sockets w.

(** Nothing in the world can settle the promise of call [id] any more:
    it is pending, no request in flight leads to it and no socket was
    opened for it. *)
Definition abandoned (id : nat) (w : World) : Prop :=
  id < calls w
  /\ is_settled id w = false
  /\ Forall (fun f => root (if_cont f) <> id) (inflight w)
  /\ Forall (fun k => sock_call k <> id) (sockets w).

(** The continuations the client creates: a login is made on behalf of a
    request or of the listener, never on behalf of another login. *)
Definition cont_ok (k : Cont) : Prop :=
  match k with
  | KLogin (AResend _ _ k') => through_login k' = false
  | KLogin (AListen _) => True
  | _ => through_login k = false
  end.

(** The invariant that makes the flag a lock: at most one login is in
    flight, and none when the flag is down. *)
Definition exclusive (w : World) : Prop :=
  Forall (fun f => cont_ok (if_cont f)) (inflight w)
  /\ logins_in_flight w <= 1
  /\ (_authenticationInProgress (self w) = false -> logins_in_flight w = 0).

(** [startWebsocketListener] tests [self._session] and not the flag.  The
    event respects the flag when such a call, if it has to authenticate,
    is made while no authentication is in progress. *)
Definition respects_flag (e : Event) (w : World) : Prop :=
  match e with
  | Invoke CallStartWebsocketListener =>
      (exists s, _session (self w) = Some s /\ Str.truthy s = true)
      \/ _authenticationInProgress (self w) = false
  | _ => True
  end.

(** The worlds a client reaches through events that respect the flag. *)
Inductive reachable : World -> Prop :=
| reachable_boot (ws : string -> string -> option JsError)
    (options : Config) : reachable (boot ws (constructor options))
| reachable_step (e : Event) (w : World) :
    reachable w -> respects_flag e w -> reachable (step e w).

(* ===================================================================== *)
(** * Scenarios

    A controller, the answers a server or the transport can give, and the
    frames of the push channel used in the examples below. *)
(* ===================================================================== *)

(** A platform whose WebSocket constructor takes the URLs that start with
    [wss://] or [https://] and throws on the others. *)
Definition node (url cookie : string) : option JsError :=
  if Str.starts_with "wss://" url || Str.starts_with "https://" url then None
  else Some (EError ("Invalid URL: " ++ url)).

Definition controller : Client :=
  constructor
    (mkConfig (Some "https://unifi.example:8443") (Some "admin")
       (Some "secret") None (Some true)).

Definition no_headers : RespHeaders := mkRespHeaders None [].

(** A 401 answer. *)
Definition unauthorized : AxiosError :=
  mkAxiosError (Some "ERR_BAD_REQUEST") "Request failed with status code 401"
    (Some (mkResponse 401 (VObject [("data", VArray [])]) no_headers)).


(** The certificate of the controller is self signed and refused. *)
Definition self_signed : AxiosError :=
  mkAxiosError (Some "DEPTH_ZERO_SELF_SIGNED_CERT") "self signed certificate"
    None.

(** Nobody listens on the port: a failure without any response. *)
Definition connection_refused : AxiosError :=
  mkAxiosError (Some "ECONNREFUSED") "connect ECONNREFUSED" None.

(** A successful login that sets both credentials. *)
Definition logged_in : Response :=
  mkResponse 200 (VObject [("data", VArray [])])
    (mkRespHeaders
       (Some ["unifises=k8U3Zq; Path=/; Secure; HttpOnly";
              "csrf_token=x9Tt1a; Path=/; Secure"]) []).

(** A successful answer whose body is [{ data: [ { name: 'default' } ] }]. *)
Definition listing : Response :=
  mkResponse 200
    (VObject [("data", VArray [VObject [("name", VString "default")]])])
    no_headers.

(** A frame written with ['] where the text has a double quote. *)
Definition frame (s : string) : string :=
  Str.of_chars
    (map (fun c => if Ascii.eqb c "'"%char then JSON.quote else c)
       (Str.chars s)).

(** The batched frame and the sync frame of the controller. *)
Definition events_frame : string :=
  frame "{'meta':{'message':'events'},'data':[{'key':'EVT_WU_Connected','mac':'AA:BB:CC:DD:EE:FF'}]}".

Definition sync_frame : string :=
  frame "{'meta':{'message':'device.sync'},'data':{'mac':'AA:BB:CC:DD:EE:FF'}}".

(** A batch whose first element has the key [error]. *)
Definition error_batch : string :=
  frame "{'meta':{'message':'events'},'data':[{'key':'error'},{'key':'EVT_WU_Connected','mac':'AA:BB:CC:DD:EE:FF'}]}".

Definition connected_event : JsVal :=
  VObject [("key", VString "EVT_WU_Connected");
           ("mac", VString "AA:BB:CC:DD:EE:FF")].

(** A client that listens: it logged in, and its socket is open. *)
Definition listening : World :=
  run [Invoke CallStartWebsocketListener; Answered 0 (Success logged_in);
       SocketOpened 0] (boot node controller).

(* ===================================================================== *)
(** * More vocabulary: cookies, filters, frames and requests *)
(* ===================================================================== *)

(** A character a cookie value is made of: no semicolon, which ends an
    attribute, and no line terminator, where a dot-star group stops. *)
Definition token_char (c : ascii) : bool :=
  negb (Ascii.eqb c ";"%char) && negb (Str.is_line_terminator c).

Definition is_token (s : string) : bool := forallb token_char (Str.chars s).

(** A [Set-Cookie] value: the pair [name value], where [name] ends with
    the equals sign, then, after a semicolon, the attributes. *)
Definition cookie_of (name value : string) (attrs : option string) : string :=
  (name ++ value
   ++ match attrs with
      | Some r => ";" ++ r
      | None => EmptyString
      end)%string.

(** No attribute of [cookie] starts with [name]. *)
Definition names_no (name cookie : string) : Prop :=
  Forall (fun attr => Str.starts_with name attr = false)
    (Str.split ";" cookie).

(** The attributes after the pair name neither credential. *)
Definition other_attrs (attrs : option string) : Prop :=
  match attrs with
  | Some r => names_no "unifises=" r /\ names_no "csrf_token=" r
  | None => True
  end.


(** The answer sets no session cookie. *)
Definition sets_no_session (r : Response) : Prop :=
  match set_cookie (r_headers r) with
  | Some cookies => Forall (names_no "unifises=") cookies
  | None => True
  end.

(** [self._session] is truthy. *)
Definition has_session (c : Client) : bool :=
  match _session c with
  | Some s => Str.truthy s
  | None => false
  end.

(** The URL and the [Cookie] header the WebSocket constructor is called
    with, for the client [c] whose base is [b]. *)
Definition socket_url (b : string) (c : Client) : string :=
  (replace_scheme b ++ "/wss/s/" ++ site c ++ "/events")%string.

Definition socket_cookie (c : Client) : string :=
  ("unifises=" ++ tmpl_null (_session c) ++ ";")%string.

(** The socket [startWebsocketListener] creates for call [id] on the
    client [c] whose base is [b]. *)
Definition socket_of (id : nat) (b : string) (c : Client) : Socket :=
  mkSocket id (socket_url b c) (socket_cookie c) Connecting.


(** An entry the loop of lines 212-216 lets pass. *)
Definition is_mac (entry : JsVal) : Prop :=
  match entry with
  | VString s => mac_match s = true
  | _ => False
  end.

(** The filter passes validation, and [l] is the array that is sent for
    it. *)
Definition accepted (macs : JsVal) (l : list JsVal) : Prop :=
  match macs with
  | VUndefined => l = []
  | VString s => mac_match s = true /\ l = [VString s]
  | VArray entries => Forall is_mac entries /\ l = entries
  | _ => False
  end.

(** The request is a POST to [path] that carries the text of
    [{ macs: l }]. *)
Definition posts_macs (path : string) (l : list JsVal) (f : InFlight) : Prop :=
  o_method (if_options f) = Some "POST"
  /\ o_url (if_options f) = Some path
  /\ o_data (if_options f) = Some (BodyStringified (VObject [("macs", VArray l)])).

(** The two headers every request carries. *)
Definition fixed_headers : list (string * JsVal) :=
  [("Content-Type", VString "application/json");
   ("Accept", VString "application/json")].

(** The client still has the settings the constructor was given. *)
Definition settings_of (options : Config) (c : Client) : Prop :=
  baseURL c = cfg_baseURL options
  /\ user c = cfg_user options
  /\ password c = cfg_password options
  /\ site c = or_default (cfg_site options) "default"
  /\ rejectUnauthorized c = cfg_rejectUnauthorized options.

(** The request goes where the constructor was told, through an agent
    with the certificate check it was told, with the two fixed headers
    first; a login is a POST to [/login] with the configured account. *)
Definition configured (options : Config) (f : InFlight) : Prop :=
  o_baseURL (if_options f)
  = Some (tmpl_undefined (cfg_baseURL options) ++ "/api")%string
  /\ o_httpsAgent (if_options f)
     = Some (mkAgent (cfg_rejectUnauthorized options))
  /\ o_data (if_options f) = Some (if_body f)
  /\ (exists credentials,
         o_headers (if_options f) = Some (fixed_headers ++ credentials))
  /\ (is_login f = true ->
        o_method (if_options f) = Some "POST"
        /\ o_url (if_options f) = Some "/login"
        /\ if_body f
           = BodyStringified
               (VObject [("username", optional (cfg_user options));
                         ("password", optional (cfg_password options));
                         ("remember", VBool true)])).

(** What the invariant of the runs of a client says about a world. *)
Definition keeps (options : Config) (w : World) : Prop :=
  settings_of options (self w) /\ Forall (configured options) (sent w).

(** The event comes from a socket. *)
Definition socket_event (e : Event) : bool :=
  match e with
  | SocketOpened _ | SocketMessage _ _ | SocketClosed _ | SocketFailed _ => true
  | _ => false
  end.

Definition is_frame (e : Event) : bool :=
  match e with
  | SocketMessage _ _ => true
  | _ => false
  end.

(** The world in which the client was constructed with the site [s]. *)
Definition with_site (s : string) (w : World) : World :=
  let c := self w in
  with_self
    (mkClient (baseURL c) (user c) (password c) s (rejectUnauthorized c)
       (_session c) (_csrfToken c) (_authenticationInProgress c)) w.

(** A frame of the push channel. *)
Definition batch_with_null : string :=
  frame "{'meta':{'message':'events'},'data':[{'key':'EVT_A'},null,{'key':'EVT_B'}]}".

(** A batch whose first element has a key that cannot be printed: an
    object with a property [toString] of its own. *)
Definition batch_with_unprintable_key : string :=
  frame "{'meta':{'message':'events'},'data':[{'key':{'toString':null}},{'key':'EVT_B'}]}".

Definition batch_without_data : string :=
  frame "{'meta':{'message':'events'}}".

(** A successful login answer that sets no cookie. *)
Definition no_cookie : Response :=
  mkResponse 200 (VObject [("data", VArray [])]) no_headers.

(** A successful answer without a body. *)
Definition null_body : Response := mkResponse 200 VNull no_headers.

Definition text_body : Response :=
  mkResponse 200 (VString "ok") no_headers.

(** While the flag is up a login is outstanding. *)
Definition flag_is_backed (w : World) : Prop :=
  _authenticationInProgress (self w) = true -> 1 <= logins_in_flight w.

(** The world has emitted [E] and let escape [U]. *)
Definition quiet (E : list (JsVal * JsVal)) (U : list JsError) (w : World)
  : Prop :=
  emitted w = E /\ uncaught w = U.

(* ===================================================================== *)
(** * The parser never runs out of fuel *)
(* ===================================================================== *)

Lemma skip_ws_length :
  forall l, length (JSON.skip_ws l) <= length l.
Proof.
  induction l as [|c l IH]; simpl; [lia|].
  destruct (JSON.is_ws c); simpl; lia.
Qed.

Lemma take_digits_length :
  forall l ds r, JSON.take_digits l = (ds, r) -> length r <= length l.
Proof.
  induction l as [|c l IH]; intros ds r H; simpl in H.
  - injection H as <- <-. simpl. lia.
  - destruct (JSON.digit_val c).
    + destruct (JSON.take_digits l) as [ds' r'] eqn:E.
      injection H as <- <-. specialize (IH _ _ eq_refl). simpl. lia.
    + injection H as <- <-. simpl. lia.
Qed.

Lemma take_digits_nonempty :
  forall l d ds r, JSON.take_digits l = (d :: ds, r) -> length r < length l.
Proof.
  intros [|c l] d ds r H; simpl in H; [discriminate|].
  destruct (JSON.digit_val c); [|discriminate].
  destruct (JSON.take_digits l) as [ds' r'] eqn:E.
  injection H as _ _ <-. apply take_digits_length in E. simpl. lia.
Qed.

Lemma parse_frac_length :
  forall l fp r, JSON.parse_frac l = Some (fp, r) -> length r <= length l.
Proof.
  intros [|c l] fp r H; simpl in H.
  - injection H as <- <-. simpl. lia.
  - destruct (Ascii.eqb c "."%char).
    + destruct (JSON.take_digits l) as [fd r'] eqn:E.
      destruct (JSON.is_nil fd); [discriminate|].
      injection H as <- <-. apply take_digits_length in E. simpl. lia.
    + injection H as <- <-. simpl. lia.
Qed.

Lemma parse_exp_length :
  forall l ex r, JSON.parse_exp l = Some (ex, r) -> length r <= length l.
Proof.
  intros [|c l] ex r H; simpl in H.
  - injection H as <- <-. simpl. lia.
  - destruct (Ascii.eqb c "e"%char || Ascii.eqb c "E"%char)%bool.
    + assert (Hs : forall sg r',
                 match l with
                 | s :: t =>
                     if Ascii.eqb s "+"%char then (false, t)
                     else if Ascii.eqb s "-"%char then (true, t)
                     else (false, l)
                 | [] => (false, l)
                 end = (sg, r') -> length r' <= length l).
      { intros sg r'. destruct l as [|s t]; simpl.
        - intros E. injection E as <- <-. simpl. lia.
        - destruct (Ascii.eqb s "+"%char);
            [|destruct (Ascii.eqb s "-"%char)];
            intros E; injection E as <- <-; simpl; lia. }
      destruct (match l with
                | s :: t =>
                    if Ascii.eqb s "+"%char then (false, t)
                    else if Ascii.eqb s "-"%char then (true, t)
                    else (false, l)
                | [] => (false, l)
                end) as [sg r'] eqn:E0.
      specialize (Hs _ _ eq_refl).
      destruct (JSON.take_digits r') as [ed r''] eqn:E.
      destruct (JSON.is_nil ed); [discriminate|].
      injection H as <- <-. apply take_digits_length in E. simpl. lia.
    + injection H as <- <-. simpl. lia.
Qed.

Lemma parse_unsigned_length :
  forall neg l v r,
    JSON.parse_unsigned neg l = Some (v, r) -> length r < length l.
Proof.
  intros neg l v r H. unfold JSON.parse_unsigned in H.
  destruct (JSON.take_digits l) as [ip r1] eqn:E.
  destruct ip as [|d0 more]; [discriminate|].
  apply take_digits_nonempty in E.
  destruct ((d0 =? 0)%Z && negb (JSON.is_nil more))%bool; [discriminate|].
  destruct (JSON.parse_frac r1) as [[fp r2]|] eqn:Ef; [|discriminate].
  destruct (JSON.parse_exp r2) as [[ex r3]|] eqn:Ee; [|discriminate].
  injection H as _ <-.
  apply parse_frac_length in Ef. apply parse_exp_length in Ee. lia.
Qed.

Lemma parse_string_body_length :
  forall n l acc s r,
    length l <= n ->
    JSON.parse_string_body l acc = Some (s, r) -> length r < length l.
Proof.
  induction n as [|n IH]; intros l acc s r Hn H.
  - destruct l; [discriminate | simpl in Hn; lia].
  - destruct l as [|c l]; [discriminate|]. simpl in H, Hn.
    destruct (Ascii.eqb c JSON.quote).
    { injection H as _ <-. simpl. lia. }
    destruct (Ascii.eqb c JSON.backslash).
    + destruct l as [|e l]; [discriminate|].
      destruct (Ascii.eqb e "u"%char).
      * destruct l as [|a [|b [|c' [|d l]]]]; try discriminate.
        destruct (JSON.hex4 a b c' d); [|discriminate].
        apply IH in H; simpl in *; lia.
      * destruct (JSON.simple_escape e); [|discriminate].
        apply IH in H; simpl in *; lia.
    + destruct (N_of_ascii c <? 32)%N; [discriminate|].
      apply IH in H; simpl in *; lia.
Qed.

Lemma strip_prefix_length :
  forall p l r, JSON.strip_prefix p l = Some r -> length r <= length l.
Proof.
  induction p as [|x p IH]; intros l r H; simpl in H.
  - injection H as <-. lia.
  - destruct l as [|y l]; [discriminate|].
    destruct (Ascii.eqb x y); [|discriminate].
    apply IH in H. simpl. lia.
Qed.

Lemma strip_prefix_nonempty :
  forall x p l r,
    JSON.strip_prefix (x :: p) l = Some r -> length r < length l.
Proof.
  intros x p [|y l] r H; simpl in H; [discriminate|].
  destruct (Ascii.eqb x y); [|discriminate].
  apply strip_prefix_length in H. simpl. lia.
Qed.

Lemma parse_scalar_length :
  forall c l v r,
    JSON.parse_scalar c l = Some (v, r) -> length r < length (c :: l).
Proof.
  intros c l v r H. unfold JSON.parse_scalar in H.
  destruct (Ascii.eqb c JSON.quote).
  { destruct (JSON.parse_string_body l []) as [[s r']|] eqn:E; [|discriminate].
    injection H as _ <-.
    apply (parse_string_body_length (length l)) in E; simpl; lia. }
  destruct (Ascii.eqb c "-"%char).
  { apply parse_unsigned_length in H. simpl. lia. }
  destruct (JSON.strip_prefix JSON.literal_true (c :: l)) eqn:Et.
  { injection H as _ <-. now apply strip_prefix_nonempty in Et. }
  destruct (JSON.strip_prefix JSON.literal_false (c :: l)) eqn:Ef.
  { injection H as _ <-. now apply strip_prefix_nonempty in Ef. }
  destruct (JSON.strip_prefix JSON.literal_null (c :: l)) eqn:En.
  { injection H as _ <-. now apply strip_prefix_nonempty in En. }
  now apply parse_unsigned_length in H.
Qed.

Lemma next_length :
  forall close l,
    match JSON.next close l with
    | JSON.More r | JSON.Done r => length r < length l
    | JSON.Bad => True
    end.
Proof.
  intros close l. unfold JSON.next.
  pose proof (skip_ws_length l) as Hl.
  destruct (JSON.skip_ws l) as [|c r]; [exact I|]. simpl in Hl.
  destruct (Ascii.eqb c ","%char); [lia|].
  destruct (Ascii.eqb c close); [lia | exact I].
Qed.

Lemma parse_key_length :
  forall l k r, JSON.parse_key l = Some (k, r) -> length r < length l.
Proof.
  intros l k r H. unfold JSON.parse_key in H.
  pose proof (skip_ws_length l) as Hl.
  destruct (JSON.skip_ws l) as [|c l1]; [discriminate|]. simpl in Hl.
  destruct (Ascii.eqb c JSON.quote); [|discriminate].
  destruct (JSON.parse_string_body l1 []) as [[k' r1]|] eqn:E; [|discriminate].
  apply (parse_string_body_length (length l1)) in E; [|lia].
  pose proof (skip_ws_length r1) as Hr.
  destruct (JSON.skip_ws r1) as [|c' r2]; [discriminate|]. simpl in Hr.
  destruct (Ascii.eqb c' ":"%char); [|discriminate].
  injection H as _ <-. lia.
Qed.

(** Whatever a parser returns, it has read at least one byte. *)
Lemma parse_progress :
  forall fuel,
    (forall cs v r,
        JSON.parse_value fuel cs = JSON.Ok (v, r) -> length r < length cs)
    /\ (forall cs acc v r,
           JSON.parse_elements fuel cs acc = JSON.Ok (v, r) ->
           length r < length cs)
    /\ (forall cs acc v r,
           JSON.parse_members fuel cs acc = JSON.Ok (v, r) ->
           length r < length cs).
Proof.
  induction fuel as [|f (IHv & IHe & IHm)].
  { repeat split; intros; discriminate. }
  split; [|split].
  - intros cs v r H. simpl in H.
    pose proof (skip_ws_length cs) as Hl.
    destruct (JSON.skip_ws cs) as [|c l]; [discriminate|]. simpl in Hl.
    destruct (Ascii.eqb c "{"%char).
    { pose proof (skip_ws_length l) as Hl'.
      destruct (JSON.skip_ws l) as [|c' l']; [discriminate|]. simpl in Hl'.
      destruct (Ascii.eqb c' "}"%char).
      - injection H as _ <-. lia.
      - apply IHm in H. lia. }
    destruct (Ascii.eqb c "["%char).
    { pose proof (skip_ws_length l) as Hl'.
      destruct (JSON.skip_ws l) as [|c' l']; [discriminate|]. simpl in Hl'.
      destruct (Ascii.eqb c' "]"%char).
      - injection H as _ <-. lia.
      - apply IHe in H. lia. }
    destruct (JSON.parse_scalar c l) as [[v' r']|] eqn:E; [|discriminate].
    injection H as _ <-. apply parse_scalar_length in E. simpl in E. lia.
  - intros cs acc v r H. simpl in H.
    destruct (JSON.parse_value f cs) as [[v1 r1]| |] eqn:E;
      simpl in H; try discriminate.
    apply IHv in E. pose proof (next_length "]"%char r1) as Hn.
    destruct (JSON.next "]"%char r1) as [r2|r2|]; [| |discriminate].
    + apply IHe in H. lia.
    + injection H as _ <-. lia.
  - intros cs acc v r H. simpl in H.
    destruct (JSON.parse_key cs) as [[k r0]|] eqn:Ek; simpl in H;
      [|discriminate].
    apply parse_key_length in Ek.
    destruct (JSON.parse_value f r0) as [[v1 r1]| |] eqn:E;
      simpl in H; try discriminate.
    apply IHv in E. pose proof (next_length "}"%char r1) as Hn.
    destruct (JSON.next "}"%char r1) as [r2|r2|]; [| |discriminate].
    + apply IHm in H. lia.
    + injection H as _ <-. lia.
Qed.

(** With fuel above twice the length of the text the descent never stops
    for lack of fuel. *)
Lemma parse_fuel :
  forall fuel,
    (forall cs, 2 * length cs + 1 <= fuel ->
        JSON.parse_value fuel cs <> JSON.OutOfFuel)
    /\ (forall cs acc, 2 * length cs + 2 <= fuel ->
           JSON.parse_elements fuel cs acc <> JSON.OutOfFuel)
    /\ (forall cs acc, 2 * length cs + 2 <= fuel ->
           JSON.parse_members fuel cs acc <> JSON.OutOfFuel).
Proof.
  induction fuel as [|f (IHv & IHe & IHm)].
  { repeat split; intros; lia. }
  split; [|split].
  - intros cs Hf. simpl.
    pose proof (skip_ws_length cs) as Hl.
    destruct (JSON.skip_ws cs) as [|c l]; [discriminate|]. simpl in Hl.
    destruct (Ascii.eqb c "{"%char).
    { destruct (JSON.skip_ws l) as [|c' l']; [discriminate|].
      destruct (Ascii.eqb c' "}"%char); [discriminate|].
      apply IHm. lia. }
    destruct (Ascii.eqb c "["%char).
    { destruct (JSON.skip_ws l) as [|c' l']; [discriminate|].
      destruct (Ascii.eqb c' "]"%char); [discriminate|].
      apply IHe. lia. }
    destruct (JSON.parse_scalar c l) as [[v' r']|]; discriminate.
  - intros cs acc Hf. simpl.
    pose proof (IHv cs ltac:(lia)) as Hv.
    destruct (JSON.parse_value f cs) as [[v1 r1]| |] eqn:E; simpl;
      [|discriminate|contradiction].
    apply (proj1 (parse_progress f)) in E.
    pose proof (next_length "]"%char r1) as Hn.
    destruct (JSON.next "]"%char r1) as [r2|r2|]; try discriminate.
    apply IHe. lia.
  - intros cs acc Hf. simpl.
    destruct (JSON.parse_key cs) as [[k r0]|] eqn:Ek; simpl; [|discriminate].
    apply parse_key_length in Ek.
    pose proof (IHv r0 ltac:(lia)) as Hv.
    destruct (JSON.parse_value f r0) as [[v1 r1]| |] eqn:E; simpl;
      [|discriminate|contradiction].
    apply (proj1 (parse_progress f)) in E.
    pose proof (next_length "}"%char r1) as Hn.
    destruct (JSON.next "}"%char r1) as [r2|r2|]; try discriminate.
    apply IHm. lia.
Qed.

(** [JSON.parse] gives [None] only for a text the grammar rejects: a
    syntax error in the value, or something other than white space after
    it. *)
Lemma parse_none :
  forall text,
    JSON.parse text = None ->
    let cs := Str.chars text in
    JSON.parse_value (JSON.fuel_for cs) cs = JSON.SyntaxError
    \/ exists v r, JSON.parse_value (JSON.fuel_for cs) cs = JSON.Ok (v, r)
                   /\ JSON.skip_ws r <> [].
Proof.
  intros text H cs. unfold JSON.parse in H. fold cs in H.
  pose proof (proj1 (parse_fuel (JSON.fuel_for cs)) cs) as Hf.
  destruct (JSON.parse_value (JSON.fuel_for cs) cs) as [[v r]| |].
  - right. exists v, r. split; [reflexivity|].
    destruct (JSON.skip_ws r); discriminate.
  - now left.
  - exfalso. apply Hf; [unfold JSON.fuel_for; lia | reflexivity].
Qed.

(* ===================================================================== *)
(** * Elementary facts *)
(* ===================================================================== *)

Section Frames.

Variables (id : nat) (o : Settled Value) (w : World).

Lemma finish_self : self (finish id o w) = self w.
Proof. unfold finish. destruct (is_settled id w); reflexivity. Qed.

Lemma finish_inflight : inflight (finish id o w) = inflight w.
Proof. unfold finish. destruct (is_settled id w); reflexivity. Qed.

Lemma finish_sent : sent (finish id o w) = sent w.
Proof. unfold finish. destruct (is_settled id w); reflexivity. Qed.

Lemma finish_unhandled : unhandled (finish id o w) = unhandled w.
Proof. unfold finish. destruct (is_settled id w); reflexivity. Qed.

Lemma finish_emitted : emitted (finish id o w) = emitted w.
Proof. unfold finish. destruct (is_settled id w); reflexivity. Qed.

Lemma finish_sockets : sockets (finish id o w) = sockets w.
Proof. unfold finish. destruct (is_settled id w); reflexivity. Qed.

End Frames.

(** The world in which the body of a method runs: the call is counted. *)
Lemma new_call_snd :
  forall w,
    snd (new_call w)
    = mkWorld (self w) (inflight w) (sent w) (S (calls w)) (settled w)
        (unhandled w) (sockets w) (emitted w) (uncaught w) (websocket w)
      (error_listeners w).
Proof. reflexivity. Qed.

(** What a call of a method does in its own turn: it is rejected at once,
    or it sends one request whose answer will settle it, or, for
    [startWebsocketListener], it opens the socket or authenticates. *)
Lemma invoke_cases :
  forall c w,
    let id := calls w in
    let w1 := snd (new_call w) in
    (exists e, invoke c w = finish id (Rejected e) w1)
    \/ (exists options body pr,
           invoke c w = _apiRequest options body (KCall id pr) w1)
    \/ (c = CallStartWebsocketListener
        /\ invoke c w = startWebsocketListener id w1).
Proof.
  intros c w id w1. subst id w1. unfold invoke. simpl.
  destruct c as [o b | fa st | macs st | macs st | fa st | st | fa st | st
                | | st | ];
    unfold getAlarms, getEvents, getRogueAP, getClients, getDevices,
      mac_query, getHealth, getRoutes, getSystemInfo, site_query, getSites;
    try (destruct (filter_args fa st));
    try (destruct (validate_macs macs) as [e|l];
         [left; now exists e|]);
    try (right; left; eexists; eexists; eexists; reflexivity).
  right. right. now split.
Qed.

(** A promise that is still pending takes the outcome it is settled
    with. *)
Lemma outcome_of_finish :
  forall id o w, is_settled id w = false ->
    outcome_of id (finish id o w) = Some o.
Proof.
  intros id o w H. unfold finish. rewrite H.
  unfold outcome_of, is_settled in *. simpl.
  induction (settled w) as [|[i x] l IH]; simpl in *.
  - now rewrite Nat.eqb_refl.
  - destruct (Nat.eqb i id); [discriminate|]. now apply IH.
Qed.

(** A rejection travels down the continuation to the call at its root:
    nothing is sent on the way, and the only other effect is that the
    handlers of [_authenticate], when passed, lower the flag. *)
Lemma settle_rejected :
  forall k e w,
    settle k (Rejected e) w
    = finish (root k) (Rejected e) (lower_flag_if (through_login k) w).
Proof.
  intros k e.
  induction k as [id pr | k IH | a IH | options body k IH | id]
    using Cont_mutind
    with (P0 := fun a => forall w,
                  authenticated a (Some e) w
                  = finish (root (KLogin a)) (Rejected e)
                      (lower_flag_if
                         (match a with
                          | AResend _ _ k => through_login k
                          | AListen _ => false
                          end) w));
    intros w; simpl.
  - reflexivity.
  - apply IH.
  - rewrite IH. destruct a as [? ? k|?]; simpl; [|reflexivity].
    destruct (through_login k); reflexivity.
  - apply IH.
  - reflexivity.
Qed.

Lemma is_settled_lower_flag_if :
  forall b id w, is_settled id (lower_flag_if b w) = is_settled id w.
Proof. intros [] id w; reflexivity. Qed.

Lemma lower_flag_if_sent :
  forall b w, sent (lower_flag_if b w) = sent w.
Proof. intros [] w; reflexivity. Qed.

Lemma lower_flag_if_inflight :
  forall b w, inflight (lower_flag_if b w) = inflight w.
Proof. intros [] w; reflexivity. Qed.

(** What a rejection leaves behind, field by field. *)
Lemma settle_rejected_outcome :
  forall k e w, is_settled (root k) w = false ->
    outcome_of (root k) (settle k (Rejected e) w) = Some (Rejected e).
Proof.
  intros k e w H. rewrite settle_rejected.
  apply outcome_of_finish. now rewrite is_settled_lower_flag_if.
Qed.

Lemma settle_rejected_sent :
  forall k e w, sent (settle k (Rejected e) w) = sent w.
Proof.
  intros. now rewrite settle_rejected, finish_sent, lower_flag_if_sent.
Qed.

Lemma settle_rejected_inflight :
  forall k e w, inflight (settle k (Rejected e) w) = inflight w.
Proof.
  intros. now rewrite settle_rejected, finish_inflight, lower_flag_if_inflight.
Qed.

(* ===================================================================== *)
(** * The certificate error *)
(* ===================================================================== *)

(** C6.  When the transport refuses a self signed certificate (the error
    code [DEPTH_ZERO_SELF_SIGNED_CERT]) for a request in flight, whatever
    the state of the client, the call the request belongs to is rejected in
    that very turn with [new Error('Self signed certificate')], which is
    not the error of the transport; no request is handed to axios (neither
    a login nor a repetition of the request) and the request only leaves
    the set of requests in flight. *)
Theorem C6_self_signed_certificate_is_fatal :
  forall (w : World) (i : nat) (f : InFlight) (error : AxiosError),
    nth_error (inflight w) i = Some f ->
    code error = Some "DEPTH_ZERO_SELF_SIGNED_CERT" ->
    is_settled (root (if_cont f)) w = false ->
    let w' := answer i (Failure error) w in
    outcome_of (root (if_cont f)) w'
    = Some (Rejected (EError "Self signed certificate"))
    /\ EError "Self signed certificate" <> EAxios error
    /\ sent w' = sent w
    /\ logins_in_flight w' <= logins_in_flight w
    /\ inflight w' = remove_nth i (inflight w).
Proof.
  intros w i f error Hf Hcode Hnew w'. subst w'.
  unfold answer. rewrite Hf. unfold on_failure, is_self_signed.
  rewrite Hcode. simpl String.eqb. cbv iota.
  split; [|split; [|split; [|split]]].
  - now apply settle_rejected_outcome.
  - discriminate.
  - now rewrite settle_rejected_sent.
  - unfold logins_in_flight. rewrite settle_rejected_inflight. simpl.
    clear Hnew Hcode. revert i Hf.
    induction (inflight w) as [|x l IH]; intros [|i] Hf; simpl in *;
      try discriminate.
    + destruct (is_login x); simpl; lia.
    + specialize (IH i Hf). destruct (is_login x); simpl; lia.
  - now rewrite settle_rejected_inflight.
Qed.

Lemma C6_self_signed_certificate_witness :
  let w := run [Invoke (CallGetHealth None)] (boot node controller) in
  let w' := answer 0 (Failure self_signed) w in
  outcome_of 0 w' = Some (Rejected (EError "Self signed certificate"))
  /\ EError "Self signed certificate" <> EAxios self_signed
  /\ sent w' = sent w
  /\ logins_in_flight w' <= logins_in_flight w
  /\ inflight w' = [].
Proof.
  exact (C6_self_signed_certificate_is_fatal
           (run [Invoke (CallGetHealth None)] (boot node controller)) 0
           (mkInFlight
              (prepare controller (get "/s/default/stat/health") empty_body)
              empty_body (KCall 0 PInnerData))
           self_signed eq_refl eq_refl eq_refl).
Defined.

(* ===================================================================== *)
(** * One answer to one request *)
(* ===================================================================== *)

Lemma nth_error_snoc :
  forall (A : Type) (l : list A) (x : A), nth_error (l ++ [x]) (length l) = Some x.
Proof.
  intros A l x. induction l as [|y l IH]; simpl; [reflexivity | exact IH].
Qed.

Lemma remove_nth_snoc :
  forall (A : Type) (l : list A) (x : A), remove_nth (length l) (l ++ [x]) = l.
Proof.
  intros A l x. induction l as [|y l IH]; simpl; [reflexivity | now rewrite IH].
Qed.

Lemma or_default_idem :
  forall o d, Str.truthy d = true ->
    or_default (Some (or_default o d)) d = or_default o d.
Proof.
  intros [s|] d Hd; simpl.
  - destruct (Str.truthy s) eqn:Hs; simpl; [now rewrite Hs | now rewrite Hd].
  - now rewrite Hd.
Qed.

(** Handing the prepared [options] object back to [_apiRequest] prepares
    the same request again, up to the headers of the moment. *)
Lemma prepare_idem :
  forall c c' options body body',
    prepare c' (prepare c options body) body' = prepare c' options body'.
Proof.
  intros. unfold prepare. cbn [o_method o_path].
  now rewrite or_default_idem by reflexivity.
Qed.

Lemma not_self_signed :
  forall e, code e <> Some "DEPTH_ZERO_SELF_SIGNED_CERT" ->
    is_self_signed e = false.
Proof.
  intros e H. unfold is_self_signed. destruct (code e) as [c|]; [|reflexivity].
  destruct (String.eqb c "DEPTH_ZERO_SELF_SIGNED_CERT") eqn:E; [|reflexivity].
  apply String.eqb_eq in E. now subst c.
Qed.

(** Line 84 taken: a 401 with no authentication in progress starts one,
    and the request waits for it. *)
Lemma answer_unauthorized :
  forall w i f e,
    nth_error (inflight w) i = Some f ->
    rejects_credentials e ->
    _authenticationInProgress (self w) = false ->
    answer i (Failure e) w
    = _authenticate (AResend (if_options f) (if_body f) (if_cont f))
        (with_inflight (remove_nth i (inflight w)) w).
Proof.
  intros w i f e Hf [Hc [r [Hr Hs]]] Hflag.
  unfold answer. rewrite Hf. unfold on_failure.
  rewrite (not_self_signed e Hc). simpl self. rewrite Hflag. simpl negb.
  cbv iota. rewrite Hr, Hs. reflexivity.
Qed.

(** Lines 121-143 and 91: the login succeeded, the flag is lowered, the
    cookies are stored and the request is sent again. *)
Lemma answer_login_success :
  forall w i f r options body k,
    nth_error (inflight w) i = Some f ->
    if_cont f = KLogin (AResend options body k) ->
    answer i (Success r) w
    = let w1 :=
        set_authenticationInProgress false
          (with_inflight (remove_nth i (inflight w)) w) in
      _apiRequest options body (KOuter k)
        (with_self (store_cookies (r_headers r) (self w1)) w1).
Proof.
  intros w i f r options body k Hf Hk.
  unfold answer. rewrite Hf. unfold on_success. rewrite Hk. reflexivity.
Qed.


(* ===================================================================== *)
(** * Failures that are passed on *)
(* ===================================================================== *)




(** The case the amended statement leaves out.  Without an authentication
    in progress, a failure that carries no response makes line 84 read
    [status] off [undefined]: the TypeError is raised inside the async
    handler, nothing handles it, and the promise of the call is never
    settled. *)
Lemma answer_without_response :
  forall w i f e,
    nth_error (inflight w) i = Some f ->
    code e <> Some "DEPTH_ZERO_SELF_SIGNED_CERT" ->
    response e = None ->
    _authenticationInProgress (self w) = false ->
    answer i (Failure e) w
    = unhandled_rejection ETypeError
        (with_inflight (remove_nth i (inflight w)) w).
Proof.
  intros w i f e Hf Hc Hr Hflag.
  unfold answer. rewrite Hf. unfold on_failure.
  rewrite (not_self_signed e Hc). simpl self. rewrite Hflag, Hr. reflexivity.
Qed.

Example connection_refused_leaves_the_call_pending :
  let w' :=
    run [Invoke (CallGetHealth None); Answered 0 (Failure connection_refused)]
      (boot node controller) in
  outcome_of 0 w' = None /\ inflight w' = [] /\ unhandled w' = [ETypeError].
Proof. repeat split. Qed.

(* ===================================================================== *)
(** * Re-authentication and the repeated request *)
(* ===================================================================== *)

Lemma same_configuration_refl : forall c, same_configuration c c.
Proof. intros c. repeat split. Qed.

Lemma same_configuration_trans :
  forall a b c,
    same_configuration a b -> same_configuration b c -> same_configuration a c.
Proof.
  unfold same_configuration. intros a b c H1 H2.
  destruct H1 as (?&?&?&?&?&?), H2 as (?&?&?&?&?&?).
  repeat split; congruence.
Qed.

Lemma fold_left_same_configuration :
  forall (A : Type) (f : Client -> A -> Client),
    (forall c a, same_configuration c (f c a)) ->
    forall l c, same_configuration c (fold_left f l c).
Proof.
  intros A f Hf l. induction l as [|a l IH]; intros c; simpl.
  - apply same_configuration_refl.
  - eapply same_configuration_trans; [apply Hf | apply IH].
Qed.

Lemma store_attr_configuration :
  forall c attr, same_configuration c (store_attr c attr).
Proof.
  intros c attr. unfold store_attr.
  destruct (Str.starts_with "unifises=" attr); [repeat split|].
  destruct (Str.starts_with "csrf_token=" attr); repeat split.
Qed.

(** Storing cookies touches [_session] and [_csrfToken] only. *)
Lemma store_cookies_configuration :
  forall h c, same_configuration c (store_cookies h c).
Proof.
  intros h c. unfold store_cookies.
  destruct (set_cookie h) as [cookies|]; [|apply same_configuration_refl].
  apply fold_left_same_configuration. intros c' cookie. unfold store_cookie.
  apply fold_left_same_configuration. apply store_attr_configuration.
Qed.

Lemma store_cookies_flag :
  forall h c,
    _authenticationInProgress (store_cookies h c) = _authenticationInProgress c.
Proof. intros h c. apply (store_cookies_configuration h c). Qed.

Lemma reauthenticated_flag :
  forall f r w, _authenticationInProgress (self (reauthenticated f r w)) = false.
Proof. intros. unfold reauthenticated. simpl. now rewrite store_cookies_flag. Qed.

Lemma reauthenticated_inflight :
  forall f r w, inflight (reauthenticated f r w) = inflight w.
Proof. reflexivity. Qed.

(** One round: the request is sent, answered 401 with no authentication in
    progress, the login succeeds, and the request is sent again through
    the very code that sent it first. *)
Lemma round :
  forall w options body k e r,
    rejects_credentials e ->
    _authenticationInProgress (self w) = false ->
    let n := length (inflight w) in
    let f := mkInFlight (prepare (self w) options body) body k in
    run [Answered n (Failure e); Answered n (Success r)]
      (_apiRequest options body k w)
    = _apiRequest options body (KOuter k) (reauthenticated f r w).
Proof.
  intros w options body k e r He Hflag n f. subst n. simpl run.
  unfold _apiRequest at 2.
  rewrite (answer_unauthorized _ (length (inflight w)) f e); cycle 1.
  { apply nth_error_snoc. } { exact He. } { exact Hflag. }
  simpl inflight. rewrite remove_nth_snoc.
  erewrite (answer_login_success _ (length (inflight w))); cycle 1.
  { simpl. apply nth_error_snoc. } { reflexivity. }
  simpl inflight. rewrite remove_nth_snoc.
  unfold _apiRequest. simpl self. simpl if_options. simpl if_body.
  rewrite prepare_idem. reflexivity.
Qed.

Lemma outer_root : forall n k, root (outer n k) = root k.
Proof. induction n; intros k; simpl; [reflexivity | now rewrite IHn]. Qed.

Lemma outer_through_login :
  forall n k, through_login (outer n k) = through_login k.
Proof. induction n; intros k; simpl; [reflexivity | now rewrite IHn]. Qed.

Lemma run_app :
  forall es es' w, run (es ++ es') w = run es' (run es w).
Proof. intros. unfold run. apply fold_left_app. Qed.

Lemma filter_snoc :
  forall (A : Type) (p : A -> bool) (l : list A) (x : A),
    length (filter p (l ++ [x]))
    = length (filter p l) + (if p x then 1 else 0).
Proof.
  intros. rewrite filter_app, length_app. simpl. now destruct (p x).
Qed.

(** Sending a request of call [id] adds one to its sends and none to the
    logins. *)
Lemma _apiRequest_counts :
  forall options body k w,
    through_login k = false ->
    sends_of (root k) (_apiRequest options body k w) = S (sends_of (root k) w)
    /\ logins_sent (_apiRequest options body k w) = logins_sent w.
Proof.
  intros options body k w Hk. unfold sends_of, logins_sent, _apiRequest.
  simpl sent. rewrite !filter_snoc. unfold is_send_of, is_login. simpl.
  rewrite Hk, Nat.eqb_refl. simpl. destruct k; simpl in *; try discriminate; lia.
Qed.

Lemma is_login_through :
  forall f, through_login (if_cont f) = false -> is_login f = false.
Proof.
  intros f H. unfold is_login. destruct (if_cont f); simpl in *;
    [reflexivity | reflexivity | discriminate].
Qed.

Lemma is_send_of_root :
  forall f, through_login (if_cont f) = false ->
    is_send_of (root (if_cont f)) f = true.
Proof. intros f H. unfold is_send_of. now rewrite H, Nat.eqb_refl. Qed.

Lemma reauthenticated_counts :
  forall f r w,
    through_login (if_cont f) = false ->
    sends_of (root (if_cont f)) (reauthenticated f r w)
    = S (sends_of (root (if_cont f)) w)
    /\ logins_sent (reauthenticated f r w) = S (logins_sent w).
Proof.
  intros f r w Hk. unfold sends_of, logins_sent, reauthenticated. simpl sent.
  rewrite !filter_snoc.
  rewrite (is_send_of_root f Hk), (is_login_through f Hk).
  unfold is_send_of, is_login. simpl. lia.
Qed.

Lemma settle_outer :
  forall n k o w, settle (outer n k) o w = settle k o w.
Proof. induction n; intros k o w; simpl; [reflexivity | now rewrite IHn]. Qed.

(** Any number of rounds: the request is in flight again each time, under
    one more [KOuter]; each round adds one send of the request and one
    login to the trace. *)
Lemma rounds_replay :
  forall rounds w options body k,
    Forall (fun p => rejects_credentials (fst p)) rounds ->
    _authenticationInProgress (self w) = false ->
    through_login k = false ->
    exists w',
      run (reauthentications (length (inflight w)) rounds)
        (_apiRequest options body k w)
      = _apiRequest options body (outer (length rounds) k) w'
      /\ _authenticationInProgress (self w') = false
      /\ inflight w' = inflight w
      /\ settled w' = settled w
      /\ sends_of (root k) w' = sends_of (root k) w + length rounds
      /\ logins_sent w' = logins_sent w + length rounds.
Proof.
  induction rounds as [|[e r] rest IH]; intros w options body k Hall Hflag Hk.
  - exists w. simpl length. rewrite !Nat.add_0_r.
    repeat split; (reflexivity || exact Hflag).
  - inversion Hall as [|? ? He Hrest]; subst. simpl in He.
    change (reauthentications (length (inflight w)) ((e, r) :: rest))
      with ([Answered (length (inflight w)) (Failure e);
             Answered (length (inflight w)) (Success r)]
            ++ reauthentications (length (inflight w)) rest).
    rewrite run_app, (round w options body k e r He Hflag).
    set (f := mkInFlight (prepare (self w) options body) body k).
    destruct (IH (reauthenticated f r w) options body (KOuter k) Hrest
                (reauthenticated_flag f r w) Hk)
      as [w' [Hrun [Hf' [Hi' [Hs' [Hn' Hl']]]]]].
    rewrite reauthenticated_inflight in Hrun.
    exists w'. split; [exact Hrun|]. split; [exact Hf'|].
    split; [now rewrite Hi'|]. split; [now rewrite Hs'|].
    destruct (reauthenticated_counts f r w Hk) as [Hn Hl].
    simpl root in Hn', Hn |- *. simpl length.
    rewrite Hn', Hl', Hn, Hl. split; lia.
Qed.

(** C1, amended.  A request that receives a 401 while no authentication is
    in progress is sent again after each successful re-authentication, and
    the repetition is handled like a first send: after [rounds] such
    answers, each followed by a successful login, the request has been
    handed to axios [rounds + 1] times (twice when only the first send is
    rejected), [rounds] logins have been made, the request is in flight
    again, and a successful answer to it settles the call. *)
Theorem C1_one_more_send_per_credential_rejection :
  forall (rounds : list (AxiosError * Response)) (w : World)
         (options : Options) (body : Body) (id : nat) (pr : Project),
    Forall (fun p => rejects_credentials (fst p)) rounds ->
    _authenticationInProgress (self w) = false ->
    is_settled id w = false ->
    let n := length (inflight w) in
    let w' :=
      run (reauthentications n rounds)
        (_apiRequest options body (KCall id pr) w) in
    sends_of id w' = sends_of id w + (length rounds + 1)
    /\ logins_sent w' = logins_sent w + length rounds
    /\ (exists f, nth_error (inflight w') n = Some f
                  /\ is_send_of id f = true)
    /\ forall r,
         outcome_of id (answer n (Success r) w')
         = Some (project pr (Fulfilled (mkReply (r_data r) (r_headers r)))).
Proof.
  intros rounds w options body id pr Hall Hflag Hnew n w'. subst n w'.
  destruct (rounds_replay rounds w options body (KCall id pr) Hall Hflag
              eq_refl) as [w' [Hrun [Hf' [Hi' [Hs' [Hn' Hl']]]]]].
  rewrite Hrun. simpl root in Hn'.
  assert (Hk : through_login (outer (length rounds) (KCall id pr)) = false)
    by now rewrite outer_through_login.
  assert (Hr : root (outer (length rounds) (KCall id pr)) = id)
    by now rewrite outer_root.
  destruct (_apiRequest_counts options body _ w' Hk) as [Hn Hl].
  rewrite Hr in Hn. rewrite Hn, Hl, Hn', Hl'.
  split; [lia|]. split; [reflexivity|]. split.
  - eexists. split.
    + unfold _apiRequest. simpl inflight. rewrite <- Hi'. apply nth_error_snoc.
    + unfold is_send_of. simpl if_cont. now rewrite Hk, Hr, Nat.eqb_refl.
  - intros r. unfold answer, _apiRequest. simpl inflight. rewrite <- Hi'.
    rewrite nth_error_snoc. unfold on_success. simpl if_cont.
    rewrite settle_outer. simpl settle. apply outcome_of_finish.
    unfold is_settled in *. simpl settled. now rewrite Hs'.
Qed.

(** Two rejections of [getHealth], each followed by a successful login. *)
Lemma C1_one_more_send_witness :
  let rounds := [(unauthorized, logged_in); (unauthorized, logged_in)] in
  let w' :=
    run (reauthentications 0 rounds)
      (_apiRequest (get "/s/default/stat/health") empty_body
         (KCall 0 PInnerData) (boot node controller)) in
  sends_of 0 w' = sends_of 0 (boot node controller) + (2 + 1)
  /\ logins_sent w' = logins_sent (boot node controller) + 2
  /\ (exists f, nth_error (inflight w') 0 = Some f /\ is_send_of 0 f = true)
  /\ forall r,
       outcome_of 0 (answer 0 (Success r) w')
       = Some (project PInnerData
                 (Fulfilled (mkReply (r_data r) (r_headers r)))).
Proof.
  refine (C1_one_more_send_per_credential_rejection
            [(unauthorized, logged_in); (unauthorized, logged_in)]
            (boot node controller) (get "/s/default/stat/health") empty_body 0
            PInnerData _ eq_refl eq_refl).
  repeat constructor; simpl; try discriminate;
    (eexists; split; reflexivity).
Defined.

(** C1 as stated fails: when the repeated request is rejected again and
    the second authentication succeeds too, the request is sent a third
    time. *)
Lemma C1_a_third_send_occurs :
  sends_of 0
    (run [Invoke (CallGetHealth None);
          Answered 0 (Failure unauthorized); Answered 0 (Success logged_in);
          Answered 0 (Failure unauthorized); Answered 0 (Success logged_in)]
       (boot node controller))
  = 3.
Proof. reflexivity. Qed.

(* ===================================================================== *)
(** * The credentials a login answer sets *)
(* ===================================================================== *)

Lemma chars_append :
  forall s t, Str.chars (s ++ t)%string = Str.chars s ++ Str.chars t.
Proof.
  unfold Str.chars. induction s as [|c s IH]; intros t; simpl;
    [reflexivity | now rewrite IH].
Qed.

Lemma string_append_assoc :
  forall s t u : string, ((s ++ t) ++ u = s ++ t ++ u)%string.
Proof.
  induction s as [|c s IH]; intros t u; simpl;
    [reflexivity | now rewrite IH].
Qed.

Lemma string_append_empty : forall s : string, (s ++ EmptyString)%string = s.
Proof.
  induction s as [|c s IH]; simpl; [reflexivity | now rewrite IH].
Qed.

Lemma of_chars_chars : forall s, Str.of_chars (Str.chars s) = s.
Proof. intros s. apply string_of_list_ascii_of_string. Qed.

(** Splitting reads up to the first separator. *)
Lemma split_chars_app :
  forall c l1 l2 cur,
    forallb (fun x => negb (Ascii.eqb x c)) l1 = true ->
    Str.split_chars c (l1 ++ l2) cur = Str.split_chars c l2 (rev l1 ++ cur).
Proof.
  intros c l1. induction l1 as [|x l1 IH]; intros l2 cur H; simpl in *.
  - reflexivity.
  - apply andb_prop in H. destruct H as [Hx Hl].
    destruct (Ascii.eqb x c); [discriminate|].
    rewrite (IH l2 (x :: cur) Hl). now rewrite <- app_assoc.
Qed.

Lemma token_no_separator :
  forall l, forallb token_char l = true ->
    forallb (fun x => negb (Ascii.eqb x ";"%char)) l = true.
Proof.
  induction l as [|x l IH]; simpl; [reflexivity|].
  intros H. apply andb_prop in H. destruct H as [Hx Hl].
  unfold token_char in Hx. apply andb_prop in Hx. destruct Hx as [Hx _].
  now rewrite Hx, IH.
Qed.

Lemma token_dot_star :
  forall l, forallb token_char l = true -> Str.dot_star l = l.
Proof.
  induction l as [|x l IH]; simpl; [reflexivity|].
  intros H. apply andb_prop in H. destruct H as [Hx Hl].
  unfold token_char in Hx. apply andb_prop in Hx. destruct Hx as [_ Hx].
  destruct (Str.is_line_terminator x); [discriminate|]. now rewrite IH.
Qed.

(** A string without semicolon is one attribute; before a semicolon it is
    the first attribute. *)
Lemma split_alone :
  forall s,
    forallb (fun x => negb (Ascii.eqb x ";"%char)) (Str.chars s) = true ->
    Str.split ";" s = [s].
Proof.
  intros s H. unfold Str.split.
  rewrite <- (app_nil_r (Str.chars s)), (split_chars_app _ _ _ _ H).
  simpl. now rewrite app_nil_r, rev_involutive, of_chars_chars.
Qed.

Lemma split_first :
  forall s r,
    forallb (fun x => negb (Ascii.eqb x ";"%char)) (Str.chars s) = true ->
    Str.split ";" (s ++ ";" ++ r)%string = s :: Str.split ";" r.
Proof.
  intros s r H. unfold Str.split.
  rewrite chars_append, (split_chars_app _ _ _ _ H). simpl.
  now rewrite app_nil_r, rev_involutive, of_chars_chars.
Qed.

(** Attributes that do not name a credential leave it as it is. *)
Lemma store_attrs_session :
  forall attrs c,
    Forall (fun a => Str.starts_with "unifises=" a = false) attrs ->
    _session (fold_left store_attr attrs c) = _session c.
Proof.
  induction attrs as [|a l IH]; intros c H; simpl; [reflexivity|].
  inversion H as [|? ? Ha Hl]; subst. rewrite (IH _ Hl).
  unfold store_attr. rewrite Ha.
  now destruct (Str.starts_with "csrf_token=" a).
Qed.

Lemma store_attrs_csrfToken :
  forall attrs c,
    Forall (fun a => Str.starts_with "csrf_token=" a = false) attrs ->
    _csrfToken (fold_left store_attr attrs c) = _csrfToken c.
Proof.
  induction attrs as [|a l IH]; intros c H; simpl; [reflexivity|].
  inversion H as [|? ? Ha Hl]; subst. rewrite (IH _ Hl).
  unfold store_attr. rewrite Ha.
  now destruct (Str.starts_with "unifises=" a).
Qed.

(** The attributes of the cookie [name value; attrs]. *)
Lemma split_cookie :
  forall name value attrs,
    forallb (fun x => negb (Ascii.eqb x ";"%char)) (Str.chars name) = true ->
    is_token value = true ->
    Str.split ";" (cookie_of name value attrs)
    = (name ++ value)%string
      :: match attrs with
         | Some r => Str.split ";" r
         | None => []
         end.
Proof.
  intros name value attrs Hn Hv.
  assert (H : forallb (fun x => negb (Ascii.eqb x ";"%char))
                (Str.chars (name ++ value)) = true).
  { rewrite chars_append, forallb_app, Hn. now apply token_no_separator. }
  unfold cookie_of. destruct attrs as [r|].
  - rewrite <- (split_first _ r H). f_equal.
    now rewrite string_append_assoc.
  - rewrite <- (split_alone _ H). f_equal.
    now rewrite <- string_append_assoc, string_append_empty.
Qed.

(** The cookie [unifises=value; attrs] sets the session to [value]. *)
Lemma store_session_cookie :
  forall c value attrs,
    is_token value = true -> other_attrs attrs ->
    _session (store_cookie c (cookie_of "unifises=" value attrs)) = Some value
    /\ _csrfToken (store_cookie c (cookie_of "unifises=" value attrs))
       = _csrfToken c.
Proof.
  intros c value attrs Hv Ha. unfold store_cookie.
  rewrite (split_cookie "unifises=" value attrs eq_refl Hv).
  assert (Hfirst : store_attr c ("unifises=" ++ value) = set_session value c).
  { unfold store_attr. simpl Str.starts_with. cbv iota.
    replace (Str.starts_with EmptyString value) with true
      by now destruct value.
    unfold Str.capture_after. simpl Str.drop.
    now rewrite (token_dot_star _ Hv), of_chars_chars. }
  cbn [fold_left]. rewrite Hfirst. destruct attrs as [r|]; simpl in *.
  - destruct Ha as [Hs Hc].
    now rewrite (store_attrs_session _ _ Hs), (store_attrs_csrfToken _ _ Hc).
  - now split.
Qed.

(** The cookie [csrf_token=value; attrs] sets the token to [value]. *)
Lemma store_csrf_cookie :
  forall c value attrs,
    is_token value = true -> other_attrs attrs ->
    _csrfToken (store_cookie c (cookie_of "csrf_token=" value attrs))
    = Some value
    /\ _session (store_cookie c (cookie_of "csrf_token=" value attrs))
       = _session c.
Proof.
  intros c value attrs Hv Ha. unfold store_cookie.
  rewrite (split_cookie "csrf_token=" value attrs eq_refl Hv).
  assert (Hfirst : store_attr c ("csrf_token=" ++ value)
                   = set_csrfToken value c).
  { unfold store_attr. simpl Str.starts_with. cbv iota.
    replace (Str.starts_with EmptyString value) with true
      by now destruct value.
    unfold Str.capture_after. simpl Str.drop.
    now rewrite (token_dot_star _ Hv), of_chars_chars. }
  cbn [fold_left]. rewrite Hfirst. destruct attrs as [r|]; simpl in *.
  - destruct Ha as [Hs Hc].
    now rewrite (store_attrs_session _ _ Hs), (store_attrs_csrfToken _ _ Hc).
  - now split.
Qed.

(** The credentials make the round trip: what a login answer sets in its
    two cookies is what the client stores, and what the next request
    carries in its [cookie] and [x-csrf-token] headers. *)
Theorem credentials_round_trip :
  forall (c : Client) (session token : string) (attrs1 attrs2 : option string)
         (others : list (string * string)),
    is_token session = true -> is_token token = true ->
    other_attrs attrs1 -> other_attrs attrs2 ->
    let answer_headers :=
      mkRespHeaders
        (Some [cookie_of "unifises=" session attrs1;
               cookie_of "csrf_token=" token attrs2]) others in
    let c' := store_cookies answer_headers c in
    _session c' = Some session
    /\ _csrfToken c' = Some token
    /\ (session <> EmptyString ->
        request_headers c'
        = [("Content-Type", VString "application/json");
           ("Accept", VString "application/json");
           ("cookie", VString ("unifises=" ++ session ++ ";"));
           ("x-csrf-token", VString token)]).
Proof.
  intros c session token attrs1 attrs2 others Hs Ht Ha1 Ha2 hs c'.
  subst hs c'. unfold store_cookies. cbn [set_cookie fold_left].
  destruct (store_session_cookie c session attrs1 Hs Ha1) as [H1 _].
  destruct (store_csrf_cookie
              (store_cookie c (cookie_of "unifises=" session attrs1))
              token attrs2 Ht Ha2) as [H2 H2'].
  rewrite H1 in H2'. split; [exact H2'|]. split; [exact H2|].
  intros Hne. unfold request_headers, credential_headers.
  rewrite H2', H2. destruct session; [contradiction | reflexivity].
Qed.

Lemma credentials_round_trip_witness :
  let c' :=
    store_cookies
      (mkRespHeaders
         (Some [cookie_of "unifises=" "k8U3Zq" (Some " Path=/; Secure; HttpOnly");
                cookie_of "csrf_token=" "x9Tt1a" (Some " Path=/; Secure")])
         []) controller in
  _session c' = Some "k8U3Zq"
  /\ _csrfToken c' = Some "x9Tt1a"
  /\ ("k8U3Zq" <> EmptyString ->
      request_headers c'
      = [("Content-Type", VString "application/json");
         ("Accept", VString "application/json");
         ("cookie", VString ("unifises=" ++ "k8U3Zq" ++ ";"));
         ("x-csrf-token", VString "x9Tt1a")]).
Proof.
  refine (credentials_round_trip controller "k8U3Zq" "x9Tt1a"
            (Some " Path=/; Secure; HttpOnly") (Some " Path=/; Secure") []
            eq_refl eq_refl _ _);
    split; repeat constructor.
Defined.

(** The last cookies written win: a login answer that ends with the two
    credential cookies leaves their values in the client, whatever was
    stored before and whatever cookies came first. *)
Lemma stored_credentials :
  forall c earlier session token attrs1 attrs2 others,
    is_token session = true -> is_token token = true ->
    other_attrs attrs1 -> other_attrs attrs2 ->
    let c' :=
      store_cookies
        (mkRespHeaders
           (Some (earlier ++ [cookie_of "unifises=" session attrs1;
                              cookie_of "csrf_token=" token attrs2]))
           others) c in
    _session c' = Some session /\ _csrfToken c' = Some token.
Proof.
  intros c earlier session token attrs1 attrs2 others Hs Ht Ha1 Ha2 c'.
  subst c'. unfold store_cookies. cbn [set_cookie].
  rewrite fold_left_app. cbn [fold_left].
  set (c0 := fold_left store_cookie earlier c).
  destruct (store_session_cookie c0 session attrs1 Hs Ha1) as [H1 _].
  destruct (store_csrf_cookie
              (store_cookie c0 (cookie_of "unifises=" session attrs1))
              token attrs2 Ht Ha2) as [H2 H2'].
  rewrite H1 in H2'. now split.
Qed.

(* ===================================================================== *)
(** * What the repeated request carries *)
(* ===================================================================== *)

Lemma lower_flag_id :
  forall w, _authenticationInProgress (self w) = false ->
    self (set_authenticationInProgress false w) = self w.
Proof.
  intros w H. unfold set_authenticationInProgress. simpl.
  destruct (self w); simpl in *. now subst.
Qed.

(** C7.  A request that got a 401 with no authentication in progress and
    is sent again after the login succeeded goes out with the method, url,
    path, base url, agent and body of the first send.  The headers of both
    sends are the two fixed headers followed by the credential headers
    read off the client at that moment.  For the first send these are the
    cookie and the token the client held then, none without a session.
    For the repetition the client is the one right after the cookies of
    the login answer were stored: when the answer ends with the cookies
    [unifises=session] and [csrf_token=token], the repetition carries
    the cookie [unifises=session;] and the token [token], whatever the
    first send carried; when the answer sets no cookie, it carries what
    the first send carried. *)
Theorem C7_replay_refreshes_only_the_credential_headers :
  forall (w : World) (options : Options) (body : Body) (k : Cont)
         (e : AxiosError) (r : Response),
    rejects_credentials e ->
    _authenticationInProgress (self w) = false ->
    let n := length (inflight w) in
    let first := mkInFlight (prepare (self w) options body) body k in
    let w' :=
      run [Answered n (Failure e); Answered n (Success r)]
        (_apiRequest options body k w) in
    let fixed :=
      [("Content-Type", VString "application/json");
       ("Accept", VString "application/json")] in
    exists login again,
      sent w' = ((sent w ++ [first]) ++ [login]) ++ [again]
      /\ is_login login = true
      /\ inflight w' = inflight w ++ [again]
      /\ self w' = store_cookies (r_headers r) (self w)
      /\ o_method (if_options again) = o_method (if_options first)
      /\ o_url (if_options again) = o_url (if_options first)
      /\ o_path (if_options again) = o_path (if_options first)
      /\ o_baseURL (if_options again) = o_baseURL (if_options first)
      /\ o_httpsAgent (if_options again) = o_httpsAgent (if_options first)
      /\ o_data (if_options again) = o_data (if_options first)
      /\ o_data (if_options again) = Some body
      /\ if_body again = body
      /\ o_headers (if_options first)
         = Some (fixed ++ credential_headers (self w))
      /\ o_headers (if_options again)
         = Some (fixed ++ credential_headers (self w'))
      /\ o_headers (if_options first)
         = Some (fixed
                 ++ match _session (self w) with
                    | Some s =>
                        if Str.truthy s then
                          [("cookie", VString ("unifises=" ++ s ++ ";"));
                           ("x-csrf-token", nullable (_csrfToken (self w)))]
                        else []
                    | None => []
                    end)
      /\ (forall earlier session token attrs1 attrs2 others,
            r_headers r
            = mkRespHeaders
                (Some (earlier ++ [cookie_of "unifises=" session attrs1;
                                   cookie_of "csrf_token=" token attrs2]))
                others ->
            is_token session = true -> is_token token = true ->
            other_attrs attrs1 -> other_attrs attrs2 ->
            session <> EmptyString ->
            o_headers (if_options again)
            = Some (fixed
                    ++ [("cookie", VString ("unifises=" ++ session ++ ";"));
                        ("x-csrf-token", VString token)]))
      /\ (set_cookie (r_headers r) = None ->
          o_headers (if_options again) = o_headers (if_options first)).
Proof.
  intros w options body k e r He Hflag n first w' fixed. subst n w'.
  rewrite (round w options body k e r He Hflag). fold first.
  assert (Hself : self (reauthenticated first r w)
                  = store_cookies (r_headers r) (self w)).
  { unfold reauthenticated. simpl self.
    change (mkClient (baseURL (self w)) (user (self w)) (password (self w))
              (site (self w)) (rejectUnauthorized (self w))
              (_session (self w)) (_csrfToken (self w)) false)
      with (self (set_authenticationInProgress false w)).
    now rewrite lower_flag_id. }
  destruct (store_cookies_configuration (r_headers r) (self w))
    as (Hb & _ & _ & _ & Hr & _).
  eexists. eexists.
  split; [reflexivity|]. split; [reflexivity|]. split; [reflexivity|].
  split; [exact Hself|].
  split; [reflexivity|]. split; [reflexivity|]. split; [reflexivity|].
  split.
  { change (Some (tmpl_undefined (baseURL (self (reauthenticated first r w)))
                  ++ "/api")%string
            = Some (tmpl_undefined (baseURL (self w)) ++ "/api")%string).
    now rewrite Hself, Hb. }
  split.
  { change (Some (mkAgent
                    (rejectUnauthorized (self (reauthenticated first r w))))
            = Some (mkAgent (rejectUnauthorized (self w)))).
    now rewrite Hself, Hr. }
  do 6 (split; [reflexivity|]).
  assert (Hagain :
    forall c, self (reauthenticated first r w) = c ->
      o_headers
        (if_options
           (mkInFlight (prepare (self (reauthenticated first r w)) options body)
              body (KOuter k)))
      = Some (fixed ++ credential_headers c)).
  { now intros c <-. }
  split.
  - intros earlier session token attrs1 attrs2 others Hh Hs Ht Ha1 Ha2 Hne.
    rewrite (Hagain _ Hself). unfold credential_headers.
    destruct (stored_credentials (self w) earlier session token attrs1 attrs2
                others Hs Ht Ha1 Ha2) as [H1 H2].
    rewrite <- Hh in H1, H2. rewrite H1, H2.
    destruct session; [contradiction | reflexivity].
  - intros Hnone. rewrite (Hagain _ Hself). unfold store_cookies.
    now rewrite Hnone.
Qed.

(** [getHealth] before any login, rejected, and sent again with the
    cookies of the login. *)
Lemma C7_replay_witness :
  let w := boot node controller in
  let options := get "/s/default/stat/health" in
  let first := mkInFlight (prepare (self w) options empty_body) empty_body
                 (KCall 0 PInnerData) in
  let w' :=
    run [Answered 0 (Failure unauthorized); Answered 0 (Success logged_in)]
      (_apiRequest options empty_body (KCall 0 PInnerData) w) in
  let fixed :=
    [("Content-Type", VString "application/json");
     ("Accept", VString "application/json")] in
  exists login again,
    sent w' = ((sent w ++ [first]) ++ [login]) ++ [again]
    /\ is_login login = true
    /\ inflight w' = inflight w ++ [again]
    /\ self w' = store_cookies (r_headers logged_in) (self w)
    /\ o_method (if_options again) = o_method (if_options first)
    /\ o_url (if_options again) = o_url (if_options first)
    /\ o_path (if_options again) = o_path (if_options first)
    /\ o_baseURL (if_options again) = o_baseURL (if_options first)
    /\ o_httpsAgent (if_options again) = o_httpsAgent (if_options first)
    /\ o_data (if_options again) = o_data (if_options first)
    /\ o_data (if_options again) = Some empty_body
    /\ if_body again = empty_body
    /\ o_headers (if_options first) = Some fixed
    /\ o_headers (if_options again)
       = Some (fixed
               ++ [("cookie", VString ("unifises=" ++ "k8U3Zq" ++ ";"));
                   ("x-csrf-token", VString "x9Tt1a")]).
Proof.
  assert (He : rejects_credentials unauthorized)
    by (split; [discriminate | eexists; split; reflexivity]).
  destruct (C7_replay_refreshes_only_the_credential_headers
              (boot node controller) (get "/s/default/stat/health") empty_body
              (KCall 0 PInnerData) unauthorized logged_in He eq_refl)
    as (login & again & H1 & H2 & H3 & H4 & H5 & H6 & H7 & H8 & H9 & H10
        & H11 & H12 & _ & _ & H15 & H16 & _).
  exists login, again.
  do 12 (split; [assumption|]). split; [exact H15|].
  refine (H16 [] "k8U3Zq"%string "x9Tt1a"%string
            (Some " Path=/; Secure; HttpOnly"%string)
            (Some " Path=/; Secure"%string) [] eq_refl eq_refl eq_refl _ _ _).
  - split; repeat constructor.
  - split; repeat constructor.
  - discriminate.
Defined.

(** The headers of the two sends of that scenario, written out. *)
Example replay_headers :
  map (fun f => o_headers (if_options f))
    (sent
       (run [Invoke (CallGetHealth None);
             Answered 0 (Failure unauthorized);
             Answered 0 (Success logged_in)] (boot node controller)))
  = [Some [("Content-Type", VString "application/json");
           ("Accept", VString "application/json")];
     Some [("Content-Type", VString "application/json");
           ("Accept", VString "application/json")];
     Some [("Content-Type", VString "application/json");
           ("Accept", VString "application/json");
           ("cookie", VString "unifises=k8U3Zq;");
           ("x-csrf-token", VString "x9Tt1a")]].
Proof. reflexivity. Qed.

(* ===================================================================== *)
(** * The filter defaults *)
(* ===================================================================== *)

Lemma non_positive_not_above_zero :
  forall n, non_positive n -> Num.gt n Num.zero = false.
Proof.
  unfold non_positive, Num.gt. intros [s| s | | s m e]; simpl;
    try reflexivity; destruct s; simpl; (reflexivity || discriminate).
Qed.

Lemma limit_defaulted :
  forall o,
    match f_limit o with
    | None => True
    | Some n => non_positive n
    end ->
    filter_limit o = VNumber Num.hundred.
Proof.
  intros o H. unfold filter_limit, above_or.
  destruct (f_limit o) as [n|]; [|reflexivity].
  now rewrite (non_positive_not_above_zero n H).
Qed.

(** C8.  When the caller of [getAlarms], [getEvents] or [getRogueAP] gives
    no limit (no options at all, a site name in their place, or options
    without [limit]), or gives a limit that is not above zero, the one
    request the method hands to axios carries [_limit = 100]. *)
Theorem C8_limit_defaults_to_100 :
  forall (options : FilterArg) (site : option string) (id : nat) (w : World),
    match requested_limit options with
    | None => True
    | Some n => non_positive n
    end ->
    (exists f, sent (getAlarms id options site w) = sent w ++ [f]
               /\ carried "_limit" f = Some (VNumber Num.hundred))
    /\ (exists f, sent (getEvents id options site w) = sent w ++ [f]
                  /\ carried "_limit" f = Some (VNumber Num.hundred))
    /\ (exists f, sent (getRogueAP id options site w) = sent w ++ [f]
                  /\ carried "_limit" f = Some (VNumber Num.hundred)).
Proof.
  intros options site id w H.
  assert (Hl : filter_limit (fst (filter_args options site))
               = VNumber Num.hundred).
  { destruct options as [|s|o]; simpl in *;
      [reflexivity | reflexivity | now apply limit_defaulted]. }
  unfold getAlarms, getEvents, getRogueAP.
  destruct (filter_args options site) as [o s]. simpl fst in Hl.
  repeat split; eexists; (split; [reflexivity|]);
    unfold carried; simpl; now rewrite Hl.
Qed.

(** The limit [-5]. *)
Lemma C8_limit_minus_five_witness :
  let options :=
    FilterObject (mkFilterOptions None (Some (Num.of_Z (-5))) VUndefined None) in
  let w := boot node controller in
  (exists f, sent (getAlarms 0 options None w) = sent w ++ [f]
             /\ carried "_limit" f = Some (VNumber Num.hundred))
  /\ (exists f, sent (getEvents 0 options None w) = sent w ++ [f]
                /\ carried "_limit" f = Some (VNumber Num.hundred))
  /\ (exists f, sent (getRogueAP 0 options None w) = sent w ++ [f]
                /\ carried "_limit" f = Some (VNumber Num.hundred)).
Proof.
  exact (C8_limit_defaults_to_100
           (FilterObject
              (mkFilterOptions None (Some (Num.of_Z (-5))) VUndefined None))
           None 0 (boot node controller) eq_refl).
Defined.

(** No limit at all, and a limit above zero, which is kept. *)
Example limit_omitted :
  map (carried "_limit")
    (sent (run [Invoke (CallGetAlarms FilterOmitted None);
                Invoke (CallGetEvents (FilterSite "office") None);
                Invoke (CallGetRogueAP (FilterObject no_options) None)]
             (boot node controller)))
  = [Some (VNumber Num.hundred); Some (VNumber Num.hundred);
     Some (VNumber Num.hundred)].
Proof. reflexivity. Qed.

Example limit_kept :
  map (carried "_limit")
    (sent (run [Invoke (CallGetAlarms
                          (FilterObject
                             (mkFilterOptions None (Some (Num.of_Z 25))
                                VUndefined None)) None)]
             (boot node controller)))
  = [Some (VNumber (Num.of_Z 25))].
Proof. reflexivity. Qed.

(* ===================================================================== *)
(** * Mac address filters *)
(* ===================================================================== *)

Lemma finish_rejected_at_once :
  forall e id w, is_settled id w = false ->
    rejected_at_once e id w (finish id (Rejected e) w).
Proof.
  intros e id w H. split; [|split].
  - now apply outcome_of_finish.
  - apply finish_sent.
  - apply finish_inflight.
Qed.

Lemma check_macs_malformed :
  forall l, Exists fails_validation l ->
    exists e, check_macs l = Some e
              /\ (e = invalid_mac \/ e = ETypeError)
              /\ (Forall is_string l -> e = invalid_mac).
Proof.
  induction l as [|x l IH]; intros H.
  - inversion H.
  - destruct x; simpl;
      try (exists ETypeError; split; [reflexivity|]; split; [now right|];
           intros Hs; inversion Hs as [|? ? Hx]; now destruct Hx).
    destruct (mac_match s) eqn:Hm.
    + inversion H as [? ? Hx|? ? Hl]; subst.
      * simpl in Hx. congruence.
      * destruct (IH Hl) as [e [He [Hor Hty]]].
        exists e. split; [exact He|]. split; [exact Hor|].
        intros Hs. inversion Hs; subst. now apply Hty.
    + exists invalid_mac. split; [reflexivity|]. split; [now left|].
      reflexivity.
Qed.

Lemma validate_macs_malformed :
  forall macs, malformed macs ->
    exists e, validate_macs macs = inl e
              /\ (e = invalid_mac \/ e = ETypeError)
              /\ (well_typed macs -> e = invalid_mac).
Proof.
  intros macs [s Hs | l Hl].
  - exists invalid_mac. unfold validate_macs. simpl. rewrite Hs.
    split; [reflexivity|]. split; [now left | reflexivity].
  - destruct (check_macs_malformed l Hl) as [e [He [Hor Hty]]].
    exists e. unfold validate_macs. rewrite He.
    split; [reflexivity|]. split; [exact Hor | exact Hty].
Qed.

Lemma validate_macs_other :
  forall macs, neither_string_nor_array macs ->
    validate_macs macs = inl invalid_filter.
Proof. intros [] H; simpl in H; try contradiction; reflexivity. Qed.

(** C9.  A call of [getClients] or [getDevices] whose filter has an entry
    that fails validation is rejected in the turn of the call, before any
    request is handed to axios: with [Invalid mac address specified] when
    the filter is a string or an array of strings (such as
    [ZZ:ZZ:ZZ:ZZ:ZZ:ZZ]), and with that error or the TypeError of the
    failed call of [match] when the array holds values that are not
    strings.  A filter that is neither a string nor an array is rejected
    in the same way, with [Filter must be a single mac address or an
    array of multiple mac addresses]. *)
Theorem C9_malformed_filter_is_rejected_before_any_request :
  forall (macs : JsVal) (site : option string) (id : nat) (w : World),
    is_settled id w = false ->
    (malformed macs ->
       exists e,
         (e = invalid_mac \/ e = ETypeError)
         /\ (well_typed macs -> e = invalid_mac)
         /\ rejected_at_once e id w (getClients id macs site w)
         /\ rejected_at_once e id w (getDevices id macs site w))
    /\ (neither_string_nor_array macs ->
          rejected_at_once invalid_filter id w (getClients id macs site w)
          /\ rejected_at_once invalid_filter id w
               (getDevices id macs site w)).
Proof.
  intros macs site id w Hnew. unfold getClients, getDevices, mac_query. split.
  - intros H. destruct (validate_macs_malformed macs H) as [e [He [Hor Hty]]].
    exists e. rewrite He. split; [exact Hor|]. split; [exact Hty|].
    split; now apply finish_rejected_at_once.
  - intros H. rewrite (validate_macs_other macs H).
    split; now apply finish_rejected_at_once.
Qed.

(** The filter [['ZZ:ZZ:ZZ:ZZ:ZZ:ZZ']], and the filter [42]. *)
Lemma C9_malformed_filter_witness :
  let w := boot node controller in
  let bad := VArray [VString "aa:bb:cc:dd:ee:ff"; VString "ZZ:ZZ:ZZ:ZZ:ZZ:ZZ"] in
  let number := VNumber (Num.of_Z 42) in
  (exists e,
      (e = invalid_mac \/ e = ETypeError)
      /\ (well_typed bad -> e = invalid_mac)
      /\ rejected_at_once e 0 w (getClients 0 bad None w)
      /\ rejected_at_once e 0 w (getDevices 0 bad None w))
  /\ rejected_at_once invalid_filter 0 w (getClients 0 number None w)
  /\ rejected_at_once invalid_filter 0 w (getDevices 0 number None w).
Proof.
  split.
  - apply (proj1 (C9_malformed_filter_is_rejected_before_any_request
                    (VArray [VString "aa:bb:cc:dd:ee:ff";
                             VString "ZZ:ZZ:ZZ:ZZ:ZZ:ZZ"])
                    None 0 (boot node controller) eq_refl)).
    constructor. apply Exists_cons_tl. apply Exists_cons_hd. reflexivity.
  - apply (proj2 (C9_malformed_filter_is_rejected_before_any_request
                    (VNumber (Num.of_Z 42)) None 0 (boot node controller) eq_refl)).
    exact I.
Defined.

(** A malformed address and a filter of the wrong type, through the event
    loop; and a filter that passes, which is sent. *)
Example malformed_filter_run :
  let w' :=
    run [Invoke (CallGetClients (VString "ZZ:ZZ:ZZ:ZZ:ZZ:ZZ") None);
         Invoke (CallGetDevices (VBool true) (Some "office"))]
      (boot node controller) in
  settled w' = [(0, Rejected invalid_mac); (1, Rejected invalid_filter)]
  /\ sent w' = [] /\ inflight w' = [].
Proof. repeat split. Qed.

Example well_formed_filter_run :
  let w' :=
    run [Invoke (CallGetClients (VString "aa:bb:cc:dd:ee:ff") None)]
      (boot node controller) in
  settled w' = [] /\ length (sent w') = 1 /\ length (inflight w') = 1.
Proof. repeat split. Qed.

(* ===================================================================== *)
(** * What the query methods resolve with *)
(* ===================================================================== *)

(** A successful answer to the request a method has just sent settles the
    call with what the method makes of the reply. *)
Lemma answer_success :
  forall options body id pr w r,
    is_settled id w = false ->
    outcome_of id
      (answer (length (inflight w)) (Success r)
         (_apiRequest options body (KCall id pr) w))
    = Some (project pr (Fulfilled (mkReply (r_data r) (r_headers r)))).
Proof.
  intros options body id pr w r Hnew.
  unfold answer, _apiRequest. simpl inflight. rewrite nth_error_snoc.
  unfold on_success. simpl. now apply outcome_of_finish.
Qed.

(** C10.  Answered successfully, [getSites] resolves with the reply
    [{ data, headers }] itself, the body and the headers of the response.
    Every other query method resolves with the property [data] of the
    body: [getAlarms], [getClients], [getDevices] (for a filter that
    passes validation), [getEvents], [getHealth], [getRogueAP],
    [getRoutes] and [getSystemInfo]. *)
Theorem C10_getSites_resolves_with_the_reply :
  forall (id : nat) (w : World) (r : Response) (d : JsVal),
    is_settled id w = false ->
    get_prop (r_data r) "data" = Some d ->
    let answered (w1 : World) :=
      outcome_of id (answer (length (inflight w)) (Success r) w1) in
    answered (getSites id w)
    = Some (Fulfilled (RReply (mkReply (r_data r) (r_headers r))))
    /\ (forall options site,
          answered (getAlarms id options site w) = Some (Fulfilled (RValue d)))
    /\ (forall macs site l, validate_macs macs = inr l ->
          answered (getClients id macs site w) = Some (Fulfilled (RValue d)))
    /\ (forall macs site l, validate_macs macs = inr l ->
          answered (getDevices id macs site w) = Some (Fulfilled (RValue d)))
    /\ (forall options site,
          answered (getEvents id options site w) = Some (Fulfilled (RValue d)))
    /\ (forall site,
          answered (getHealth id site w) = Some (Fulfilled (RValue d)))
    /\ (forall options site,
          answered (getRogueAP id options site w)
          = Some (Fulfilled (RValue d)))
    /\ (forall site,
          answered (getRoutes id site w) = Some (Fulfilled (RValue d)))
    /\ (forall site,
          answered (getSystemInfo id site w) = Some (Fulfilled (RValue d))).
Proof.
  intros id w r d Hnew Hd answered. subst answered. cbv beta.
  assert (Hinner : project PInnerData
                     (Fulfilled (mkReply (r_data r) (r_headers r)))
                   = Fulfilled (RValue d)).
  { simpl. now rewrite Hd. }
  unfold getSites, getAlarms, getEvents, getRogueAP, getClients, getDevices,
    mac_query, getHealth, getRoutes, getSystemInfo, site_query.
  split; [now rewrite answer_success|].
  split; [intros options site; destruct (filter_args options site);
          now rewrite answer_success, Hinner|].
  split; [intros macs site l Hl; rewrite Hl;
          now rewrite answer_success, Hinner|].
  split; [intros macs site l Hl; rewrite Hl;
          now rewrite answer_success, Hinner|].
  split; [intros options site; destruct (filter_args options site);
          now rewrite answer_success, Hinner|].
  split; [intros site; now rewrite answer_success, Hinner|].
  split; [intros options site; destruct (filter_args options site);
          now rewrite answer_success, Hinner|].
  split; intros site; now rewrite answer_success, Hinner.
Qed.

(** The answer [{ data: [ { name: 'default' } ] }]. *)
Lemma C10_getSites_witness :
  let w := boot node controller in
  let d := VArray [VObject [("name", VString "default")]] in
  let answered (w1 : World) := outcome_of 0 (answer 0 (Success listing) w1) in
  answered (getSites 0 w)
  = Some (Fulfilled (RReply (mkReply (r_data listing) (r_headers listing))))
  /\ (forall options site,
        answered (getAlarms 0 options site w) = Some (Fulfilled (RValue d)))
  /\ (forall macs site l, validate_macs macs = inr l ->
        answered (getClients 0 macs site w) = Some (Fulfilled (RValue d)))
  /\ (forall macs site l, validate_macs macs = inr l ->
        answered (getDevices 0 macs site w) = Some (Fulfilled (RValue d)))
  /\ (forall options site,
        answered (getEvents 0 options site w) = Some (Fulfilled (RValue d)))
  /\ (forall site,
        answered (getHealth 0 site w) = Some (Fulfilled (RValue d)))
  /\ (forall options site,
        answered (getRogueAP 0 options site w) = Some (Fulfilled (RValue d)))
  /\ (forall site,
        answered (getRoutes 0 site w) = Some (Fulfilled (RValue d)))
  /\ (forall site,
        answered (getSystemInfo 0 site w) = Some (Fulfilled (RValue d))).
Proof.
  exact (C10_getSites_resolves_with_the_reply 0 (boot node controller) listing
           (VArray [VObject [("name", VString "default")]]) eq_refl eq_refl).
Defined.

(** The same answer given to [getSites] and to [getHealth]. *)
Example getSites_and_getHealth :
  settled
    (run [Invoke CallGetSites; Invoke (CallGetHealth None);
          Answered 0 (Success listing); Answered 0 (Success listing)]
       (boot node controller))
  = [(0, Fulfilled (RReply (mkReply (r_data listing) (r_headers listing))));
     (1, Fulfilled (RValue (VArray [VObject [("name", VString "default")]])))].
Proof. reflexivity. Qed.

(* ===================================================================== *)
(** * The frames of the push channel *)
(* ===================================================================== *)

Example events_frame_parsed :
  JSON.parse events_frame
  = Some (VObject [("meta", VObject [("message", VString "events")]);
                   ("data", VArray [connected_event])]).
Proof. reflexivity. Qed.

Example sync_frame_parsed :
  JSON.parse sync_frame
  = Some (VObject [("meta", VObject [("message", VString "device.sync")]);
                   ("data", VObject [("mac", VString "AA:BB:CC:DD:EE:FF")])]).
Proof. reflexivity. Qed.

Example listening_socket :
  sockets listening
  = [mkSocket 0 "https://unifi.example:8443/wss/s/default/events"
       "unifises=k8U3Zq;" Open]
  /\ settled listening = [(0, Fulfilled RUnit)].
Proof. split; reflexivity. Qed.

Lemma readable_get_prop :
  forall v k, readable v -> exists x, get_prop v k = Some x.
Proof.
  intros v k [Hn Hu]. destruct v; simpl; try (eexists; reflexivity);
    contradiction.
Qed.

Lemma strict_eq_string_spec :
  forall v lit, strict_eq_string v lit = true <-> v = VString lit.
Proof.
  intros v lit. split.
  - destruct v; simpl; try discriminate. intros H.
    apply String.eqb_eq in H. now subst.
  - intros ->. simpl. apply String.eqb_refl.
Qed.

Lemma emit_plain :
  forall name payload w, plain name ->
    emit name payload w
    = inr (emitted_as name payload (error_listeners w) w).
Proof.
  intros name payload w [_ Hne]. unfold emit.
  destruct (strict_eq_string name "error") eqn:E; [|reflexivity].
  apply strict_eq_string_spec in E. contradiction.
Qed.

Lemma emit_one_plain :
  forall event w, plain_event event ->
    emit_one event w
    = inr (emitted_as (key_of event) event (error_listeners w) w).
Proof.
  intros event w [Hr Hp]. unfold emit_one, key_of in *.
  destruct (readable_get_prop event "key" Hr) as [k Hk]. rewrite Hk in *.
  destruct Hp as [Hpr Hne]. rewrite Hpr. now apply emit_plain.
Qed.


(** A frame [JSON.parse] rejects is dropped: the handler returns and the
    world is as it was. *)
Lemma frame_that_is_not_json_is_dropped :
  forall msg w, JSON.parse msg = None -> on_message msg w = w.
Proof. intros msg w H. unfold on_message. now rewrite H. Qed.

(** A frame that parses to a value without [meta] is not dropped: line 456
    reads [message] off [undefined] and the TypeError leaves the
    handler. *)
Lemma frame_without_meta_throws :
  forall msg m w,
    JSON.parse msg = Some m ->
    get_prop m "meta" = Some VUndefined \/ get_prop m "meta" = None ->
    on_message msg w = throw ETypeError w.
Proof.
  intros msg m w Hp [H|H]; unfold on_message, dispatch; rewrite Hp, H;
    reflexivity.
Qed.

(** C3, on the frames [not-json] and [{}].  The first, which is not JSON,
    leaves the world as it was: nothing emitted, the socket open.  The
    second is JSON without [meta]: nothing is emitted and the socket stays
    open, but a TypeError escapes the handler of ['message'] instead of
    the frame being dropped. *)
Theorem C3_frame_without_meta_escapes_the_handler :
  run [SocketMessage 0 "not-json"] listening = listening
  /\ JSON.parse "{}" = Some (VObject [])
  /\ emitted (run [SocketMessage 0 "{}"] listening) = []
  /\ sockets (run [SocketMessage 0 "{}"] listening) = sockets listening
  /\ uncaught listening = []
  /\ uncaught (run [SocketMessage 0 "{}"] listening) = [ETypeError].
Proof. repeat split. Qed.

(** C4, on the two frames of the claim and on a batch whose first element
    has the key [error].  The two frames are emitted as the claim says.
    On the batch, received while nothing is subscribed to ['error'], the
    emitter throws at the first element: no event is emitted, neither for
    the first element nor for the one after it, and the exception leaves
    the handler of ['message']. *)
Theorem C4_event_named_error_stops_the_batch :
  emitted (run [SocketMessage 0 events_frame] listening)
  = [(VString "EVT_WU_Connected", connected_event)]
  /\ emitted (run [SocketMessage 0 sync_frame] listening)
     = [(VString "device.sync",
         VObject [("mac", VString "AA:BB:CC:DD:EE:FF")])]
  /\ JSON.parse error_batch
     = Some (VObject [("meta", VObject [("message", VString "events")]);
                      ("data", VArray [VObject [("key", VString "error")];
                                       connected_event])])
  /\ error_listeners listening = []
  /\ emitted (run [SocketMessage 0 error_batch] listening) = []
  /\ uncaught (run [SocketMessage 0 error_batch] listening)
     = [EUnhandledError (VObject [("key", VString "error")])]
  /\ sockets (run [SocketMessage 0 error_batch] listening)
     = sockets listening.
Proof. repeat split. Qed.



(** The same, computed through the event loop. *)
Example frames_emitted :
  emitted
    (run [SocketMessage 0 events_frame; SocketMessage 0 sync_frame] listening)
  = [(VString "EVT_WU_Connected", connected_event);
     (VString "device.sync", VObject [("mac", VString "AA:BB:CC:DD:EE:FF")])].
Proof. reflexivity. Qed.

(** A listener of ['error'] takes the event named [error]: the batch is
    walked to its end, and a listener added by [once] is gone after it. *)
Example error_batch_with_a_listener :
  let w := run [ErrorListeners [true; false]; SocketMessage 0 error_batch]
             listening in
  emitted w
  = [(VString "error", VObject [("key", VString "error")]);
     (VString "EVT_WU_Connected", connected_event)]
  /\ uncaught w = []
  /\ error_listeners w = [false].
Proof. repeat split. Qed.

(* ===================================================================== *)
(** * Authentication attempts in flight *)
(* ===================================================================== *)

Lemma exclusive_same :
  forall w w', self w' = self w -> inflight w' = inflight w ->
    exclusive w -> exclusive w'.
Proof.
  unfold exclusive, logins_in_flight. intros w w' Hs Hi. now rewrite Hs, Hi.
Qed.

Lemma exclusive_finish :
  forall id o w, exclusive w -> exclusive (finish id o w).
Proof.
  intros id o w. apply exclusive_same; [apply finish_self | apply finish_inflight].
Qed.

Lemma exclusive_open_socket :
  forall id w, exclusive w -> exclusive (open_socket id w).
Proof.
  intros id w. apply exclusive_same; unfold open_socket;
    (destruct (baseURL (self w)); [destruct (websocket w _ _)|]);
    reflexivity.
Qed.

Lemma exclusive_send :
  forall options body k w,
    through_login k = false -> exclusive w ->
    exclusive (_apiRequest options body k w).
Proof.
  intros options body k w Hk (Hc & H1 & H0).
  unfold exclusive, logins_in_flight, _apiRequest in *. simpl inflight.
  simpl self. rewrite filter_snoc.
  assert (Hl : is_login (mkInFlight (prepare (self w) options body) body k)
               = false) by now apply is_login_through.
  rewrite Hl, Nat.add_0_r. split; [|split]; try assumption.
  apply Forall_app. split; [assumption|]. constructor; [|constructor].
  simpl. destruct k; simpl in *; try assumption. discriminate.
Qed.

Lemma exclusive_authenticate :
  forall a w,
    cont_ok (KLogin a) -> _authenticationInProgress (self w) = false ->
    exclusive w -> exclusive (_authenticate a w).
Proof.
  intros a w Ha Hflag (Hc & H1 & H0).
  unfold exclusive, logins_in_flight, _authenticate, _apiRequest in *.
  simpl inflight. simpl self. rewrite filter_snoc.
  rewrite (H0 Hflag). split; [|split].
  - apply Forall_app. split; [assumption|]. constructor; [|constructor].
    exact Ha.
  - simpl. lia.
  - simpl. discriminate.
Qed.

Lemma exclusive_lower :
  forall w, logins_in_flight w = 0 -> exclusive w ->
    exclusive (set_authenticationInProgress false w).
Proof.
  intros w H (Hc & H1 & H0). unfold exclusive, logins_in_flight in *.
  simpl inflight. split; [assumption|]. split; [assumption|].
  intros _. exact H.
Qed.

Lemma exclusive_store :
  forall h w, exclusive w ->
    exclusive (with_self (store_cookies h (self w)) w).
Proof.
  intros h w (Hc & H1 & H0). unfold exclusive, logins_in_flight in *.
  simpl inflight. simpl self. rewrite store_cookies_flag.
  repeat split; assumption.
Qed.

(** Taking a request out of the set in flight. *)
Lemma remove_nth_logins :
  forall l i f, nth_error l i = Some f ->
    length (filter is_login l)
    = length (filter is_login (remove_nth i l))
      + (if is_login f then 1 else 0).
Proof.
  induction l as [|x l IH]; intros [|i] f H; simpl in *; try discriminate.
  - injection H as ->. destruct (is_login f); simpl; lia.
  - specialize (IH i f H). destruct (is_login x); simpl; lia.
Qed.

Lemma remove_nth_Forall :
  forall (A : Type) (P : A -> Prop) (l : list A) (i : nat),
    Forall P l -> Forall P (remove_nth i l).
Proof.
  intros A P l. induction l as [|x l IH]; intros [|i] H; simpl;
    try assumption; inversion H; subst; try assumption.
  constructor; [assumption | now apply IH].
Qed.

Lemma exclusive_remove :
  forall w i f,
    nth_error (inflight w) i = Some f -> exclusive w ->
    let w1 := with_inflight (remove_nth i (inflight w)) w in
    exclusive w1
    /\ cont_ok (if_cont f)
    /\ (is_login f = true -> logins_in_flight w1 = 0)
    /\ (is_login f = true -> _authenticationInProgress (self w) = true).
Proof.
  intros w i f Hf (Hc & H1 & H0) w1. subst w1.
  unfold exclusive, logins_in_flight in *. simpl inflight. simpl self.
  pose proof (remove_nth_logins _ _ _ Hf) as Hn.
  split; [|split; [|split]].
  - split; [now apply remove_nth_Forall|]. split; [lia|].
    intros Hflag. specialize (H0 Hflag). lia.
  - rewrite Forall_forall in Hc. apply Hc. eapply nth_error_In. exact Hf.
  - intros Hl. rewrite Hl in Hn. lia.
  - intros Hl. rewrite Hl in Hn.
    destruct (_authenticationInProgress (self w)); [reflexivity|].
    specialize (H0 eq_refl). lia.
Qed.

Lemma settle_plain :
  forall k o w, through_login k = false ->
    exists pr, settle k o w = finish (root k) (project pr o) w.
Proof.
  induction k as [id pr | k IH | a _ | options body k _ | id]
    using Cont_mutind with (P0 := fun _ => True);
    try exact I; intros o w Hk; simpl in *.
  - now exists pr.
  - now apply IH.
  - discriminate.
Qed.

Lemma exclusive_settle_plain :
  forall k o w, through_login k = false -> exclusive w ->
    exclusive (settle k o w).
Proof.
  intros k o w Hk Hw. destruct (settle_plain k o w Hk) as [pr ->].
  now apply exclusive_finish.
Qed.

(** Settling a promise keeps the invariant; when the promise is that of a
    login, the login has just left the set in flight. *)
Lemma exclusive_settle :
  forall k o w,
    cont_ok k -> exclusive w ->
    (through_login k = true -> logins_in_flight w = 0) ->
    exclusive (settle k o w).
Proof.
  intros k o w Hk Hw Hlogin.
  destruct k as [id pr | k | [options body k | id]].
  - now apply exclusive_settle_plain.
  - now apply exclusive_settle_plain.
  - simpl in Hk. specialize (Hlogin eq_refl). simpl settle.
    pose proof (exclusive_lower w Hlogin Hw) as Hlow.
    destruct o as [r | e]; simpl authenticated.
    + apply exclusive_send; [exact Hk|].
      exact (exclusive_store (headers r) _ Hlow).
    + now apply exclusive_settle_plain.
  - specialize (Hlogin eq_refl). simpl settle.
    pose proof (exclusive_lower w Hlogin Hw) as Hlow.
    destruct o as [r | e]; simpl authenticated.
    + apply exclusive_open_socket.
      exact (exclusive_store (headers r) _ Hlow).
    + now apply exclusive_finish.
Qed.

Lemma cont_ok_login :
  forall f, cont_ok (if_cont f) -> through_login (if_cont f) = is_login f.
Proof.
  intros f H. unfold is_login. destruct (if_cont f); simpl in *;
    try assumption. reflexivity.
Qed.

Lemma exclusive_answer :
  forall i a w, exclusive w -> exclusive (answer i a w).
Proof.
  intros i a w Hw. unfold answer.
  destruct (nth_error (inflight w) i) as [f|] eqn:Hf; [|exact Hw].
  destruct (exclusive_remove w i f Hf Hw) as (Hw1 & Hok & Hzero & Hup).
  set (w1 := with_inflight (remove_nth i (inflight w)) w) in *.
  assert (Hsettle : forall o, exclusive (settle (if_cont f) o w1)).
  { intros o. apply exclusive_settle; try assumption.
    rewrite (cont_ok_login f Hok). exact Hzero. }
  destruct a as [r | e]; [apply Hsettle|].
  unfold on_failure. destruct (is_self_signed e); [apply Hsettle|].
  change (self w1) with (self w).
  destruct (_authenticationInProgress (self w)) eqn:Hflag; simpl negb;
    cbv iota; [apply Hsettle|].
  destruct (response e) as [r|].
  - destruct (status r =? 401)%Z; [|apply Hsettle].
    apply exclusive_authenticate; try assumption.
    simpl. rewrite (cont_ok_login f Hok).
    destruct (is_login f); [|reflexivity].
    specialize (Hup eq_refl). congruence.
  - revert Hw1. now apply exclusive_same.
Qed.

(** The handler of ['message'] touches nothing but the events emitted,
    the exceptions thrown and the listeners added by [once]. *)
Lemma emit_same :
  forall name payload w,
    (exists e, emit name payload w = inl e)
    \/ (exists w', emit name payload w = inr w' /\ same_but_events w w').
Proof.
  intros name payload w. unfold emit.
  destruct (strict_eq_string name "error");
    [destruct (error_listeners w)|];
    try (left; eexists; reflexivity);
    right; eexists; (split; [reflexivity | now repeat split]).
Qed.

Lemma emit_one_same :
  forall event w,
    (exists e, emit_one event w = inl e)
    \/ (exists w', emit_one event w = inr w' /\ same_but_events w w').
Proof.
  intros event w. unfold emit_one.
  destruct (get_prop event "key") as [k|]; [|left; now eexists].
  destruct (printable k); [apply emit_same | left; now eexists].
Qed.

Lemma emit_each_same :
  forall events w, same_but_events w (emit_each events w).
Proof.
  induction events as [|e l IH]; intros w; cbn [emit_each];
    [now repeat split|].
  destruct (emit_one_same e w) as [[x ->] | [w' [-> Hw']]];
    [now repeat split|].
  destruct (IH w') as (?&?&?&?&?&?&?).
  destruct Hw' as (?&?&?&?&?&?&?). repeat split; congruence.
Qed.

Lemma on_message_same :
  forall msg w, same_but_events w (on_message msg w).
Proof.
  intros msg w. unfold on_message, dispatch.
  destruct (JSON.parse msg) as [m|]; [|now repeat split].
  destruct (get_prop m "meta") as [meta|]; [|now repeat split].
  destruct (get_prop meta "message") as [name|]; [|now repeat split].
  destruct (get_prop m "data") as [d|]; [|now repeat split].
  destruct (strict_eq_string name "events").
  - destruct d; try now repeat split. apply emit_each_same.
  - destruct (printable name); [|now repeat split].
    destruct (emit_same name d w) as [[x ->] | [w' [-> Hw']]];
      [now repeat split | exact Hw'].
Qed.

Lemma exclusive_invoke :
  forall c w, respects_flag (Invoke c) w -> exclusive w ->
    exclusive (invoke c w).
Proof.
  intros c w Hr Hw.
  assert (Hw1 : exclusive (snd (new_call w)))
    by (revert Hw; now apply exclusive_same).
  destruct (invoke_cases c w)
    as [[e ->] | [(options & body & pr & ->) | [-> ->]]].
  - now apply exclusive_finish.
  - now apply exclusive_send.
  - unfold startWebsocketListener. rewrite new_call_snd in *. simpl self.
    destruct (_session (self w)) as [s|] eqn:Hs.
    + destruct (Str.truthy s) eqn:Ht; [now apply exclusive_open_socket|].
      apply exclusive_authenticate; [exact I | | exact Hw1].
      destruct Hr as [[s' [Hs' Ht']] | Hflag]; [congruence | exact Hflag].
    + apply exclusive_authenticate; [exact I | | exact Hw1].
      destruct Hr as [[s' [Hs' Ht']] | Hflag]; [congruence | exact Hflag].
Qed.

(** Every turn of the loop that respects the flag keeps the invariant. *)
Lemma exclusive_step :
  forall e w, respects_flag e w -> exclusive w -> exclusive (step e w).
Proof.
  intros [c | i a | i | i msg | i | i | l] w Hr Hw; simpl;
    [| | | | | | exact Hw].
  - now apply exclusive_invoke.
  - now apply exclusive_answer.
  - unfold on_open. destruct (nth_error (sockets w) i) as [k|]; [|exact Hw].
    destruct (sock_state k); try exact Hw.
    apply exclusive_finish. revert Hw. now apply exclusive_same.
  - unfold on_socket_message.
    destruct (nth_error (sockets w) i) as [k|]; [|exact Hw].
    destruct (sock_state k); try exact Hw.
    destruct (on_message_same msg w) as (Hs & Hi & _). revert Hw.
    now apply exclusive_same.
  - revert Hw. now apply exclusive_same.
  - exact Hw.
Qed.

Lemma reachable_exclusive : forall w, reachable w -> exclusive w.
Proof.
  induction 1 as [ws options | e w Hw IH Hr].
  - repeat split; simpl; try constructor; auto.
  - now apply exclusive_step.
Qed.

(** While the flag is up, no failure of any request makes the client send
    anything: line 84 does not start a second authentication. *)
Lemma failure_while_authenticating :
  forall w i e,
    _authenticationInProgress (self w) = true ->
    sent (answer i (Failure e) w) = sent w.
Proof.
  intros w i e Hflag. unfold answer.
  destruct (nth_error (inflight w) i) as [f|]; [|reflexivity].
  unfold on_failure. simpl self. rewrite Hflag. simpl negb.
  destruct (is_self_signed e); now rewrite settle_rejected_sent.
Qed.

(** C2, amended.  In every world reached through events that respect the
    flag (a call of [startWebsocketListener] that has no session to use is
    not made while an authentication is in progress; the 401 path needs no
    such care), at most one login is in flight, and none while the flag is
    down.  The 401 path keeps to the flag by itself: a failure met while
    the flag is up sends nothing, and a 401 met while it is down raises
    the flag and sends the login in the same turn, so that no other
    handler runs between the test and the assignment. *)
Theorem C2_one_login_at_a_time_when_the_flag_is_respected :
  forall w : World,
    reachable w ->
    logins_in_flight w <= 1
    /\ (_authenticationInProgress (self w) = false -> logins_in_flight w = 0)
    /\ forall (i : nat) (e : AxiosError),
         (_authenticationInProgress (self w) = true ->
            sent (answer i (Failure e) w) = sent w)
         /\ (_authenticationInProgress (self w) = false ->
             rejects_credentials e ->
             forall f, nth_error (inflight w) i = Some f ->
               _authenticationInProgress (self (answer i (Failure e) w)) = true
               /\ logins_in_flight (answer i (Failure e) w) = 1).
Proof.
  intros w Hw. destruct (reachable_exclusive w Hw) as (Hc & H1 & H0).
  split; [exact H1|]. split; [exact H0|]. intros i e. split.
  - now apply failure_while_authenticating.
  - intros Hflag He f Hf.
    pose proof (reachable_step (Answered i (Failure e)) w Hw I) as Hstep.
    destruct (reachable_exclusive _ Hstep) as (_ & H1' & H0').
    simpl step in *. rewrite (answer_unauthorized w i f e Hf He Hflag) in *.
    split; [reflexivity|].
    unfold logins_in_flight, _authenticate, _apiRequest in *.
    simpl inflight in *. rewrite filter_snoc in *. simpl in *. lia.
Qed.

(** [getHealth] was answered 401 and the login is in flight. *)
Lemma C2_one_login_witness :
  let w :=
    step (Answered 0 (Failure unauthorized))
      (step (Invoke (CallGetHealth None)) (boot node controller)) in
  logins_in_flight w <= 1
  /\ (_authenticationInProgress (self w) = false -> logins_in_flight w = 0)
  /\ forall (i : nat) (e : AxiosError),
       (_authenticationInProgress (self w) = true ->
          sent (answer i (Failure e) w) = sent w)
       /\ (_authenticationInProgress (self w) = false ->
           rejects_credentials e ->
           forall f, nth_error (inflight w) i = Some f ->
             _authenticationInProgress (self (answer i (Failure e) w)) = true
             /\ logins_in_flight (answer i (Failure e) w) = 1).
Proof.
  exact (C2_one_login_at_a_time_when_the_flag_is_respected _
           (reachable_step (Answered 0 (Failure unauthorized)) _
              (reachable_step (Invoke (CallGetHealth None)) _
                 (reachable_boot node
                    (mkConfig (Some "https://unifi.example:8443")
                       (Some "admin") (Some "secret") None (Some true)))
                 I)
              I)).
Defined.

(** C2 as stated fails: while the login started by a 401 is in flight and
    the flag is up, [startWebsocketListener] finds no session and starts a
    second login. *)
Lemma C2_second_login_while_the_flag_is_up :
  let w :=
    run [Invoke (CallGetHealth None); Answered 0 (Failure unauthorized)]
      (boot node controller) in
  let w' := step (Invoke CallStartWebsocketListener) w in
  _authenticationInProgress (self w) = true
  /\ logins_in_flight w = 1
  /\ logins_in_flight w' = 2
  /\ map if_cont (inflight w')
     = [KLogin
          (AResend
             (prepare controller (get "/s/default/stat/health") empty_body)
             empty_body (KCall 0 PInnerData));
        KLogin (AListen 1)].
Proof. repeat split. Qed.

(** The flag is no lock either: when the first of two overlapping logins
    is answered the flag goes down while the second is still in flight. *)
Example flag_down_with_a_login_in_flight :
  let w :=
    run [Invoke CallStartWebsocketListener; Invoke CallStartWebsocketListener;
         Answered 0 (Success logged_in)] (boot node controller) in
  _authenticationInProgress (self w) = false /\ logins_in_flight w = 1.
Proof. split; reflexivity. Qed.

(* ===================================================================== *)
(** * A call that nothing settles *)
(* ===================================================================== *)

Lemma is_settled_finish_other :
  forall id id' o w, id' <> id ->
    is_settled id (finish id' o w) = is_settled id w.
Proof.
  intros id id' o w Hne. unfold finish.
  destruct (is_settled id' w); [reflexivity|].
  unfold is_settled. simpl. rewrite existsb_app. simpl.
  destruct (Nat.eqb_spec id' id); [contradiction|].
  now rewrite !orb_false_r.
Qed.

Lemma abandoned_finish :
  forall id id' o w, id' <> id -> abandoned id w ->
    abandoned id (finish id' o w).
Proof.
  intros id id' o w Hne (Hc & Hs & Hi & Hk). unfold abandoned.
  rewrite is_settled_finish_other by assumption.
  rewrite finish_inflight, finish_sockets.
  repeat split; try assumption.
  unfold finish. now destruct (is_settled id' w).
Qed.

(** [abandoned] does not look at the client, the trace, the rejections
    nobody handles, the events or the exceptions. *)
Lemma abandoned_same :
  forall id w w',
    calls w' = calls w -> settled w' = settled w ->
    inflight w' = inflight w -> sockets w' = sockets w ->
    abandoned id w -> abandoned id w'.
Proof.
  unfold abandoned, is_settled. intros id w w' -> -> -> ->. trivial.
Qed.

Lemma abandoned_send :
  forall id options body k w,
    root k <> id -> abandoned id w ->
    abandoned id (_apiRequest options body k w).
Proof.
  intros id options body k w Hk (Hc & Hs & Hi & Hso).
  unfold abandoned, _apiRequest. simpl.
  repeat split; try assumption.
  apply Forall_app. split; [assumption|]. now repeat constructor.
Qed.

Lemma abandoned_authenticate :
  forall id a w,
    root (KLogin a) <> id -> abandoned id w ->
    abandoned id (_authenticate a w).
Proof.
  intros id a w Ha Hw. unfold _authenticate.
  apply abandoned_send; [exact Ha|]. revert Hw. now apply abandoned_same.
Qed.

Lemma abandoned_open_socket :
  forall id id' w, id' <> id -> abandoned id w ->
    abandoned id (open_socket id' w).
Proof.
  intros id id' w Hne (Hc & Hs & Hi & Hso). unfold open_socket.
  destruct (baseURL (self w)); [destruct (websocket w _ _)|];
    unfold abandoned; simpl; repeat split; try assumption.
  apply Forall_app. split; [assumption|]. now repeat constructor.
Qed.

(** Settling the promise of another call leaves the call abandoned. *)
Lemma abandoned_settle :
  forall id k o w,
    root k <> id -> abandoned id w -> abandoned id (settle k o w).
Proof.
  intros id k.
  induction k as [id' pr | k IH | a IH | options body k IH | id']
    using Cont_mutind
    with (P0 := fun a => forall err w,
                  root (KLogin a) <> id -> abandoned id w ->
                  abandoned id (authenticated a err w));
    simpl.
  - intros o w Hne Hw. now apply abandoned_finish.
  - exact IH.
  - intros o w Hne Hw.
    assert (Hlow : abandoned id (set_authenticationInProgress false w))
      by (revert Hw; now apply abandoned_same).
    destruct o as [r|e].
    + apply IH; [exact Hne|]. revert Hlow. now apply abandoned_same.
    + now apply IH.
  - intros [e|] w Hne Hw.
    + now apply IH.
    + now apply abandoned_send.
  - intros [e|] w Hne Hw.
    + now apply abandoned_finish.
    + now apply abandoned_open_socket.
Qed.

Lemma abandoned_answer :
  forall id i a w, abandoned id w -> abandoned id (answer i a w).
Proof.
  intros id i a w Hw. unfold answer.
  destruct (nth_error (inflight w) i) as [f|] eqn:Hf; [|exact Hw].
  assert (Hroot : root (if_cont f) <> id).
  { destruct Hw as (_ & _ & Hi & _). rewrite Forall_forall in Hi.
    apply Hi. eapply nth_error_In. exact Hf. }
  assert (Hw1 : abandoned id (with_inflight (remove_nth i (inflight w)) w)).
  { destruct Hw as (Hc & Hs & Hi & Hso). unfold abandoned. simpl.
    repeat split; try assumption. now apply remove_nth_Forall. }
  destruct a as [r|e].
  - now apply abandoned_settle.
  - unfold on_failure. destruct (is_self_signed e);
      [now apply abandoned_settle|].
    destruct (negb _); [|now apply abandoned_settle].
    destruct (response e) as [r|].
    + destruct (status r =? 401)%Z; [|now apply abandoned_settle].
      now apply abandoned_authenticate.
    + revert Hw1. now apply abandoned_same.
Qed.

Lemma abandoned_invoke :
  forall id c w, abandoned id w -> abandoned id (invoke c w).
Proof.
  intros id c w Hw.
  assert (Hne : calls w <> id) by (destruct Hw; lia).
  assert (Hw1 : abandoned id (snd (new_call w))).
  { destruct Hw as (Hc & Hs & Hi & Hso). unfold abandoned. simpl.
    repeat split; try assumption. lia. }
  destruct (invoke_cases c w)
    as [[e ->] | [(options & body & pr & ->) | [-> ->]]].
  - now apply abandoned_finish.
  - now apply abandoned_send.
  - unfold startWebsocketListener.
    destruct (match _session (self (snd (new_call w))) with
              | Some s => Str.truthy s
              | None => false
              end).
    + now apply abandoned_open_socket.
    + now apply abandoned_authenticate.
Qed.

Lemma update_nth_Forall :
  forall (A : Type) (P : A -> Prop) (f : A -> A) (l : list A) (i : nat),
    (forall x, P x -> P (f x)) -> Forall P l -> Forall P (update_nth i f l).
Proof.
  intros A P f l. induction l as [|x l IH]; intros [|i] Hf H; simpl;
    try assumption; inversion H; subst; constructor; auto.
Qed.

Lemma abandoned_step :
  forall id e w, abandoned id w -> abandoned id (step e w).
Proof.
  intros id [c | i a | i | i msg | i | i | l] w Hw; simpl;
    [| | | | | | exact Hw].
  - now apply abandoned_invoke.
  - now apply abandoned_answer.
  - unfold on_open.
    destruct (nth_error (sockets w) i) as [k|] eqn:Hk; [|exact Hw].
    destruct (sock_state k); try exact Hw.
    destruct Hw as (Hc & Hs & Hi & Hso).
    apply abandoned_finish.
    + rewrite Forall_forall in Hso. apply Hso. eapply nth_error_In. exact Hk.
    + unfold abandoned. simpl. repeat split; try assumption.
      now apply update_nth_Forall.
  - unfold on_socket_message.
    destruct (nth_error (sockets w) i) as [k|]; [|exact Hw].
    destruct (sock_state k); try exact Hw.
    destruct (on_message_same msg w) as (_ & Hi & _ & Hc & Hs & _ & Hso).
    revert Hw. now apply abandoned_same.
  - destruct Hw as (Hc & Hs & Hi & Hso). unfold abandoned, on_close. simpl.
    repeat split; try assumption. now apply update_nth_Forall.
  - exact Hw.
Qed.

Lemma abandoned_run :
  forall id es w, abandoned id w -> abandoned id (run es w).
Proof.
  intros id es. induction es as [|e es IH]; intros w Hw; [exact Hw|].
  apply IH. now apply abandoned_step.
Qed.

Lemma abandoned_pending :
  forall id w, abandoned id w -> outcome_of id w = None.
Proof.
  intros id w (_ & Hs & _). unfold outcome_of, is_settled in *.
  induction (settled w) as [|[i x] l IH]; simpl in *; [reflexivity|].
  destruct (Nat.eqb i id); [discriminate | now apply IH].
Qed.

(** A failure that carries no response, met while no authentication is in
    progress, leaves the call pending for good: when the failed request
    was all that led to the promise of the call, no later event settles
    it. *)
Theorem failure_without_response_is_never_settled :
  forall (w : World) (i : nat) (f : InFlight) (e : AxiosError)
         (es : list Event),
    nth_error (inflight w) i = Some f ->
    code e <> Some "DEPTH_ZERO_SELF_SIGNED_CERT" ->
    response e = None ->
    _authenticationInProgress (self w) = false ->
    abandoned (root (if_cont f)) (with_inflight (remove_nth i (inflight w)) w) ->
    let w' := answer i (Failure e) w in
    unhandled w' = unhandled w ++ [ETypeError]
    /\ outcome_of (root (if_cont f)) (run es w') = None.
Proof.
  intros w i f e es Hf Hc Hr Hflag Hab w'. subst w'.
  rewrite (answer_without_response w i f e Hf Hc Hr Hflag).
  split; [reflexivity|].
  apply abandoned_pending, abandoned_run.
  revert Hab. now apply abandoned_same.
Qed.

(** [getHealth] meets a refused connection; whatever comes later, here
    another call and its answer, its promise stays pending. *)
Lemma failure_without_response_witness :
  let w := run [Invoke (CallGetHealth None)] (boot node controller) in
  let w' := answer 0 (Failure connection_refused) w in
  unhandled w' = unhandled w ++ [ETypeError]
  /\ outcome_of 0
       (run [Invoke CallGetSites; Answered 0 (Success listing)] w')
     = None.
Proof.
  refine (failure_without_response_is_never_settled
            (run [Invoke (CallGetHealth None)] (boot node controller)) 0
            (mkInFlight
               (prepare controller (get "/s/default/stat/health") empty_body)
               empty_body (KCall 0 PInnerData))
            connection_refused
            [Invoke CallGetSites; Answered 0 (Success listing)]
            eq_refl _ eq_refl eq_refl _).
  - discriminate.
  - repeat split; simpl; auto.
Defined.

(* ===================================================================== *)
(** * Further properties of the listener and of the login *)
(* ===================================================================== *)

(** A frame that is not JSON changes nothing at all, whatever the socket
    it arrives on: no event, no exception, every socket as it was. *)
Theorem frame_that_is_not_json_changes_nothing :
  forall (w : World) (i : nat) (msg : string),
    JSON.parse msg = None ->
    step (SocketMessage i msg) w = w.
Proof.
  intros w i msg H. simpl. unfold on_socket_message.
  destruct (nth_error (sockets w) i) as [k|]; [|reflexivity].
  destruct (sock_state k); try reflexivity.
  now apply frame_that_is_not_json_is_dropped.
Qed.

Lemma frame_that_is_not_json_witness :
  step (SocketMessage 0 "not-json") listening = listening.
Proof.
  exact (frame_that_is_not_json_changes_nothing listening 0 "not-json"
           eq_refl).
Defined.



(* ===================================================================== *)
(** * The listener: logging in and connecting *)
(* ===================================================================== *)

Lemma store_cookies_no_session :
  forall r c, sets_no_session r ->
    _session (store_cookies (r_headers r) c) = _session c.
Proof.
  intros r c. unfold sets_no_session, store_cookies.
  destruct (set_cookie (r_headers r)) as [cookies|]; [|reflexivity].
  revert c. induction cookies as [|x l IH]; intros c H; simpl;
    [reflexivity|].
  inversion H as [|? ? Hx Hl]; subst. rewrite (IH _ Hl).
  unfold store_cookie. now apply store_attrs_session.
Qed.

Lemma is_settled_none :
  forall id w, is_settled id w = false -> outcome_of id w = None.
Proof.
  intros id w. unfold is_settled, outcome_of.
  induction (settled w) as [|p l IH]; simpl; [reflexivity|].
  destruct (Nat.eqb (fst p) id); [discriminate | exact IH].
Qed.

(** What the listener does when it has no session: the login it sends,
    and the world after the login was answered. *)
Lemma listener_login :
  forall id w,
    has_session (self w) = false ->
    startWebsocketListener id w = _authenticate (AListen id) w.
Proof.
  intros id w H. unfold startWebsocketListener.
  unfold has_session in H. now rewrite H.
Qed.

Lemma authenticate_answered :
  forall a w ans,
    answer (length (inflight w)) ans (_authenticate a w)
    = let w1 := set_authenticationInProgress true w in
      let f :=
        mkInFlight (prepare (self w1) login_options (login_body (self w1)))
          (login_body (self w1)) (KLogin a) in
      let w2 :=
        mkWorld (self w1) (inflight w) (sent w ++ [f]) (calls w) (settled w)
          (unhandled w) (sockets w) (emitted w) (uncaught w) (websocket w)
          (error_listeners w) in
      match ans with
      | Success r => on_success f r w2
      | Failure e => on_failure f e w2
      end.
Proof.
  intros a w ans. unfold answer, _authenticate, _apiRequest, axios.
  cbn [inflight set_authenticationInProgress with_self self].
  rewrite nth_error_snoc. unfold with_inflight.
  cbn [inflight self sent calls settled unhandled sockets emitted uncaught
       websocket error_listeners].
  now rewrite remove_nth_snoc.
Qed.

Lemma listener_invoked :
  forall w,
    has_session (self w) = false ->
    step (Invoke CallStartWebsocketListener) w
    = _authenticate (AListen (calls w)) (snd (new_call w)).
Proof.
  intros w H. unfold step, invoke.
  destruct (new_call w) as [id w0] eqn:E. unfold new_call in E.
  injection E as <- <-. now rewrite listener_login.
Qed.

(** What the constructor of the socket decides. *)
Lemma open_socket_cases :
  forall id w b,
    baseURL (self w) = Some b ->
    match websocket w (socket_url b (self w)) (socket_cookie (self w)) with
    | None =>
        open_socket id w
        = with_sockets (sockets w ++ [socket_of id b (self w)]) w
    | Some e => open_socket id w = unhandled_rejection e w
    end.
Proof.
  intros id w b Hb. unfold open_socket. rewrite Hb.
  now destruct (websocket w _ _).
Qed.

Lemma listener_login_answered :
  forall w r b,
    has_session (self w) = false ->
    _authenticationInProgress (self w) = false ->
    baseURL (self w) = Some b ->
    let w1 := step (Invoke CallStartWebsocketListener) w in
    let c := store_cookies (r_headers r) (self w) in
    let w2 :=
      mkWorld c (inflight w) (sent w1) (S (calls w)) (settled w)
        (unhandled w) (sockets w) (emitted w) (uncaught w) (websocket w)
        (error_listeners w) in
    step (Answered (length (inflight w)) (Success r)) w1
    = match websocket w (socket_url b c) (socket_cookie c) with
      | None => with_sockets (sockets w ++ [socket_of (calls w) b c]) w2
      | Some e => unhandled_rejection e w2
      end.
Proof.
  intros w r b Hs Hflag Hb w1 c w2.
  assert (Hlen : length (inflight w) = length (inflight (snd (new_call w))))
    by reflexivity.
  assert (E2 :
    step (Answered (length (inflight w)) (Success r)) w1
    = open_socket (calls w) w2).
  { subst w1 c w2. rewrite (listener_invoked _ Hs). unfold step.
    rewrite Hlen, authenticate_answered.
    cbv zeta. unfold on_success. cbn [if_cont settle authenticated].
    f_equal. unfold with_self, set_authenticationInProgress, with_self.
    cbn [self inflight sent calls settled unhandled sockets emitted uncaught
         websocket error_listeners
         new_call snd _authenticationInProgress baseURL user password site
         rejectUnauthorized _session _csrfToken headers].
    unfold _authenticate, _apiRequest, axios.
    cbn [self inflight sent calls settled unhandled sockets emitted uncaught
         websocket error_listeners set_authenticationInProgress with_self].
    f_equal. f_equal.
    destruct (self w) as [b0 u p s ru se cs fl]. simpl in Hflag. now subst. }
  assert (Hb2 : baseURL (self w2) = Some b).
  { subst c w2. cbn [self].
    destruct (store_cookies_configuration (r_headers r) (self w)) as [H _].
    now rewrite H. }
  rewrite E2. pose proof (open_socket_cases (calls w) w2 b Hb2) as H.
  change (websocket w2) with (websocket w) in H.
  change (self w2) with c in H. change (sockets w2) with (sockets w) in H.
  now destruct (websocket w (socket_url b c) (socket_cookie c)).
Qed.

(** Without a session the listener logs in first: the login goes out in
    the turn of the call and no socket exists before its answer.  A
    successful answer lowers the flag and stores the cookies; then the
    constructor of the socket is called, with the URL of the client and
    the session as it is then, and no further request is sent.  When the
    constructor returns there is one more socket, and the call resolves
    when that socket opens.  When it throws there is no socket: the
    exception is a rejection nobody handles and the call stays pending. *)
Theorem listener_logs_in_then_connects :
  forall (w : World) (r : Response) (b : string),
    has_session (self w) = false ->
    _authenticationInProgress (self w) = false ->
    baseURL (self w) = Some b ->
    is_settled (calls w) w = false ->
    let w1 := step (Invoke CallStartWebsocketListener) w in
    let w2 := step (Answered (length (inflight w)) (Success r)) w1 in
    let w3 := step (SocketOpened (length (sockets w))) w2 in
    let c := store_cookies (r_headers r) (self w) in
    (exists login,
        sent w1 = sent w ++ [login]
        /\ inflight w1 = inflight w ++ [login]
        /\ if_cont login = KLogin (AListen (calls w))
        /\ o_method (if_options login) = Some "POST"
        /\ o_url (if_options login) = Some "/login"
        /\ if_body login = login_body (self w))
    /\ _authenticationInProgress (self w1) = true
    /\ sockets w1 = sockets w
    /\ sent w2 = sent w1
    /\ inflight w2 = inflight w
    /\ self w2 = c
    /\ outcome_of (calls w) w2 = None
    /\ match websocket w (socket_url b c) (socket_cookie c) with
       | None =>
           sockets w2 = sockets w ++ [socket_of (calls w) b c]
           /\ unhandled w2 = unhandled w
           /\ outcome_of (calls w) w3 = Some (Fulfilled RUnit)
       | Some e =>
           sockets w2 = sockets w
           /\ unhandled w2 = unhandled w ++ [e]
           /\ w3 = w2
       end.
Proof.
  intros w r b Hs Hflag Hb Hset w1 w2 w3 c.
  assert (E1 : w1 = _authenticate (AListen (calls w)) (snd (new_call w)))
    by exact (listener_invoked _ Hs).
  assert (E2 := listener_login_answered w r b Hs Hflag Hb).
  cbv zeta in E2. fold w1 in E2. fold w2 in E2. fold c in E2.
  split.
  { rewrite E1. unfold _authenticate, _apiRequest, axios. eexists.
    cbn [sent inflight if_cont if_options if_body o_method o_url prepare
         set_authenticationInProgress with_self self new_call snd login_options
         literal o_path].
    repeat split. }
  split; [now rewrite E1|]. split; [now rewrite E1|].
  subst w3. unfold step, on_open. rewrite E2.
  destruct (websocket w (socket_url b c) (socket_cookie c)) as [e|];
    cbn [with_sockets unhandled_rejection sent inflight self sockets
         unhandled];
    (split; [reflexivity|]); (split; [reflexivity|]);
    (split; [reflexivity|]);
    (split; [apply is_settled_none; exact Hset|]).
  - split; [reflexivity|]. split; [reflexivity|].
    now rewrite (proj2 (nth_error_None (sockets w) (length (sockets w)))
                   (Nat.le_refl _)).
  - split; [reflexivity|]. split; [reflexivity|].
    rewrite nth_error_snoc. cbn [sock_state socket_of sock_call].
    apply outcome_of_finish. exact Hset.
Qed.

Lemma listener_logs_in_then_connects_witness :
  let w := boot node controller in
  let w1 := step (Invoke CallStartWebsocketListener) w in
  let w2 := step (Answered (length (inflight w)) (Success logged_in)) w1 in
  let w3 := step (SocketOpened (length (sockets w))) w2 in
  let c := store_cookies (r_headers logged_in) (self w) in
  (exists login,
      sent w1 = sent w ++ [login]
      /\ inflight w1 = inflight w ++ [login]
      /\ if_cont login = KLogin (AListen (calls w))
      /\ o_method (if_options login) = Some "POST"
      /\ o_url (if_options login) = Some "/login"
      /\ if_body login = login_body (self w))
  /\ _authenticationInProgress (self w1) = true
  /\ sockets w1 = sockets w
  /\ sent w2 = sent w1
  /\ inflight w2 = inflight w
  /\ self w2 = c
  /\ outcome_of (calls w) w2 = None
  /\ sockets w2
     = sockets w
       ++ [mkSocket 0 "https://unifi.example:8443/wss/s/default/events"
             "unifises=k8U3Zq;" Connecting]
  /\ unhandled w2 = unhandled w
  /\ outcome_of (calls w) w3 = Some (Fulfilled RUnit).
Proof.
  exact (listener_logs_in_then_connects (boot node controller) logged_in
           "https://unifi.example:8443" eq_refl eq_refl eq_refl eq_refl).
Defined.

(** A successful login answer that sets no session cookie leaves the
    client without session: the constructor of the socket is called all
    the same, with a cookie that reads [unifises=null;], and when it
    returns the socket presents that cookie. *)
Theorem login_without_session_cookie_connects_as_null :
  forall (w : World) (r : Response) (b : string),
    _session (self w) = None ->
    _authenticationInProgress (self w) = false ->
    baseURL (self w) = Some b ->
    sets_no_session r ->
    let w2 :=
      run [Invoke CallStartWebsocketListener;
           Answered (length (inflight w)) (Success r)] w in
    _session (self w2) = None
    /\ match websocket w (socket_url b (self w)) "unifises=null;" with
       | None =>
           map sock_cookie (sockets w2)
           = map sock_cookie (sockets w) ++ ["unifises=null;"%string]
       | Some e =>
           sockets w2 = sockets w /\ unhandled w2 = unhandled w ++ [e]
       end.
Proof.
  intros w r b Hs Hflag Hb Hr w2.
  assert (Hn : has_session (self w) = false)
    by (unfold has_session; now rewrite Hs).
  assert (E2 := listener_login_answered w r b Hn Hflag Hb).
  cbv zeta in E2. subst w2. unfold run. cbn [fold_left]. rewrite E2.
  assert (Hc : _session (store_cookies (r_headers r) (self w)) = None)
    by (rewrite (store_cookies_no_session _ _ Hr); exact Hs).
  assert (Hsite : site (store_cookies (r_headers r) (self w)) = site (self w)).
  { now destruct (store_cookies_configuration (r_headers r) (self w))
      as (_ & _ & _ & H & _). }
  unfold socket_url, socket_cookie. rewrite Hc, Hsite. cbn [tmpl_null].
  change ("unifises=" ++ "null" ++ ";")%string with "unifises=null;"%string.
  destruct (websocket w _ "unifises=null;") as [e|];
    cbn [self sockets unhandled with_sockets unhandled_rejection].
  - now repeat split.
  - split; [exact Hc|]. rewrite map_app. unfold socket_of, socket_cookie.
    cbn [map sock_cookie]. now rewrite Hc.
Qed.

Lemma login_without_session_cookie_witness :
  let w := boot node controller in
  let w2 :=
    run [Invoke CallStartWebsocketListener;
         Answered (length (inflight w)) (Success no_cookie)] w in
  _session (self w2) = None
  /\ map sock_cookie (sockets w2)
     = map sock_cookie (sockets w) ++ ["unifises=null;"%string].
Proof.
  exact (login_without_session_cookie_connects_as_null (boot node controller)
           no_cookie "https://unifi.example:8443" eq_refl eq_refl eq_refl I).
Defined.



Lemma replace_scheme_http :
  forall rest, replace_scheme ("http:" ++ rest) = ("wss" ++ rest)%string.
Proof.
  intros rest. unfold replace_scheme, Str.starts_with. simpl.
  now destruct rest.
Qed.

Lemma replace_scheme_https :
  forall rest, replace_scheme ("https:" ++ rest) = ("https:" ++ rest)%string.
Proof. reflexivity. Qed.

(** With a session the listener neither logs in nor sends a request: in
    the turn of the call it calls the constructor of the socket, with the
    session as the cookie.  The pattern that rewrites the scheme of the
    URL reads [htt], an optional [p] and a colon: a base that starts with
    [https:] is handed over as it is, and of a base that starts with
    [http:] the colon is lost.  When the constructor returns there is one
    more socket; when it throws there is none, the exception is a
    rejection nobody handles and nothing is settled. *)
Theorem listener_with_session_connects_at_once :
  forall (w : World) (s b : string),
    _session (self w) = Some s ->
    Str.truthy s = true ->
    baseURL (self w) = Some b ->
    let w1 := step (Invoke CallStartWebsocketListener) w in
    let url := socket_url b (self w) in
    let cookie := ("unifises=" ++ s ++ ";")%string in
    sent w1 = sent w
    /\ inflight w1 = inflight w
    /\ self w1 = self w
    /\ settled w1 = settled w
    /\ (forall rest, b = ("https:" ++ rest)%string ->
          url = (b ++ "/wss/s/" ++ site (self w) ++ "/events")%string)
    /\ (forall rest, b = ("http:" ++ rest)%string ->
          url = ("wss" ++ rest ++ "/wss/s/" ++ site (self w)
                 ++ "/events")%string)
    /\ match websocket w url cookie with
       | None =>
           sockets w1 = sockets w ++ [mkSocket (calls w) url cookie Connecting]
           /\ unhandled w1 = unhandled w
       | Some e =>
           sockets w1 = sockets w /\ unhandled w1 = unhandled w ++ [e]
       end.
Proof.
  intros w s b Hs Ht Hb w1 url cookie.
  assert (Hck : socket_cookie (self w) = cookie)
    by (unfold socket_cookie; now rewrite Hs).
  assert (E : w1 = open_socket (calls w) (snd (new_call w))).
  { subst w1. unfold step, invoke.
    destruct (new_call w) as [id w0] eqn:E. unfold new_call in E.
    injection E as <- <-. unfold startWebsocketListener.
    cbn [self]. now rewrite Hs, Ht. }
  pose proof (open_socket_cases (calls w) (snd (new_call w)) b Hb) as H.
  change (websocket (snd (new_call w))) with (websocket w) in H.
  change (self (snd (new_call w))) with (self w) in H.
  change (sockets (snd (new_call w))) with (sockets w) in H.
  rewrite Hck in H. fold url in H. rewrite <- E in H.
  assert (H1 : forall rest, b = ("https:" ++ rest)%string ->
                 url = (b ++ "/wss/s/" ++ site (self w) ++ "/events")%string).
  { subst url. unfold socket_url. intros rest ->.
    now rewrite replace_scheme_https. }
  assert (H2 : forall rest, b = ("http:" ++ rest)%string ->
                 url = ("wss" ++ rest ++ "/wss/s/" ++ site (self w)
                        ++ "/events")%string).
  { subst url. unfold socket_url. intros rest ->.
    now rewrite replace_scheme_http, string_append_assoc. }
  destruct (websocket w url cookie) as [e|]; rewrite H;
    cbn [with_sockets unhandled_rejection sent inflight self sockets settled
         unhandled new_call snd];
    repeat (split; [reflexivity|]);
    (split; [exact H1|]); (split; [exact H2|]).
  - now split.
  - unfold socket_of. rewrite Hck. now split.
Qed.

Lemma listener_with_session_witness :
  let w := run [Invoke CallStartWebsocketListener;
                Answered 0 (Success logged_in)] (boot node controller) in
  let w1 := step (Invoke CallStartWebsocketListener) w in
  let url := "https://unifi.example:8443/wss/s/default/events"%string in
  let cookie := "unifises=k8U3Zq;"%string in
  sent w1 = sent w
  /\ inflight w1 = inflight w
  /\ self w1 = self w
  /\ settled w1 = settled w
  /\ (forall rest, "https://unifi.example:8443"%string
                   = ("https:" ++ rest)%string ->
        url = ("https://unifi.example:8443" ++ "/wss/s/" ++ site (self w)
               ++ "/events")%string)
  /\ (forall rest, "https://unifi.example:8443"%string
                   = ("http:" ++ rest)%string ->
        url = ("wss" ++ rest ++ "/wss/s/" ++ site (self w)
               ++ "/events")%string)
  /\ sockets w1 = sockets w ++ [mkSocket (calls w) url cookie Connecting]
  /\ unhandled w1 = unhandled w.
Proof.
  exact (listener_with_session_connects_at_once
           (run [Invoke CallStartWebsocketListener;
                 Answered 0 (Success logged_in)] (boot node controller))
           "k8U3Zq" "https://unifi.example:8443" eq_refl eq_refl eq_refl).
Defined.

(** A client whose base starts with [http:], on a platform that takes
    [wss://] and [https://] only: the URL has lost its colon, the
    constructor throws, and the call of the listener is never settled. *)
Example listener_on_a_plain_http_base :
  let w :=
    run [Invoke CallStartWebsocketListener; Answered 0 (Success logged_in)]
      (boot node
         (constructor
            (mkConfig (Some "http://unifi.example:8080") (Some "admin")
               (Some "secret") None None))) in
  sockets w = []
  /\ unhandled w
     = [EError "Invalid URL: wss//unifi.example:8080/wss/s/default/events"]
  /\ settled w = [].
Proof. repeat split. Qed.

(* ===================================================================== *)
(** * Batches that cannot be walked *)
(* ===================================================================== *)

Lemma throws_emit_one :
  forall bad e w,
    throws (error_listeners w) bad e -> emit_one bad w = inl e.
Proof.
  intros bad e w H. unfold emit_one.
  inversion H as [ev [Hn|Hu] | ev Hr Hp | ev Hr Hk Hl]; subst.
  - reflexivity.
  - reflexivity.
  - destruct (readable_get_prop bad "key" Hr) as [k Hk].
    unfold key_of in Hp. rewrite Hk in *. now rewrite Hp.
  - destruct (readable_get_prop bad "key" Hr) as [k Hk'].
    unfold key_of in Hk. rewrite Hk' in *. subst k.
    unfold emit. cbn [printable strict_eq_string].
    rewrite String.eqb_refl. now rewrite Hl.
Qed.

(** The walk emits the elements with plain keys one by one, and ends at
    the first element on which the callback throws. *)
Lemma emit_each_until :
  forall before bad after e w,
    Forall plain_event before ->
    throws (error_listeners w) bad e ->
    emit_each (before ++ bad :: after) w
    = mkWorld (self w) (inflight w) (sent w) (calls w) (settled w)
        (unhandled w) (sockets w)
        (emitted w ++ map (fun e => (key_of e, e)) before)
        (uncaught w ++ [e]) (websocket w) (error_listeners w).
Proof.
  induction before as [|x l IH]; intros bad after e w H Hbad.
  - cbn [app emit_each map]. rewrite (throws_emit_one _ _ _ Hbad).
    unfold throw. now rewrite app_nil_r.
  - inversion H as [|? ? Hx Hl]; subst.
    cbn [app emit_each]. rewrite (emit_one_plain _ _ Hx).
    rewrite (IH bad after e _ Hl); [|exact Hbad]. unfold emitted_as.
    cbn [self inflight sent calls settled unhandled sockets emitted uncaught
         websocket error_listeners map].
    now rewrite <- app_assoc.
Qed.

(** A batch is walked with [forEach], and nothing in the callback is
    guarded.  The walk ends at the first element on which the callback
    throws: a [null] element, whose key cannot be read; an element whose
    key cannot be printed; an element whose key is [error] while nothing
    is subscribed to ['error'].  The exception escapes the handler, the
    elements before that one were emitted, and that one and those after
    it never are.  When [data] is no array, absent included, a TypeError
    escapes before anything is emitted. *)
Theorem batch_stops_at_the_first_element_that_throws :
  forall (msg : string) (m meta d : JsVal) (w : World),
    JSON.parse msg = Some m ->
    get_prop m "meta" = Some meta ->
    get_prop meta "message" = Some (VString "events") ->
    get_prop m "data" = Some d ->
    let w' := on_message msg w in
    (forall before bad after e,
        d = VArray (before ++ bad :: after) ->
        Forall plain_event before ->
        throws (error_listeners w) bad e ->
        emitted w' = emitted w ++ map (fun e => (key_of e, e)) before
        /\ uncaught w' = uncaught w ++ [e])
    /\ ((forall events, d <> VArray events) ->
        emitted w' = emitted w /\ uncaught w' = uncaught w ++ [ETypeError]).
Proof.
  intros msg m meta d w Hp Hm Hn Hd w'. subst w'.
  unfold on_message, dispatch. rewrite Hp, Hm, Hn, Hd.
  cbn [strict_eq_string]. rewrite String.eqb_refl. split.
  - intros before bad after e -> Hb Hbad.
    now rewrite (emit_each_until _ _ _ _ _ Hb Hbad).
  - intros Hno. destruct d; try (split; reflexivity).
    now destruct (Hno l).
Qed.

Lemma batch_stops_witness :
  (emitted (on_message batch_with_null listening)
   = emitted listening
     ++ map (fun e => (key_of e, e)) [VObject [("key", VString "EVT_A")]]
   /\ uncaught (on_message batch_with_null listening)
      = uncaught listening ++ [ETypeError])
  /\ (emitted (on_message error_batch listening)
      = emitted listening ++ map (fun e => (key_of e, e)) []
      /\ uncaught (on_message error_batch listening)
         = uncaught listening
           ++ [EUnhandledError (VObject [("key", VString "error")])])
  /\ (emitted (on_message batch_with_unprintable_key listening)
      = emitted listening ++ map (fun e => (key_of e, e)) []
      /\ uncaught (on_message batch_with_unprintable_key listening)
         = uncaught listening ++ [ETypeError])
  /\ (emitted (on_message batch_without_data listening) = emitted listening
      /\ uncaught (on_message batch_without_data listening)
         = uncaught listening ++ [ETypeError]).
Proof.
  split; [|split; [|split]].
  - refine (proj1 (batch_stops_at_the_first_element_that_throws
                     batch_with_null
                     (VObject [("meta", VObject [("message", VString "events")]);
                               ("data",
                                VArray [VObject [("key", VString "EVT_A")];
                                        VNull;
                                        VObject [("key", VString "EVT_B")]])])
                     (VObject [("message", VString "events")])
                     (VArray [VObject [("key", VString "EVT_A")]; VNull;
                              VObject [("key", VString "EVT_B")]])
                     listening eq_refl eq_refl eq_refl eq_refl)
              [VObject [("key", VString "EVT_A")]] VNull
              [VObject [("key", VString "EVT_B")]] ETypeError eq_refl _ _).
    + repeat constructor; discriminate.
    + apply throws_unreadable. now left.
  - refine (proj1 (batch_stops_at_the_first_element_that_throws
                     error_batch
                     (VObject [("meta", VObject [("message", VString "events")]);
                               ("data",
                                VArray [VObject [("key", VString "error")];
                                        connected_event])])
                     (VObject [("message", VString "events")])
                     (VArray [VObject [("key", VString "error")];
                              connected_event])
                     listening eq_refl eq_refl eq_refl eq_refl)
              [] (VObject [("key", VString "error")]) [connected_event]
              (EUnhandledError (VObject [("key", VString "error")]))
              eq_refl _ _).
    + constructor.
    + apply throws_unhandled; [split; discriminate | reflexivity | reflexivity].
  - refine (proj1 (batch_stops_at_the_first_element_that_throws
                     batch_with_unprintable_key
                     (VObject [("meta", VObject [("message", VString "events")]);
                               ("data",
                                VArray [VObject [("key",
                                                  VObject [("toString", VNull)])];
                                        VObject [("key", VString "EVT_B")]])])
                     (VObject [("message", VString "events")])
                     (VArray [VObject [("key", VObject [("toString", VNull)])];
                              VObject [("key", VString "EVT_B")]])
                     listening eq_refl eq_refl eq_refl eq_refl)
              [] (VObject [("key", VObject [("toString", VNull)])])
              [VObject [("key", VString "EVT_B")]] ETypeError eq_refl _ _).
    + constructor.
    + apply throws_unprintable; [split; discriminate | reflexivity].
  - refine (proj2 (batch_stops_at_the_first_element_that_throws
                     batch_without_data
                     (VObject [("meta", VObject [("message", VString "events")])])
                     (VObject [("message", VString "events")])
                     VUndefined listening eq_refl eq_refl eq_refl eq_refl) _).
    intros events. discriminate.
Defined.

(* ===================================================================== *)
(** * The numbers of a filter stay in their bounds *)
(* ===================================================================== *)

Lemma SFltb_SFleb : forall a b, SFltb a b = true -> SFleb a b = true.
Proof.
  intros a b. unfold SFltb, SFleb.
  now destruct (SFcompare a b) as [[| |]|].
Qed.

Lemma start_in_bounds :
  forall x, SFleb Num.zero (above_or Num.zero Num.zero x) = true.
Proof.
  intros [n|]; simpl; [|reflexivity].
  destruct (Num.gt n Num.zero) eqn:E; [|reflexivity].
  now apply SFltb_SFleb.
Qed.

Lemma limit_in_bounds :
  forall x, SFltb Num.zero (above_or Num.zero Num.hundred x) = true.
Proof.
  intros [n|]; simpl; [|reflexivity].
  destruct (Num.gt n Num.zero) eqn:E; [exact E | reflexivity].
Qed.

Lemma within_in_bounds :
  forall x, SFleb Num.one (above_or Num.one Num.one x) = true.
Proof.
  intros [n|]; simpl; [|reflexivity].
  destruct (Num.gt n Num.one) eqn:E; [|reflexivity].
  now apply SFltb_SFleb.
Qed.

(** Whatever the caller passes as [start], [limit], [period] and
    [archived], NaN, infinities and negative numbers included, the filter
    that goes out is in bounds: [_start] is at least 0, [_limit] is above
    0, [within] is at least 1 (so none of them is NaN), and [archived] is
    [false] or a truthy value. *)
Theorem filters_stay_in_bounds :
  forall (options : FilterArg) (site : option string) (id : nat) (w : World),
    (exists f s l a,
        sent (getAlarms id options site w) = sent w ++ [f]
        /\ carried "_start" f = Some (VNumber s)
        /\ carried "_limit" f = Some (VNumber l)
        /\ carried "archived" f = Some a
        /\ SFleb Num.zero s = true /\ SFltb Num.zero l = true
        /\ (a = VBool false \/ truthy a = true))
    /\ (exists f s l p,
           sent (getEvents id options site w) = sent w ++ [f]
           /\ carried "_start" f = Some (VNumber s)
           /\ carried "_limit" f = Some (VNumber l)
           /\ carried "within" f = Some (VNumber p)
           /\ SFleb Num.zero s = true /\ SFltb Num.zero l = true
           /\ SFleb Num.one p = true)
    /\ (exists f l p,
           sent (getRogueAP id options site w) = sent w ++ [f]
           /\ carried "_limit" f = Some (VNumber l)
           /\ carried "within" f = Some (VNumber p)
           /\ SFltb Num.zero l = true /\ SFleb Num.one p = true).
Proof.
  intros options site id w.
  unfold getAlarms, getEvents, getRogueAP.
  destruct (filter_args options site) as [o s].
  unfold _apiRequest, axios. cbn [sent]. repeat split.
  - do 4 eexists. split; [reflexivity|].
    split; [reflexivity|]. split; [reflexivity|]. split; [reflexivity|].
    split; [apply start_in_bounds|]. split; [apply limit_in_bounds|].
    unfold filter_archived. destruct (truthy (f_archived o)) eqn:E; auto.
  - do 4 eexists. split; [reflexivity|].
    split; [reflexivity|]. split; [reflexivity|]. split; [reflexivity|].
    split; [apply start_in_bounds|]. split; [apply limit_in_bounds|].
    apply within_in_bounds.
  - do 3 eexists. split; [reflexivity|].
    split; [reflexivity|]. split; [reflexivity|].
    split; [apply limit_in_bounds | apply within_in_bounds].
Qed.

(* ===================================================================== *)
(** * What the mac address pattern lets pass *)
(* ===================================================================== *)

Lemma mac_search_cons :
  forall x l, mac_search (x :: l) = groups_at 5 (x :: l) || mac_search l.
Proof. reflexivity. Qed.

Lemma groups_at_app :
  forall n l r, groups_at n l = true -> groups_at n (l ++ r) = true.
Proof.
  induction n as [|n IH]; intros l r H; [reflexivity|].
  destruct l as [|a [|b [|s l]]]; try discriminate.
  cbn [groups_at app] in *.
  destruct (is_hex a && is_hex b && is_sep s); [|discriminate].
  cbn [andb] in *. now apply IH.
Qed.

Lemma groups_at_length :
  forall n l, groups_at n l = true -> 3 * n <= length l.
Proof.
  induction n as [|n IH]; intros l H; [simpl; lia|].
  destruct l as [|a [|b [|s l]]]; try discriminate.
  cbn [groups_at] in H. apply andb_prop in H. destruct H as [_ H].
  apply IH in H. cbn [length]. lia.
Qed.

Lemma mac_search_app_r :
  forall l r, mac_search l = true -> mac_search (l ++ r) = true.
Proof.
  induction l as [|x l IH]; intros r H; [discriminate|].
  change ((x :: l) ++ r) with (x :: (l ++ r)).
  rewrite mac_search_cons in *. apply orb_prop in H. apply orb_true_iff.
  destruct H as [H|H].
  - left. now apply (groups_at_app 5 (x :: l) r).
  - right. now apply IH.
Qed.

Lemma mac_search_app_l :
  forall p l, mac_search l = true -> mac_search (p ++ l) = true.
Proof.
  induction p as [|x p IH]; intros l H; [exact H|].
  change ((x :: p) ++ l) with (x :: (p ++ l)).
  rewrite mac_search_cons. apply orb_true_iff. right. now apply IH.
Qed.

Lemma mac_search_length :
  forall l, mac_search l = true -> 15 <= length l.
Proof.
  induction l as [|x l IH]; intros H; [discriminate|].
  rewrite mac_search_cons in H. apply orb_prop in H. destruct H as [H|H].
  - now apply (groups_at_length 5).
  - apply IH in H. cbn [length]. lia.
Qed.

Lemma chars_length : forall s, length (Str.chars s) = String.length s.
Proof.
  unfold Str.chars. induction s as [|c s IH]; simpl; [reflexivity|].
  now rewrite IH.
Qed.

(** The pattern asks for five groups of two hex digits and a separator,
    anywhere in the entry: whatever surrounds an entry that passes passes
    too, so the sixth pair of an address is never looked at; and no entry
    of fewer than 15 characters passes. *)
Theorem mac_pattern_is_not_anchored :
  forall (s : string),
    mac_match s = true ->
    15 <= String.length s
    /\ forall before after : string,
         mac_match (before ++ s ++ after) = true
         /\ check_macs [VString (before ++ s ++ after)] = None.
Proof.
  intros s H. unfold mac_match in *. split.
  - rewrite <- chars_length. now apply mac_search_length.
  - intros before after.
    assert (Hm : mac_search (Str.chars (before ++ s ++ after)) = true).
    { rewrite !chars_append. apply mac_search_app_l.
      now apply mac_search_app_r. }
    split; [exact Hm|]. cbn [check_macs]. unfold mac_match. now rewrite Hm.
Qed.

Lemma mac_pattern_is_not_anchored_witness :
  15 <= String.length "AA:BB:CC:DD:EE:"
  /\ forall before after : string,
       mac_match (before ++ "AA:BB:CC:DD:EE:" ++ after) = true
       /\ check_macs [VString (before ++ "AA:BB:CC:DD:EE:" ++ after)] = None.
Proof.
  exact (mac_pattern_is_not_anchored "AA:BB:CC:DD:EE:" eq_refl).
Defined.

(** An entry of fewer than 15 characters never passes. *)
Theorem short_entries_are_rejected :
  forall (s : string) (site : option string) (id : nat) (w : World),
    String.length s < 15 ->
    is_settled id w = false ->
    mac_match s = false
    /\ rejected_at_once invalid_mac id w (getClients id (VString s) site w)
    /\ rejected_at_once invalid_mac id w (getDevices id (VString s) site w).
Proof.
  intros s site id w Hlen Hset.
  assert (Hm : mac_match s = false).
  { destruct (mac_match s) eqn:E; [|reflexivity]. unfold mac_match in E.
    apply mac_search_length in E. rewrite chars_length in E. lia. }
  split; [exact Hm|].
  unfold getClients, getDevices, mac_query, validate_macs.
  cbn [check_macs]. rewrite Hm.
  split; now apply finish_rejected_at_once.
Qed.

Lemma short_entries_are_rejected_witness :
  mac_match "AA:BB:CC:DD:EE" = false
  /\ rejected_at_once invalid_mac 0 (boot node controller)
       (getClients 0 (VString "AA:BB:CC:DD:EE") None (boot node controller))
  /\ rejected_at_once invalid_mac 0 (boot node controller)
       (getDevices 0 (VString "AA:BB:CC:DD:EE") None (boot node controller)).
Proof.
  apply (short_entries_are_rejected "AA:BB:CC:DD:EE" None 0 (boot node controller)).
  - simpl. lia.
  - reflexivity.
Defined.

(* ===================================================================== *)
(** * A filter that passes is sent *)
(* ===================================================================== *)

Lemma check_macs_accepted :
  forall l, Forall is_mac l -> check_macs l = None.
Proof.
  induction l as [|x l IH]; intros H; [reflexivity|].
  inversion H as [|? ? Hx Hl]; subst.
  destruct x; try contradiction. cbn [check_macs is_mac] in *.
  rewrite Hx. now apply IH.
Qed.

Lemma validate_macs_accepted :
  forall macs l, accepted macs l -> validate_macs macs = inr l.
Proof.
  intros macs l H. destruct macs; try contradiction; cbn [accepted] in H.
  - now subst.
  - destruct H as [Hm ->]. unfold validate_macs. cbn [check_macs].
    now rewrite Hm.
  - destruct H as [Hf ->]. unfold validate_macs.
    now rewrite (check_macs_accepted _ Hf).
Qed.

(** A filter that passes validation, the omitted filter and the empty
    array included, leads to exactly one request in the turn of the call:
    a POST to the [stat/sta] or [stat/device] path of the site passed
    (['default'] when none is), whose body is the text of the object that
    holds the entries as they were passed, a single address wrapped in an
    array.  The promise stays pending. *)
Theorem accepted_filter_is_sent :
  forall (macs : JsVal) (l : list JsVal) (site : option string) (id : nat)
         (w : World),
    accepted macs l ->
    (exists f,
        sent (getClients id macs site w) = sent w ++ [f]
        /\ inflight (getClients id macs site w) = inflight w ++ [f]
        /\ posts_macs ("/s/" ++ default_site site ++ "/stat/sta") l f
        /\ if_cont f = KCall id PInnerData)
    /\ (exists f,
           sent (getDevices id macs site w) = sent w ++ [f]
           /\ inflight (getDevices id macs site w) = inflight w ++ [f]
           /\ posts_macs ("/s/" ++ default_site site ++ "/stat/device") l f
           /\ if_cont f = KCall id PInnerData)
    /\ settled (getClients id macs site w) = settled w
    /\ settled (getDevices id macs site w) = settled w.
Proof.
  intros macs l site id w H.
  unfold getClients, getDevices, mac_query.
  rewrite (validate_macs_accepted _ _ H).
  unfold _apiRequest, axios. cbn [sent inflight settled].
  repeat split; eexists; repeat split.
Qed.

Lemma accepted_filter_is_sent_witness :
  let macs := VString "aa:bb:cc:dd:ee:ff" in
  let l := [VString "aa:bb:cc:dd:ee:ff"] in
  let w := boot node controller in
  (exists f,
      sent (getClients 0 macs (Some "office") w) = sent w ++ [f]
      /\ inflight (getClients 0 macs (Some "office") w) = inflight w ++ [f]
      /\ posts_macs ("/s/" ++ default_site (Some "office") ++ "/stat/sta") l f
      /\ if_cont f = KCall 0 PInnerData)
  /\ (exists f,
         sent (getDevices 0 macs (Some "office") w) = sent w ++ [f]
         /\ inflight (getDevices 0 macs (Some "office") w) = inflight w ++ [f]
         /\ posts_macs ("/s/" ++ default_site (Some "office") ++ "/stat/device")
              l f
         /\ if_cont f = KCall 0 PInnerData)
  /\ settled (getClients 0 macs (Some "office") w) = settled w
  /\ settled (getDevices 0 macs (Some "office") w) = settled w.
Proof.
  exact (accepted_filter_is_sent (VString "aa:bb:cc:dd:ee:ff")
           [VString "aa:bb:cc:dd:ee:ff"] (Some "office") 0 (boot node controller)
           (conj eq_refl eq_refl)).
Defined.

(* ===================================================================== *)
(** * Answers without the expected body *)
(* ===================================================================== *)

(** The eight methods that resolve with [response.data.data] read it
    without a test.  When the body of a successful answer is [null] or
    [undefined] the read throws in the [then] handler, and the [catch]
    that follows rejects the call with the TypeError; when the body is a
    text (an HTML page, an empty answer) the call resolves with
    [undefined].  This holds for a request that was sent again after a
    re-authentication as well. *)
Theorem answer_without_the_expected_body :
  forall (w : World) (i n : nat) (f : InFlight) (id : nat) (r : Response),
    nth_error (inflight w) i = Some f ->
    if_cont f = outer n (KCall id PInnerData) ->
    is_settled id w = false ->
    let w' := answer i (Success r) w in
    (r_data r = VNull \/ r_data r = VUndefined ->
       outcome_of id w' = Some (Rejected ETypeError))
    /\ (forall s, r_data r = VString s ->
          outcome_of id w' = Some (Fulfilled (RValue VUndefined)))
    /\ sent w' = sent w.
Proof.
  intros w i n f id r Hf Hk Hset w'. subst w'.
  unfold answer. rewrite Hf. unfold on_success. rewrite Hk, settle_outer.
  cbn [settle project data]. rewrite finish_sent.
  split; [|split; [|reflexivity]].
  - intros [H|H]; rewrite H; cbn [get_prop];
      now apply outcome_of_finish.
  - intros s H. rewrite H. cbn [get_prop]. now apply outcome_of_finish.
Qed.

Lemma answer_without_the_expected_body_witness :
  let w := run [Invoke (CallGetHealth None)] (boot node controller) in
  outcome_of 0 (answer 0 (Success null_body) w) = Some (Rejected ETypeError)
  /\ outcome_of 0 (answer 0 (Success text_body) w)
     = Some (Fulfilled (RValue VUndefined)).
Proof.
  split.
  - exact (proj1 (answer_without_the_expected_body
                    (run [Invoke (CallGetHealth None)] (boot node controller)) 0 0
                    (mkInFlight
                       (prepare controller (get "/s/default/stat/health")
                          empty_body)
                       empty_body (KCall 0 PInnerData))
                    0 null_body eq_refl eq_refl eq_refl)
             (or_introl eq_refl)).
  - exact (proj1 (proj2 (answer_without_the_expected_body
                    (run [Invoke (CallGetHealth None)] (boot node controller)) 0 0
                    (mkInFlight
                       (prepare controller (get "/s/default/stat/health")
                          empty_body)
                       empty_body (KCall 0 PInnerData))
                    0 text_body eq_refl eq_refl eq_refl))
             "ok"%string eq_refl).
Defined.
(* ===================================================================== *)
(** * Every request goes where the constructor was told *)
(* ===================================================================== *)

Section Configured.

Variable options : Config.

Lemma configured_request :
  forall c o body k,
    settings_of options c ->
    match k with KLogin _ => False | _ => True end ->
    configured options (mkInFlight (prepare c o body) body k).
Proof.
  intros c o body k (Hb & _ & _ & _ & Hr) Hk.
  unfold configured, prepare, request_headers, is_login.
  cbn [if_options if_body if_cont o_baseURL o_httpsAgent o_data o_headers
       o_method o_url].
  rewrite Hb, Hr. repeat split.
  - now eexists.
  - destruct k; [discriminate | discriminate | contradiction].
  - destruct k; [discriminate | discriminate | contradiction].
  - destruct k; [discriminate | discriminate | contradiction].
Qed.

Lemma configured_login :
  forall c a,
    settings_of options c ->
    configured options
      (mkInFlight (prepare c login_options (login_body c)) (login_body c)
         (KLogin a)).
Proof.
  intros c a (Hb & Hu & Hp & _ & Hr).
  unfold configured, prepare, request_headers, login_body.
  cbn [if_options if_body if_cont o_baseURL o_httpsAgent o_data o_headers
       o_method o_url login_options literal o_path or_default Str.truthy].
  rewrite Hb, Hr, Hu, Hp. repeat split. now eexists.
Qed.

Lemma keeps_same :
  forall w w', self w' = self w -> sent w' = sent w ->
    keeps options w -> keeps options w'.
Proof. unfold keeps. intros w w' -> ->. exact (fun H => H). Qed.

Lemma keeps_finish :
  forall id o w, keeps options w -> keeps options (finish id o w).
Proof.
  intros id o w. apply keeps_same; [apply finish_self | apply finish_sent].
Qed.

Lemma keeps_open_socket :
  forall id w, keeps options w -> keeps options (open_socket id w).
Proof.
  intros id w. apply keeps_same; unfold open_socket;
    (destruct (baseURL (self w)); [destruct (websocket w _ _)|]);
    reflexivity.
Qed.

Lemma keeps_send :
  forall o body k w,
    match k with KLogin _ => False | _ => True end ->
    keeps options w -> keeps options (_apiRequest o body k w).
Proof.
  intros o body k w Hk [Hs Hf]. split; [exact Hs|].
  unfold _apiRequest, axios. cbn [sent]. apply Forall_app. split; [exact Hf|].
  constructor; [|constructor]. now apply configured_request.
Qed.

Lemma keeps_flag :
  forall b w, keeps options w ->
    keeps options (set_authenticationInProgress b w).
Proof. intros b w [Hs Hf]. split; [exact Hs | exact Hf]. Qed.

Lemma keeps_authenticate :
  forall a w, keeps options w -> keeps options (_authenticate a w).
Proof.
  intros a w [Hs Hf]. split; [exact Hs|].
  unfold _authenticate, _apiRequest, axios. cbn [sent].
  apply Forall_app. split; [exact Hf|].
  constructor; [|constructor]. apply configured_login. exact Hs.
Qed.

Lemma keeps_store :
  forall h w, keeps options w ->
    keeps options (with_self (store_cookies h (self w)) w).
Proof.
  intros h w [(Hb & Hu & Hp & Hsi & Hr) Hf]. split; [|exact Hf].
  destruct (store_cookies_configuration h (self w))
    as (Eb & Eu & Ep & Es & Er & _).
  unfold settings_of. cbn [with_self self].
  now rewrite Eb, Eu, Ep, Es, Er.
Qed.

Lemma keeps_settle :
  forall k o w, keeps options w -> keeps options (settle k o w).
Proof.
  induction k using Cont_mutind
    with (P0 := fun a => forall err w,
                  keeps options w -> keeps options (authenticated a err w));
    intros.
  - cbn [settle]. now apply keeps_finish.
  - cbn [settle]. now apply IHk.
  - cbn [settle]. destruct o as [r|e]; apply IHk.
    + apply keeps_store. now apply keeps_flag.
    + now apply keeps_flag.
  - cbn [authenticated]. destruct err as [e|].
    + now apply IHk.
    + now apply keeps_send.
  - cbn [authenticated]. destruct err as [e|].
    + now apply keeps_finish.
    + now apply keeps_open_socket.
Qed.

Lemma keeps_answer :
  forall i a w, keeps options w -> keeps options (answer i a w).
Proof.
  intros i a w H. unfold answer.
  destruct (nth_error (inflight w) i) as [f|]; [|exact H].
  assert (H1 : keeps options (with_inflight (remove_nth i (inflight w)) w))
    by exact H.
  destruct a as [r|e].
  - unfold on_success. now apply keeps_settle.
  - unfold on_failure. destruct (is_self_signed e);
      [now apply keeps_settle|].
    destruct (negb _); [|now apply keeps_settle].
    destruct (response e) as [r|]; [|exact H1].
    destruct (status r =? 401)%Z;
      [now apply keeps_authenticate | now apply keeps_settle].
Qed.

Lemma keeps_invoke :
  forall c w, keeps options w -> keeps options (invoke c w).
Proof.
  intros c w H.
  assert (H1 : keeps options (snd (new_call w))) by exact H.
  destruct (invoke_cases c w) as [[e E] | [(o & body & pr & E) | [_ E]]];
    rewrite E.
  - now apply keeps_finish.
  - now apply keeps_send.
  - unfold startWebsocketListener.
    destruct (match _session (self (snd (new_call w))) with
              | Some s => Str.truthy s
              | None => false
              end);
      [now apply keeps_open_socket | now apply keeps_authenticate].
Qed.

Lemma keeps_step :
  forall e w, keeps options w -> keeps options (step e w).
Proof.
  intros [c | i a | i | i msg | i | i | l] w H; cbn [step];
    [| | | | | | exact H].
  - now apply keeps_invoke.
  - now apply keeps_answer.
  - unfold on_open. destruct (nth_error (sockets w) i) as [k|]; [|exact H].
    destruct (sock_state k); try exact H. now apply keeps_finish.
  - unfold on_socket_message.
    destruct (nth_error (sockets w) i) as [k|]; [|exact H].
    destruct (sock_state k); try exact H.
    destruct (on_message_same msg w) as (Hs & _ & Hf & _).
    now apply (keeps_same w).
  - exact H.
  - exact H.
Qed.

End Configured.

(** Over every run of a client, whatever is called and whatever the
    network answers: the settings the constructor stored are never
    changed, and every request handed to axios goes to the configured
    base followed by [/api], through an agent with the configured
    certificate check, carries its body as [data] and the two fixed
    headers before any other; every login is a POST to [/login] with the
    configured account. *)
Theorem requests_stay_configured :
  forall (ws : string -> string -> option JsError) (options : Config)
         (es : list Event),
    let w := run es (boot ws (constructor options)) in
    settings_of options (self w) /\ Forall (configured options) (sent w).
Proof.
  intros ws options es.
  assert (H : keeps options (boot ws (constructor options))).
  { split; [|constructor]. repeat split. }
  revert H. unfold run. generalize (boot ws (constructor options)).
  induction es as [|e es IH]; intros w H; [exact H|].
  cbn [fold_left]. apply IH. now apply keeps_step.
Qed.

(* ===================================================================== *)
(** * What the events of a socket and the answers of the network leave
      alone *)
(* ===================================================================== *)

Lemma update_nth_map :
  forall (A B : Type) (g : A -> B) (f : A -> A) (i : nat) (l : list A),
    (forall x, g (f x) = g x) -> map g (update_nth i f l) = map g l.
Proof.
  intros A B g f i l H. revert i.
  induction l as [|x l IH]; intros [|i]; simpl; try reflexivity.
  - now rewrite H.
  - now rewrite IH.
Qed.

(** No handler of a socket sends a request, touches the client or
    creates a socket: when a socket closes or fails the client does not
    connect again, nor does it log in again. *)
Theorem socket_events_send_nothing :
  forall (e : Event) (w : World),
    socket_event e = true ->
    let w' := step e w in
    self w' = self w
    /\ sent w' = sent w
    /\ inflight w' = inflight w
    /\ map sock_call (sockets w') = map sock_call (sockets w)
    /\ map sock_url (sockets w') = map sock_url (sockets w)
    /\ map sock_cookie (sockets w') = map sock_cookie (sockets w).
Proof.
  intros [c | i a | i | i msg | i | i | l] w He; try discriminate;
    cbv zeta; cbn [step].
  - unfold on_open. destruct (nth_error (sockets w) i) as [k|];
      [|now repeat split].
    destruct (sock_state k); [|now repeat split|now repeat split].
    rewrite finish_self, finish_sent, finish_inflight, finish_sockets.
    cbn [with_sockets self sent inflight sockets].
    repeat split; now apply update_nth_map.
  - unfold on_socket_message. destruct (nth_error (sockets w) i) as [k|];
      [|now repeat split].
    destruct (sock_state k); [now repeat split| |now repeat split].
    destruct (on_message_same msg w) as (Hs & Hi & Hf & _ & _ & _ & Hk).
    now rewrite Hs, Hi, Hf, Hk.
  - unfold on_close. cbn [with_sockets self sent inflight sockets].
    repeat split; now apply update_nth_map.
  - now repeat split.
Qed.

Lemma socket_events_send_nothing_witness :
  let w' := step (SocketClosed 0) listening in
  self w' = self listening
  /\ sent w' = sent listening
  /\ inflight w' = inflight listening
  /\ map sock_call (sockets w') = map sock_call (sockets listening)
  /\ map sock_url (sockets w') = map sock_url (sockets listening)
  /\ map sock_cookie (sockets w') = map sock_cookie (sockets listening).
Proof.
  exact (socket_events_send_nothing (SocketClosed 0) listening eq_refl).
Defined.

Section Quiet.

Variables (E : list (JsVal * JsVal)) (U : list JsError).

Lemma quiet_same :
  forall w w', emitted w' = emitted w -> uncaught w' = uncaught w ->
    quiet E U w -> quiet E U w'.
Proof. unfold quiet. intros w w' -> ->. exact (fun H => H). Qed.

Lemma quiet_finish : forall id o w, quiet E U w -> quiet E U (finish id o w).
Proof.
  intros id o w. apply quiet_same; unfold finish;
    now destruct (is_settled id w).
Qed.

Lemma quiet_open_socket : forall id w, quiet E U w -> quiet E U (open_socket id w).
Proof.
  intros id w. apply quiet_same; unfold open_socket;
    (destruct (baseURL (self w)); [destruct (websocket w _ _)|]);
    reflexivity.
Qed.

Lemma quiet_settle : forall k o w, quiet E U w -> quiet E U (settle k o w).
Proof.
  induction k using Cont_mutind
    with (P0 := fun a => forall err w, quiet E U w -> quiet E U (authenticated a err w));
    intros.
  - cbn [settle]. now apply quiet_finish.
  - cbn [settle]. now apply IHk.
  - cbn [settle]. destruct o as [r|e]; now apply IHk.
  - cbn [authenticated]. destruct err as [e|]; [now apply IHk | exact H].
  - cbn [authenticated]. destruct err as [e|];
      [now apply quiet_finish | now apply quiet_open_socket].
Qed.

Lemma quiet_answer : forall i a w, quiet E U w -> quiet E U (answer i a w).
Proof.
  intros i a w H. unfold answer.
  destruct (nth_error (inflight w) i) as [f|]; [|exact H].
  assert (H1 : quiet E U (with_inflight (remove_nth i (inflight w)) w))
    by exact H.
  destruct a as [r|e].
  - unfold on_success. now apply quiet_settle.
  - unfold on_failure. destruct (is_self_signed e);
      [now apply quiet_settle|].
    destruct (negb _); [|now apply quiet_settle].
    destruct (response e) as [r|]; [|exact H1].
    destruct (status r =? 401)%Z; [exact H1 | now apply quiet_settle].
Qed.

Lemma quiet_invoke : forall c w, quiet E U w -> quiet E U (invoke c w).
Proof.
  intros c w H.
  assert (H1 : quiet E U (snd (new_call w))) by exact H.
  destruct (invoke_cases c w) as [[e Eq] | [(o & body & pr & Eq) | [_ Eq]]];
    rewrite Eq.
  - now apply quiet_finish.
  - exact H1.
  - unfold startWebsocketListener.
    destruct (match _session (self (snd (new_call w))) with
              | Some s => Str.truthy s
              | None => false
              end);
      [now apply quiet_open_socket | exact H1].
Qed.

Lemma quiet_step :
  forall e w, is_frame e = false -> quiet E U w -> quiet E U (step e w).
Proof.
  intros [c | i a | i | i msg | i | i | l] w He H; try discriminate;
    cbn [step]; [| | | | | exact H].
  - now apply quiet_invoke.
  - now apply quiet_answer.
  - unfold on_open. destruct (nth_error (sockets w) i) as [k|]; [|exact H].
    destruct (sock_state k); try exact H. now apply quiet_finish.
  - exact H.
  - exact H.
Qed.

End Quiet.

(** Events are emitted, and exceptions escape, in the handler of
    ['message'] only: no call of a method, no answer of the network and
    no other event of a socket emits an event, however long the chain of
    logins and repeated requests it sets off. *)
Theorem only_frames_emit :
  forall (es : list Event) (w : World),
    forallb (fun e => negb (is_frame e)) es = true ->
    emitted (run es w) = emitted w /\ uncaught (run es w) = uncaught w.
Proof.
  induction es as [|e es IH]; intros w H; [now split|].
  cbn [forallb] in H. apply andb_prop in H. destruct H as [He Hes].
  unfold run in *. cbn [fold_left].
  destruct (IH (step e w) Hes) as [H1 H2]. rewrite H1, H2.
  apply (quiet_step (emitted w) (uncaught w) e w);
    [now destruct (is_frame e) | now split].
Qed.

Lemma only_frames_emit_witness :
  let es := [Invoke (CallGetHealth None); Answered 0 (Failure unauthorized);
             Answered 0 (Success logged_in); Answered 0 (Success listing);
             SocketClosed 0] in
  emitted (run es listening) = emitted listening
  /\ uncaught (run es listening) = uncaught listening.
Proof.
  exact (only_frames_emit
           [Invoke (CallGetHealth None); Answered 0 (Failure unauthorized);
            Answered 0 (Success logged_in); Answered 0 (Success listing);
            SocketClosed 0] listening eq_refl).
Defined.

(* ===================================================================== *)
(** * The site of the constructor and the site of a query *)
(* ===================================================================== *)

(** The site the constructor stores is read by the listener only.  The
    query methods take the site as an argument, ['default'] when it is
    omitted: what they send does not depend on the site the client was
    constructed with. *)
Theorem queries_do_not_read_the_configured_site :
  forall (c : Call) (s : string) (w : World),
    c <> CallStartWebsocketListener ->
    sent (invoke c (with_site s w)) = sent (invoke c w)
    /\ inflight (invoke c (with_site s w)) = inflight (invoke c w)
    /\ settled (invoke c (with_site s w)) = settled (invoke c w).
Proof.
  intros c s w Hc. unfold invoke.
  destruct c as [o b | o si | m si | m si | o si | si | o si | si | | si | ];
    try contradiction; cbn [new_call];
    unfold getAlarms, getClients, getDevices, getEvents, getHealth,
      getRogueAP, getRoutes, getSites, getSystemInfo, mac_query, site_query;
    try destruct (filter_args o si) as [fo fs];
    try destruct (validate_macs m) as [e|l];
    repeat split;
    unfold finish, is_settled; cbn [settled calls with_site with_self];
    now destruct (existsb _ (settled w)).
Qed.

Lemma queries_do_not_read_the_configured_site_witness :
  let w := boot node controller in
  sent (invoke (CallGetHealth None) (with_site "office" w))
  = sent (invoke (CallGetHealth None) w)
  /\ inflight (invoke (CallGetHealth None) (with_site "office" w))
     = inflight (invoke (CallGetHealth None) w)
  /\ settled (invoke (CallGetHealth None) (with_site "office" w))
     = settled (invoke (CallGetHealth None) w).
Proof.
  apply (queries_do_not_read_the_configured_site (CallGetHealth None)
           "office" (boot node controller)).
  discriminate.
Defined.
(* ===================================================================== *)
(** * The flag is never left up *)
(* ===================================================================== *)

Lemma backed_same :
  forall w w', self w' = self w -> inflight w' = inflight w ->
    flag_is_backed w -> flag_is_backed w'.
Proof.
  unfold flag_is_backed, logins_in_flight. intros w w' -> ->.
  exact (fun H => H).
Qed.

Lemma backed_down :
  forall w, _authenticationInProgress (self w) = false -> flag_is_backed w.
Proof. intros w H H'. rewrite H in H'. discriminate. Qed.

Lemma backed_finish :
  forall id o w, flag_is_backed w -> flag_is_backed (finish id o w).
Proof.
  intros id o w. apply backed_same; [apply finish_self | apply finish_inflight].
Qed.

Lemma backed_open_socket :
  forall id w, flag_is_backed w -> flag_is_backed (open_socket id w).
Proof.
  intros id w. apply backed_same; unfold open_socket;
    (destruct (baseURL (self w)); [destruct (websocket w _ _)|]);
    reflexivity.
Qed.

Lemma backed_send :
  forall o body k w,
    flag_is_backed w -> flag_is_backed (_apiRequest o body k w).
Proof.
  intros o body k w H Hflag. specialize (H Hflag).
  unfold logins_in_flight, _apiRequest, axios in *. cbn [inflight].
  rewrite filter_snoc. lia.
Qed.

Lemma backed_authenticate :
  forall a w, flag_is_backed (_authenticate a w).
Proof.
  intros a w _. unfold logins_in_flight, _authenticate, _apiRequest, axios.
  cbn [inflight]. rewrite filter_snoc. cbn [is_login if_cont]. lia.
Qed.

Lemma backed_authenticated :
  forall a err w,
    (forall k o w, flag_is_backed w -> flag_is_backed (settle k o w)) ->
    flag_is_backed w -> flag_is_backed (authenticated a err w).
Proof.
  intros [o body k | id] [e|] w IH H; cbn [authenticated].
  - now apply IH.
  - now apply backed_send.
  - now apply backed_finish.
  - now apply backed_open_socket.
Qed.

Lemma backed_settle :
  forall k o w, flag_is_backed w -> flag_is_backed (settle k o w).
Proof.
  induction k using Cont_mutind
    with (P0 := fun a => forall err w,
                  flag_is_backed w -> flag_is_backed (authenticated a err w));
    intros.
  - cbn [settle]. now apply backed_finish.
  - cbn [settle]. now apply IHk.
  - cbn [settle]. destruct o as [r|e]; apply IHk; apply backed_down.
    + cbn [with_self self]. now rewrite store_cookies_flag.
    + reflexivity.
  - cbn [authenticated]. destruct err as [e|].
    + now apply IHk.
    + now apply backed_send.
  - cbn [authenticated]. destruct err as [e|].
    + now apply backed_finish.
    + now apply backed_open_socket.
Qed.

(** The handlers of a login lower the flag before anything else: what
    they leave is backed whatever the world was. *)
Lemma backed_settle_login :
  forall a o w, flag_is_backed (settle (KLogin a) o w).
Proof.
  intros a o w. cbn [settle].
  destruct o as [r|e];
    (apply backed_authenticated; [exact backed_settle|]); apply backed_down.
  - cbn [with_self self]. now rewrite store_cookies_flag.
  - reflexivity.
Qed.

Lemma backed_settle_any :
  forall f o i w,
    nth_error (inflight w) i = Some f ->
    flag_is_backed w ->
    flag_is_backed
      (settle (if_cont f) o (with_inflight (remove_nth i (inflight w)) w)).
Proof.
  intros f o i w Hf H.
  destruct (if_cont f) as [id pr | k | a] eqn:Ek.
  - apply backed_settle. intros Hflag. specialize (H Hflag).
    unfold logins_in_flight in *. cbn [with_inflight inflight].
    assert (Hl : is_login f = false) by (unfold is_login; now rewrite Ek).
    rewrite (remove_nth_logins _ _ _ Hf), Hl in H. lia.
  - apply backed_settle. intros Hflag. specialize (H Hflag).
    unfold logins_in_flight in *. cbn [with_inflight inflight].
    assert (Hl : is_login f = false) by (unfold is_login; now rewrite Ek).
    rewrite (remove_nth_logins _ _ _ Hf), Hl in H. lia.
  - apply backed_settle_login.
Qed.

Lemma backed_answer :
  forall i a w, flag_is_backed w -> flag_is_backed (answer i a w).
Proof.
  intros i a w H. unfold answer.
  destruct (nth_error (inflight w) i) as [f|] eqn:Hf; [|exact H].
  destruct a as [r|e].
  - unfold on_success. now apply backed_settle_any.
  - unfold on_failure. destruct (is_self_signed e);
      [now apply backed_settle_any|].
    destruct (_authenticationInProgress
                (self (with_inflight (remove_nth i (inflight w)) w))) eqn:Hfl;
      cbn [negb]; [now apply backed_settle_any|].
    destruct (response e) as [r|]; [|now apply backed_down].
    destruct (status r =? 401)%Z;
      [apply backed_authenticate | now apply backed_settle_any].
Qed.

Lemma backed_invoke :
  forall c w, flag_is_backed w -> flag_is_backed (invoke c w).
Proof.
  intros c w H.
  assert (H1 : flag_is_backed (snd (new_call w))) by exact H.
  destruct (invoke_cases c w) as [[e E] | [(o & body & pr & E) | [_ E]]];
    rewrite E.
  - now apply backed_finish.
  - now apply backed_send.
  - unfold startWebsocketListener.
    destruct (match _session (self (snd (new_call w))) with
              | Some s => Str.truthy s
              | None => false
              end);
      [now apply backed_open_socket | apply backed_authenticate].
Qed.

Lemma backed_step :
  forall e w, flag_is_backed w -> flag_is_backed (step e w).
Proof.
  intros [c | i a | i | i msg | i | i | l] w H; cbn [step];
    [| | | | | | exact H].
  - now apply backed_invoke.
  - now apply backed_answer.
  - unfold on_open. destruct (nth_error (sockets w) i) as [k|]; [|exact H].
    destruct (sock_state k); try exact H. now apply backed_finish.
  - unfold on_socket_message.
    destruct (nth_error (sockets w) i) as [k|]; [|exact H].
    destruct (sock_state k); try exact H.
    destruct (on_message_same msg w) as (Hs & Hi & _).
    now apply (backed_same w).
  - exact H.
  - exact H.
Qed.

(** Over every run of a client, also one in which the listener is
    started while an authentication is in progress: whenever
    [_authenticationInProgress] is true a login request is outstanding.
    Every way a login can end lowers the flag, so the flag is never left
    up with nothing to lower it, and a later 401 starts a new login. *)
Theorem the_flag_is_up_only_while_a_login_is_outstanding :
  forall (ws : string -> string -> option JsError) (options : Config)
         (es : list Event),
    _authenticationInProgress (self (run es (boot ws (constructor options))))
    = true ->
    1 <= logins_in_flight (run es (boot ws (constructor options))).
Proof.
  intros ws options es.
  assert (H : flag_is_backed (boot ws (constructor options)))
    by (apply backed_down; reflexivity).
  revert H. unfold run. generalize (boot ws (constructor options)).
  induction es as [|e es IH]; intros w H; [exact H|].
  cbn [fold_left]. apply IH. now apply backed_step.
Qed.

Lemma the_flag_is_up_witness :
  1 <= logins_in_flight
         (run [Invoke (CallGetHealth None); Answered 0 (Failure unauthorized)]
            (boot node
               (constructor
                  (mkConfig (Some "https://unifi.example:8443")
                     (Some "admin") (Some "secret") None (Some true))))).
Proof.
  exact (the_flag_is_up_only_while_a_login_is_outstanding node
           (mkConfig (Some "https://unifi.example:8443") (Some "admin")
              (Some "secret") None (Some true))
           [Invoke (CallGetHealth None); Answered 0 (Failure unauthorized)]
           eq_refl).
Defined.
